(** * noised: rain and thunder synthesis engine

    A shallow embedding of the two generations of generators of the library
    (the original [RainGenerator], [ThunderGenerator] and [NoiseDController],
    and their [V2] successors built on [BaseGenerator]), with the properties
    of the engine stated and proved over it.

    Conventions of the embedding.
    - A JavaScript [number] is an exact rational ([Q]): arithmetic is not
      rounded and there is neither NaN nor an infinity.  Buffer lengths,
      channel counts and byte values are integers.
    - The host's [Math.sin], [Math.exp], [Math.pow] and the sequence of
      values returned by successive calls of [Math.random()] are given by
      the class [MathHost]; the number of calls made so far is part of the
      state, so every call reads the next element of the sequence.
    - The Web Audio context is a store of nodes ([host]); an [AudioParam]
      is represented by its current value. *)

From Stdlib Require Import QArith Qround Qminmax Lqa ZArith Sorted.
From stdpp Require Import gmap strings list fin_maps.

Open Scope Q_scope.

(** ** The host: [Math] *)

Class MathHost := {
  Math_sin : Q → Q;
  Math_exp : Q → Q;
  Math_pow : Q → Q → Q;
  (** [random_seq n] is what the [n]-th call of [Math.random()] returns. *)
  random_seq : nat → Q;
}.

(** [Math.PI], the double 3.141592653589793 written as the fraction it is. *)
Definition Math_PI : Q := 884279719003555 # 281474976710656.

Definition Math_min (a b : Q) : Q := if Qlt_le_dec b a then b else a.
Definition Math_max (a b : Q) : Q := if Qlt_le_dec a b then b else a.
Definition Math_floor (x : Q) : Z := Qfloor x.

(** Truthiness of a number in a condition: every number but zero. *)
Definition truthy (x : Q) : bool := negb (Qeq_bool x 0).

(** Conversion of a number to an array or buffer length (an unsigned
    integer): the fraction is dropped. *)
Definition to_length (x : Q) : nat := Z.to_nat (Qfloor x).

(** Conversion of a number to an [unsigned long], which the length given
    to [createBuffer] undergoes: the fraction is dropped, towards zero,
    and the integer is taken modulo 2^32. *)
Definition to_unsigned_long (x : Q) : nat :=
  Z.to_nat (Z.quot (Qnum x) (Zpos (Qden x)) mod 2 ^ 32).

(** ** Computations with state and failure *)

Inductive failure :=
  | InvalidStateError   (* the DOMException of start() and stop() *)
  | NotSupportedError   (* the DOMException of createBuffer() *)
  | RangeError          (* of an AudioParam method or a start time *)
  | OutOfFuel.          (* the bound on loop iterations of the model was reached *)

(** A computation returns a value and the state it leaves, or throws: the
    state of an exception is the one in which it was thrown, which is what
    the rest of the program finds when the exception ends only the
    callback it was thrown in. *)
Inductive outcome (St A : Type) :=
  | Done (r : A * St)
  | Thrown (e : failure) (s : St).
Arguments Done {St A} r.
Arguments Thrown {St A} e s.

Definition M (St A : Type) : Type := St → outcome St A.

Definition ret {St A} (a : A) : M St A := λ s, Done (a, s).
Definition bind {St A B} (m : M St A) (k : A → M St B) : M St B :=
  λ s, match m s with
       | Done (a, s') => k a s'
       | Thrown e s' => Thrown e s'
       end.
Definition throw {St A} (e : failure) : M St A := λ s, Thrown e s.
Definition get {St} : M St St := λ s, Done (s, s).
Definition put {St} (s : St) : M St unit := λ _, Done (tt, s).
Definition modify {St} (f : St → St) : M St unit := λ s, Done (tt, f s).

Declare Scope js_scope.
Delimit Scope js_scope with js.
Notation "'let*' x ':=' m 'in' k" := (bind m (λ x, k))
  (at level 10, x pattern, m at level 100, k at level 200) : js_scope.
Notation "m ;; k" := (bind m (λ _, k))
  (at level 100, k at level 200, right associativity) : js_scope.
Open Scope js_scope.

(** [for (let i = from; i < from + n; i++) body(i)] with an integer bound. *)
Fixpoint for_range {St} (from n : nat) (body : nat → M St unit) : M St unit :=
  match n with
  | O => ret tt
  | S n' => body from ;; for_range (S from) n' body
  end.

(** [for (let i = from; i < bound; i++) body(i)] where the bound is any
    number: the test is made before every iteration; [fuel] bounds the
    number of iterations the model follows. *)
Fixpoint for_below {St} (fuel : nat) (from : nat) (bound : Q)
    (body : nat → M St unit) : M St unit :=
  if Qlt_le_dec (inject_Z (Z.of_nat from)) bound then
    match fuel with
    | O => throw OutOfFuel
    | S fuel' => body from ;; for_below fuel' (S from) bound body
    end
  else ret tt.

(** ** Parameter kinds *)

Module RandParam.
Record t := mk { value : Q; rand : bool; dist : Q }.
End RandParam.

Module OscParam.
Record t := mk { value : Q; osc : bool; amp : Q; freq : Q }.
End OscParam.

(** ** BaseGenerator (V2) *)

Module BaseGenerator.




Definition setParam {V : Type} (params : gmap string V) (name : string)
  (value : V) : gmap string V :=
<[name := value]> params.

End BaseGenerator.

(** ** The host: audio context, timers and random source *)

Inductive node_kind :=
  | BufferSource | Oscillator | Gain | BiquadFilter | Convolver
  | StereoPanner | DynamicsCompressor.

(** A source node has not been started, is playing, or was stopped. *)
Inductive playback := Unscheduled | Playing | Ended.

(** An [AudioParam]: the frequency or the gain of a node. *)
Inductive audio_param := FrequencyOf (id : nat) | GainOf (id : nat).

(** The target of [connect]: the input of a node, or an [AudioParam]. *)
Inductive dest := ToNode (id : nat) | ToParam (p : audio_param).

Record node := mk_node {
  kind : node_kind;
  frequency : Q;             (* of a filter or an oscillator *)
  gain : Q;                  (* of a gain node or a peaking filter *)
  state : playback;          (* of a source *)
  loop : bool;               (* of a buffer source *)
  buffer : list (list Q);    (* one list of samples per channel *)
  outputs : list dest;
}.

(** Ephemeral voices.  A voice stands for the nodes that one call of the
    function that builds it creates and connects; it records the values
    those nodes are set up with. *)
Inductive voice :=
  (* ThunderGenerator (V1) *)
  | RumbleV1 (now freqStart freqEnd volume decay : Q)
  | BurstV1 (now duration volume filterFreq highPassFreq basePan : Q)
      (reverbWetLevel : option Q) (subLevel crackleAmount : Q)
      (body tail : list Q)
  (* RainGenerator (V1) *)
  | DropV1 (now : Q) (grain : list Q) (frequency q pan dryLevel : Q)
  (* V2/ThunderGenerator *)
  | BurstV2 (time volume duration freq pan subGain wet : Q)
  | RumbleV2 (time freqStart freqEnd decay volume pan wet : Q)
  | CracklePopV2 (time duration pan volume : Q) (clicks : list Q) (wet : Q)
  (* V2/RainGenerator *)
  | DropV2 (now duration : Q) (noise : list Q) (frequency q pan dry wet : Q).

(** What a [setTimeout] callback of the V1 thunder generator captured. *)
Inductive task :=
  | StrikeBody (rumbleFreqStart rumbleFreqEnd rumbleVolume rumbleDecay
                burstCount duration volume : Q)
  | SingleBurst (duration volume : Q).

Record host := mk_host {
  currentTime : Q;                (* seconds *)
  sampleRate : Q;
  random_calls : nat;             (* calls of Math.random() so far *)
  nodes : list node;              (* a node's id is its index *)
  voices : list voice;            (* in order of creation *)
  timeouts : list (Q * task);     (* pending callbacks, in the order of their
                                     registration, with the delay each was
                                     registered with, in milliseconds *)
  handles : gmap nat Q;           (* the timers whose handle the caller keeps:
                                     the period of a setInterval, the delay
                                     of a window.setTimeout *)
  next_handle : nat;              (* timer handles are positive and fresh *)
}.

Definition with_currentTime (t : Q) (h : host) : host :=
  mk_host t (sampleRate h) (random_calls h) (nodes h) (voices h)
          (timeouts h) (handles h) (next_handle h).
Definition with_random_calls (n : nat) (h : host) : host :=
  mk_host (currentTime h) (sampleRate h) n (nodes h) (voices h)
          (timeouts h) (handles h) (next_handle h).
Definition with_nodes (ns : list node) (h : host) : host :=
  mk_host (currentTime h) (sampleRate h) (random_calls h) ns (voices h)
          (timeouts h) (handles h) (next_handle h).
Definition with_voices (vs : list voice) (h : host) : host :=
  mk_host (currentTime h) (sampleRate h) (random_calls h) (nodes h) vs
          (timeouts h) (handles h) (next_handle h).
Definition with_timeouts (ts : list (Q * task)) (h : host) : host :=
  mk_host (currentTime h) (sampleRate h) (random_calls h) (nodes h) (voices h)
          ts (handles h) (next_handle h).
Definition with_handles (ids : gmap nat Q) (n : nat) (h : host) : host :=
  mk_host (currentTime h) (sampleRate h) (random_calls h) (nodes h) (voices h)
          (timeouts h) ids n.

Section Host.
Context `{MathHost}.

(** [Math.random()]: the next element of the sequence. *)
Definition Math_random : M host Q :=
λ h, Done (random_seq (random_calls h),
           with_random_calls (S (random_calls h)) h).

Definition now : M host Q := λ h, Done (currentTime h, h).
Definition rate : M host Q := λ h, Done (sampleRate h, h).

(** A voice is handed to the rendering engine. *)
Definition spawn (v : voice) : M host unit :=
modify (λ h, with_voices (voices h ++ [v]) h).

(** [ctx.createBuffer(1, length, rate).getChannelData(0)] for a length
    that the sample rate alone decides (two seconds, the length of an
    impulse response): zeros. *)
Definition createBuffer (length : Q) : list Q := replicate (to_length length) 0.

(** [ctx.createBuffer(1, length, rate).getChannelData(0)] for a length
    that depends on the parameters: no buffer has zero frames, and the
    call throws a NotSupportedError for a length that converts to 0.
    (The memory an implementation can give to a buffer is not bounded
    here.) *)
Definition ctx_createBuffer (length : Q) : M host (list Q) :=
match to_unsigned_long length with
| O => throw NotSupportedError
| S n => ret (replicate (S n) 0)
end.

(** What the audio engine checks of the automation of an [AudioParam]
    and of the schedule of a source.  A time handed to it -- the start
    time of [setValueAtTime], the end time of a ramp, the [when] of
    [start(when)] and [stop(when)] -- must not be negative, and the
    target of an exponential ramp must not be 0: a RangeError otherwise.
    The values and the times themselves are kept in the voice. *)
Definition setValueAtTime (value startTime : Q) : M host unit :=
if Qlt_le_dec startTime 0 then throw RangeError else ret tt.

Definition linearRampToValueAtTime (value endTime : Q) : M host unit :=
if Qlt_le_dec endTime 0 then throw RangeError else ret tt.

Definition exponentialRampToValueAtTime (value endTime : Q) : M host unit :=
if Qeq_bool value 0 then throw RangeError
else if Qlt_le_dec endTime 0 then throw RangeError else ret tt.

Definition start_at (when : Q) : M host unit :=
if Qlt_le_dec when 0 then throw RangeError else ret tt.

Definition stop_at (when : Q) : M host unit :=
if Qlt_le_dec when 0 then throw RangeError else ret tt.

(** [for (let i = 0; i < data.length; i++) data[i] = sample(i)] *)
Fixpoint fill (from n : nat) (sample : nat → M host Q) (data : list Q)
  : M host (list Q) :=
match n with
| O => ret data
| S n' => let* x := sample from in
          fill (S from) n' sample (<[from := x]> data)
end.
End Host.

Definition is_burst (v : voice) : bool :=
  match v with BurstV1 _ _ _ _ _ _ _ _ _ _ _ | BurstV2 _ _ _ _ _ _ _ => true | _ => false end.
Definition is_rumble (v : voice) : bool :=
  match v with RumbleV1 _ _ _ _ _ | RumbleV2 _ _ _ _ _ _ _ => true | _ => false end.
Definition count_voices (p : voice → bool) (vs : list voice) : nat :=
  length (List.filter p vs).

(** ** V2/ThunderGenerator *)

Module ThunderV2.
Record ThunderParams := mk_params {
volume : RandParam.t;
delayBetweenThunders : Q * Q;      (* min, max *)
duration : RandParam.t;
filterFreq : RandParam.t;
burstCount : RandParam.t;
delayMs : Q;
reverbDuration : RandParam.t;
reverbDecay : RandParam.t;
reverbWetLevel : RandParam.t;
subLevel : RandParam.t;
panRange : RandParam.t;
highPassFreq : RandParam.t;
crackleAmount : RandParam.t;
eqGains : list Q;
rumbleFreqStart : RandParam.t;
rumbleFreqEnd : RandParam.t;
rumbleVolume : RandParam.t;
rumbleDecay : RandParam.t;
}.

Definition _defaultThunderParamsV2 : ThunderParams := {|
volume := RandParam.mk 0.5 false 0.2;
delayBetweenThunders := (1000, 10000);
duration := RandParam.mk 2 false 0.2;
filterFreq := RandParam.mk 750 false 500;
burstCount := RandParam.mk 3 false 1;
delayMs := 0;
reverbDuration := RandParam.mk 2 false 0.5;
reverbDecay := RandParam.mk 2 false 0.5;
reverbWetLevel := RandParam.mk 0.4 false 0.2;
subLevel := RandParam.mk 0.1 false 0.1;
panRange := RandParam.mk 1 false 0.5;
highPassFreq := RandParam.mk 20 false 5;
crackleAmount := RandParam.mk 1 false 0.5;
eqGains := replicate 10 0;
rumbleFreqStart := RandParam.mk 30 false 5;
rumbleFreqEnd := RandParam.mk 20 false 5;
rumbleVolume := RandParam.mk 0.05 false 0.1;
rumbleDecay := RandParam.mk 8 false 2;
|}.

Definition with_burstCount (p : RandParam.t) (ps : ThunderParams) : ThunderParams :=
mk_params (volume ps) (delayBetweenThunders ps) (duration ps) (filterFreq ps)
  p (delayMs ps) (reverbDuration ps) (reverbDecay ps) (reverbWetLevel ps)
  (subLevel ps) (panRange ps) (highPassFreq ps) (crackleAmount ps)
  (eqGains ps) (rumbleFreqStart ps) (rumbleFreqEnd ps) (rumbleVolume ps)
  (rumbleDecay ps).


Record ThunderGenerator := mk {
thunderTimer : Q;
params : ThunderParams;
}.

Section Methods.
Context `{MathHost}.

Definition randomBetween (min max : Q) : M host Q :=
let* r := Math_random in ret (min + r * (max - min)).

Definition rand (param : RandParam.t) : M host Q :=
let '(RandParam.mk value rand dist) := param in
if rand then randomBetween (value - dist) (value + dist) else ret value.

Definition scheduleBurst (this : ThunderGenerator) (time : Q) : M host unit :=
let* volume := rand (volume (params this)) in
let* duration := rand (duration (params this)) in
let* freq := rand (filterFreq (params this)) in
let* pan := randomBetween (- RandParam.value (panRange (params this)))
                        (RandParam.value (panRange (params this))) in
let* subLevel := rand (subLevel (params this)) in
setValueAtTime freq time ;;                           (* osc.frequency *)
setValueAtTime volume time ;;                         (* gain.gain *)
exponentialRampToValueAtTime 0.001 (time + duration) ;;
setValueAtTime pan time ;;                            (* panner.pan *)
setValueAtTime 50 time ;;                             (* subOsc.frequency *)
let* subGain := rand (ThunderV2.subLevel (params this)) in
setValueAtTime subGain time ;;                        (* subGain.gain *)
exponentialRampToValueAtTime 0.001 (time + duration) ;;
start_at time ;;                                      (* subOsc *)
stop_at (time + duration + 0.1) ;;
let* wet := rand (reverbWetLevel (params this)) in
setValueAtTime wet time ;;                            (* wet.gain *)
start_at time ;;                                      (* osc *)
stop_at (time + duration + 0.1) ;;
spawn (BurstV2 time volume duration freq pan subGain wet).

Definition scheduleRumble (this : ThunderGenerator) (time : Q) : M host unit :=
let* freqStart := rand (rumbleFreqStart (params this)) in
let* freqEnd := rand (rumbleFreqEnd (params this)) in
let* decay := rand (rumbleDecay (params this)) in
let* volume := rand (rumbleVolume (params this)) in
setValueAtTime freqStart time ;;                      (* osc.frequency *)
exponentialRampToValueAtTime freqEnd (time + decay) ;;
setValueAtTime volume time ;;                         (* gain.gain *)
exponentialRampToValueAtTime 0.001 (time + decay) ;;
let* pan := randomBetween (- RandParam.value (panRange (params this)))
                        (RandParam.value (panRange (params this))) in
let* wet := rand (reverbWetLevel (params this)) in
setValueAtTime wet time ;;                            (* wet.gain *)
start_at time ;;                                      (* osc *)
stop_at (time + decay + 0.1) ;;
spawn (RumbleV2 time freqStart freqEnd decay volume pan wet).

Definition createCrackleBuffer (duration : Q) : M host (list Q) :=
let* sr := rate in
let length := Z.to_nat (Math_floor (sr * duration)) in
fill 0 length
   (λ _, let* r := Math_random in
         if Qlt_le_dec 0.7 r
         then let* r' := Math_random in ret (r' * 2 - 1)
         else ret 0)
   (replicate length 0).

(** A pop is scheduled no earlier than the strike, lasts and ramps for
at least 20 ms and plays a buffer of that length: the audio engine
accepts its calls whatever the parameters. *)
Definition scheduleCracklePop (this : ThunderGenerator) (time : Q) : M host unit :=
let* r1 := Math_random in
let duration := 0.02 + r1 * 0.03 in
let* pan := randomBetween (- RandParam.value (panRange (params this)))
                        (RandParam.value (panRange (params this))) in
let* r2 := Math_random in
let volume := 0.1 + r2 * 0.2 in
let* buffer := createCrackleBuffer duration in
let* wet := rand (reverbWetLevel (params this)) in
spawn (CracklePopV2 time duration pan volume buffer wet).

Definition scheduleCrackle (this : ThunderGenerator) (time : Q) : M host unit :=
let* amount := rand (crackleAmount (params this)) in
let count := Math_floor amount in
for_range 0 (Z.to_nat count)
(λ _, let* r := Math_random in
      scheduleCracklePop this (time + r * 0.6)).

Definition triggerThunder (fuel : nat) (this : ThunderGenerator) : M host unit :=
let* count := rand (burstCount (params this)) in
for_below fuel 0 count
(λ i, let* r := Math_random in
      let delay := inject_Z (Z.of_nat i) * 0.1 + r * 0.05 in
      let* t := now in
      scheduleBurst this (t + delay)) ;;
let* t := now in
scheduleRumble this t ;;
let* t := now in
scheduleCrackle this t.

Definition start (this : ThunderGenerator) : ThunderGenerator :=
mk 0 (params this).

Definition stop (this : ThunderGenerator) : ThunderGenerator :=
mk 0 (params this).

Definition destroy (this : ThunderGenerator) : ThunderGenerator :=
stop this.

Definition tick (fuel : nat) (this : ThunderGenerator) (dt : Q)
: M host ThunderGenerator :=
let this := mk (thunderTimer this + dt) (params this) in
let* delay := randomBetween (fst (delayBetweenThunders (params this)))
                          (snd (delayBetweenThunders (params this))) in
if Qlt_le_dec (thunderTimer this) delay then ret this
else
let this := mk (thunderTimer this - delay) (params this) in
triggerThunder fuel this ;; ret this.
End Methods.
End ThunderV2.

(** ** Timers of the host *)

Section Timers.
Context `{MathHost}.

(** [setTimeout(callback, delay)], the delay in milliseconds; a negative
  delay is one of 0. *)
Definition setTimeout (callback : task) (delay : Q) : M host unit :=
modify (λ h, with_timeouts (timeouts h ++ [(Math_max 0 delay, callback)]) h).

(** An exception that a callback does not catch ends that callback and
  nothing else: it is reported, and the host carries on from the state
  in which it was thrown. *)
Definition uncaught (callback : M host unit) : M host unit :=
λ h, match callback h with
     | Done r => Done r
     | Thrown OutOfFuel h' => Thrown OutOfFuel h'
     | Thrown _ h' => Done (tt, h')
     end.

(** [setInterval(callback, period)] and [window.setTimeout(callback,
  delay)] where the caller keeps the handle: a fresh positive handle. *)
Definition setInterval (period : Q) : M host nat :=
λ h, let id := S (next_handle h) in
     Done (id, with_handles (<[id := period]> (handles h)) id h).

Definition clearInterval (id : nat) : M host unit :=
modify (λ h, with_handles (delete id (handles h)) (next_handle h) h).

Definition window_setTimeout (delay : Q) : M host nat := setInterval delay.
Definition clearTimeout (id : nat) : M host unit := clearInterval id.
End Timers.

(** ** ThunderGenerator (V1) *)

Module ThunderV1.
Record ThunderParams := mk_params {
volume : RandParam.t;
duration : RandParam.t;
filterFreq : RandParam.t;
burstCount : RandParam.t;
delayMs : Q;
reverbDuration : RandParam.t;
reverbDecay : RandParam.t;
reverbWetLevel : RandParam.t;
subLevel : RandParam.t;
panRange : RandParam.t;
highPassFreq : RandParam.t;
crackleAmount : RandParam.t;
eqGains : list Q;
rumbleFreqStart : RandParam.t;
rumbleFreqEnd : RandParam.t;
rumbleVolume : RandParam.t;
rumbleDecay : RandParam.t;
}.

Definition _defaultThunderParams : ThunderParams := {|
volume := RandParam.mk 0.5 false 0.2;
duration := RandParam.mk 2 false 0.2;
filterFreq := RandParam.mk 750 false 500;
burstCount := RandParam.mk 3 false 1;
delayMs := 0;
reverbDuration := RandParam.mk 2 false 0.5;
reverbDecay := RandParam.mk 2 false 0.5;
reverbWetLevel := RandParam.mk 0.4 false 0.2;
subLevel := RandParam.mk 0.1 false 0.1;
panRange := RandParam.mk 1 false 0.5;
highPassFreq := RandParam.mk 20 false 5;
crackleAmount := RandParam.mk 1 false 0.5;
eqGains := replicate 10 0;
rumbleFreqStart := RandParam.mk 30 false 5;
rumbleFreqEnd := RandParam.mk 20 false 5;
rumbleVolume := RandParam.mk 0.05 false 0.1;
rumbleDecay := RandParam.mk 8 false 2;
|}.

Definition with_burstCount (p : RandParam.t) (ps : ThunderParams) : ThunderParams :=
mk_params (volume ps) (duration ps) (filterFreq ps) p (delayMs ps)
  (reverbDuration ps) (reverbDecay ps) (reverbWetLevel ps) (subLevel ps)
  (panRange ps) (highPassFreq ps) (crackleAmount ps) (eqGains ps)
  (rumbleFreqStart ps) (rumbleFreqEnd ps) (rumbleVolume ps) (rumbleDecay ps).


Record ThunderGenerator := mk {
params : ThunderParams;
reverbBuffer : option (list (list Q));
}.

Section Methods.
Context `{MathHost}.

(** The conditional expression that [triggerThunder] and
[_playSingleBurst] write out for each parameter:
[p.value ? (p.rand ? p.value + Math.random() * p.dist : p.value) : fallback]. *)
Definition evaluateRand (p : RandParam.t) (fallback : Q) : M host Q :=
if truthy (RandParam.value p) then
if RandParam.rand p then
  let* r := Math_random in ret (RandParam.value p + r * RandParam.dist p)
else ret (RandParam.value p)
else ret fallback.

Definition triggerThunder (this : ThunderGenerator) : M host unit :=
let delay := delayMs (params this) in
let* rumbleFreqStart := evaluateRand (rumbleFreqStart (params this)) 30 in
let* rumbleFreqEnd := evaluateRand (rumbleFreqEnd (params this)) 20 in
let* rumbleVolume := evaluateRand (rumbleVolume (params this)) 0.2 in
let* rumbleDecay := evaluateRand (rumbleDecay (params this)) 8 in
let* burstCount := evaluateRand (burstCount (params this)) 1 in
let* duration := evaluateRand (duration (params this)) 2 in
let* volume := evaluateRand (volume (params this)) 0.5 in
setTimeout (StrikeBody rumbleFreqStart rumbleFreqEnd rumbleVolume
                     rumbleDecay burstCount duration volume) delay.

(** The crackle tail: a one-pole integrator over white noise. *)
Fixpoint fill_tail (from n : nat) (lastOut crackleAmount sr duration : Q)
(tailData : list Q) : M host (list Q) :=
match n with
| O => ret tailData
| S n' =>
  let i := inject_Z (Z.of_nat from) in
  let* r := Math_random in
  let white := r * 2 - 1 in
  let lastOut := (lastOut + 0.02 * white * crackleAmount)
                 / (1.02 + crackleAmount * 0.05) in
  fill_tail (S from) n' lastOut crackleAmount sr duration
    (<[from := lastOut * 1.5 * Math_exp (- i / (sr * duration))]> tailData)
end.

Definition _playSingleBurst (this : ThunderGenerator) (duration volume : Q)
: M host unit :=
let* filterFreq := evaluateRand (filterFreq (params this)) 1500 in
let* highPassFreq := evaluateRand (highPassFreq (params this)) 10 in
let* panRange := evaluateRand (panRange (params this)) 1 in
let* reverbWetLevel := evaluateRand (reverbWetLevel (params this)) 0.4 in
let* subLevel := evaluateRand (subLevel (params this)) 0.1 in
let* crackleAmount := evaluateRand (crackleAmount (params this)) 1 in
let* t := now in
let* sr := rate in
let* data := ctx_createBuffer (sr * duration) in
let* data :=
fill 0 (length data)
  (λ n, let i := inject_Z (Z.of_nat n) in
        let buildUp := Math_min 1 (i / (sr * (duration * 0.25))) in
        let decay := Math_exp (- i / (sr * duration)) in
        let* r1 := Math_random in
        let* r2 := Math_random in
        let noise := (r1 * 2 - 1) * Math_pow r2 2 in
        ret (noise * decay * buildUp))
  data in
setValueAtTime filterFreq t ;;                        (* lowpass.frequency *)
exponentialRampToValueAtTime 100 (t + duration) ;;
setValueAtTime 0.1 t ;;                               (* gain.gain *)
exponentialRampToValueAtTime (volume * 0.8) (t + 0.05) ;;
exponentialRampToValueAtTime (volume * 0.5) (t + duration * 0.9) ;;
exponentialRampToValueAtTime 0.001 (t + duration * 3) ;;
let* r := Math_random in
let basePan := (r * 2 - 1) * (panRange * 0.3) in
setValueAtTime basePan t ;;                           (* pan.pan *)
linearRampToValueAtTime (- basePan) (t + duration) ;;
let wetGain := match reverbBuffer this with
             | Some _ => Some reverbWetLevel
             | None => None
             end in
setValueAtTime 25 t ;;                                (* rumbleOsc.frequency *)
linearRampToValueAtTime 15 (t + duration) ;;
setValueAtTime (subLevel * volume * 0.6) t ;;         (* subGain.gain *)
exponentialRampToValueAtTime 0.001 (t + duration * 2.5) ;;
stop_at (t + duration * 2.5) ;;                       (* rumbleOsc *)
let* tailData := ctx_createBuffer (sr * duration * 1.5) in
let* tailData :=
fill_tail 0 (length tailData) 0 crackleAmount sr duration tailData in
setValueAtTime (volume * 0.6) t ;;                    (* brownGain.gain *)
exponentialRampToValueAtTime 0.001 (t + duration * 2.5) ;;
spawn (BurstV1 t duration volume filterFreq highPassFreq basePan
             wetGain subLevel crackleAmount data tailData).

(** What a pending callback does when its timer fires. *)
Definition run_task (fuel : nat) (this : ThunderGenerator) (job : task)
: M host unit :=
match job with
| StrikeBody rumbleFreqStart rumbleFreqEnd rumbleVolume rumbleDecay
           burstCount duration volume =>
  let* t := now in
  setValueAtTime rumbleFreqStart t ;;                 (* osc.frequency *)
  linearRampToValueAtTime rumbleFreqEnd (t + rumbleDecay) ;;
  setValueAtTime rumbleVolume t ;;                    (* gain.gain *)
  exponentialRampToValueAtTime 0.001 (t + rumbleDecay) ;;
  stop_at (t + rumbleDecay) ;;                        (* osc *)
  spawn (RumbleV1 t rumbleFreqStart rumbleFreqEnd rumbleVolume rumbleDecay) ;;
  for_below fuel 0 burstCount
    (λ i, let* r := Math_random in
          let burstDelay := 200 + r * 400 in
          setTimeout (SingleBurst duration volume)
                     (burstDelay * inject_Z (Z.of_nat i)))
| SingleBurst duration volume =>
  let* r1 := Math_random in
  let* r2 := Math_random in
  _playSingleBurst this (duration * (0.8 + r1 * 0.4))
                        (volume * (0.7 + r2 * 0.6))
end.

(** One pending callback runs.  Which one, and what the clock of the
audio context reads by then, is for the host to decide: a delay is the
least time that a callback waits, and the audio clock is not the clock
of the timers.  [pick] counts among the pending callbacks (it stands
for the last of them when fewer are pending), and the clock does not go
back.  Every order in which a host runs the callbacks is among those
that the picks describe. *)
Definition fire (fuel : nat) (this : ThunderGenerator) (pick : nat) (clock : Q)
: M host unit :=
let* h := get in
let i := Nat.min pick (length (timeouts h) - 1) in
match timeouts h !! i with
| None => ret tt
| Some (_, job) =>
  put (with_currentTime (Math_max (currentTime h) clock)
         (with_timeouts (delete i (timeouts h)) h)) ;;
  uncaught (run_task fuel this job)
end.

(** The callbacks run as [schedule] has it, one for each of its
elements; the schedule is long enough when no callback is pending at its
end. *)
Fixpoint run (fuel : nat) (schedule : list (nat * Q)) (this : ThunderGenerator)
: M host unit :=
match schedule with
| [] => let* h := get in
      match timeouts h with
      | [] => ret tt
      | _ :: _ => throw OutOfFuel
      end
| (pick, clock) :: schedule' =>
  fire fuel this pick clock ;; run fuel schedule' this
end.
End Methods.
End ThunderV1.

(** ** Nodes of the audio context *)

Definition default_node (k : node_kind) : node :=
  mk_node k
    (match k with BiquadFilter => 350 | Oscillator => 440 | _ => 0 end)
    (match k with Gain => 1 | _ => 0 end)
    Unscheduled false [] [].

(** [ctx.createGain()], [ctx.createBiquadFilter()], ...: the new node's id. *)
Definition createNode (k : node_kind) : M host nat :=
  λ h, Done (length (nodes h), with_nodes (nodes h ++ [default_node k]) h).

Definition update_node (id : nat) (f : node → node) : M host unit :=
  modify (λ h, with_nodes (alter f id (nodes h)) h).

Definition set_frequency (id : nat) (v : Q) : M host unit :=
  update_node id (λ n, mk_node (kind n) v (gain n) (state n) (loop n) (buffer n) (outputs n)).
Definition set_gain (id : nat) (v : Q) : M host unit :=
  update_node id (λ n, mk_node (kind n) (frequency n) v (state n) (loop n) (buffer n) (outputs n)).
Definition set_loop (id : nat) (b : bool) : M host unit :=
  update_node id (λ n, mk_node (kind n) (frequency n) (gain n) (state n) b (buffer n) (outputs n)).
Definition set_buffer (id : nat) (channels : list (list Q)) : M host unit :=
  update_node id (λ n, mk_node (kind n) (frequency n) (gain n) (state n) (loop n) channels (outputs n)).
Definition set_state (s : playback) (n : node) : node :=
  mk_node (kind n) (frequency n) (gain n) s (loop n) (buffer n) (outputs n).

(** [param.value = v], [param.setValueAtTime(v, now)] *)
Definition set_param (p : audio_param) (v : Q) : M host unit :=
  match p with
  | FrequencyOf id => set_frequency id v
  | GainOf id => set_gain id v
  end.

(** [a.connect(d)] and [a.disconnect()] *)
Definition connect (id : nat) (d : dest) : M host unit :=
  update_node id (λ n, mk_node (kind n) (frequency n) (gain n) (state n) (loop n)
                               (buffer n) (outputs n ++ [d])).
Definition disconnect (id : nat) : M host unit :=
  update_node id (λ n, mk_node (kind n) (frequency n) (gain n) (state n) (loop n)
                               (buffer n) []).

(** [source.start()]: an InvalidStateError when called a second time. *)
Definition start_source (id : nat) : M host unit :=
  λ h, match nodes h !! id with
       | Some n =>
           match state n with
           | Unscheduled => update_node id (set_state Playing) h
           | _ => Thrown InvalidStateError h
           end
       | None => Thrown InvalidStateError h
       end.

(** [source.stop()]: an InvalidStateError when [start] was not called. *)
Definition stop_source (id : nat) : M host unit :=
  λ h, match nodes h !! id with
       | Some n =>
           match state n with
           | Unscheduled => Thrown InvalidStateError h
           | _ => update_node id (set_state Ended) h
           end
       | None => Thrown InvalidStateError h
       end.

(** [nodes[i].connect(nodes[i + 1])] for every [i] *)
Fixpoint chainNodes (ids : list nat) : M host unit :=
  match ids with
  | a :: (b :: _) as rest => connect a (ToNode b) ;; chainNodes rest
  | _ => ret tt
  end.

(** The number of integers [i] with [0 ≤ i < bound]: how often the body of
    [for (let i = 0; i < bound; i++)] runs. *)
Definition iterations (bound : Q) : nat := Z.to_nat (Qceiling bound).

Inductive NoiseType := pink | white.

(** The looping buffer sources that are playing. *)
Definition is_live_loop (n : node) : bool :=
  match kind n, state n with
  | BufferSource, Playing => loop n
  | _, _ => false
  end.
Definition live_loops (h : host) : nat := length (List.filter is_live_loop (nodes h)).

(** ** V2/RainGenerator *)

Module RainV2.
Record RainParams := mk_params {
const_main_volume : Q;
const_main_eqGains : list Q;
const_noise_level : Q;
const_noise_type : NoiseType;
const_drops_dryLevel : Q;
const_drops_wetLevel : Q;
const_drops_rate : Q;
const_drops_decayTime : Q;
const_drops_q : Q;
osc_noise_filterFreq : OscParam.t;
osc_drops_minPitch : OscParam.t;
osc_drops_maxPitch : OscParam.t;
osc_drops_reverbLevel : OscParam.t;
osc_drops_panRange : OscParam.t;
}.

Definition _defaultRainParamsV2 : RainParams := {|
const_main_volume := 0.5;
const_main_eqGains := replicate 10 0;
const_noise_level := 0.2;
const_noise_type := pink;
const_drops_dryLevel := 0.5;
const_drops_wetLevel := 0.5;
const_drops_rate := 0.5;
const_drops_decayTime := 0.5;
const_drops_q := 1;
osc_noise_filterFreq := OscParam.mk 4000 false 1000 0.1;
osc_drops_minPitch := OscParam.mk 300 false 100 0.1;
osc_drops_maxPitch := OscParam.mk 800 false 500 0.1;
osc_drops_reverbLevel := OscParam.mk 0.4 false 0.2 0.1;
osc_drops_panRange := OscParam.mk 1.0 false 0.5 0.1;
|}.

(** The paths that [tick] passes to [applyOsc]:
  ["osc", "drops", "minPitch"], ["osc", "drops", "maxPitch"],
  ["osc", "drops", "reverbLevel"], ["osc", "drops", "panRange"] and
  ["osc", "noise", "filterFreq"]. *)
Inductive path :=
| osc_drops_minPitch_path | osc_drops_maxPitch_path
| osc_drops_reverbLevel_path | osc_drops_panRange_path
| osc_noise_filterFreq_path.

(** [obj[path[0]][path[1]][path[2]]] *)
Definition read (p : path) (ps : RainParams) : OscParam.t :=
match p with
| osc_drops_minPitch_path => osc_drops_minPitch ps
| osc_drops_maxPitch_path => osc_drops_maxPitch ps
| osc_drops_reverbLevel_path => osc_drops_reverbLevel ps
| osc_drops_panRange_path => osc_drops_panRange ps
| osc_noise_filterFreq_path => osc_noise_filterFreq ps
end.

(** [obj[path[0]][path[1]][path[2]] = v] *)
Definition assign (p : path) (v : OscParam.t) (ps : RainParams) : RainParams :=
let '(mk_params vol eq lvl ty dry wet rt dec q ff minP maxP rev pan) := ps in
match p with
| osc_drops_minPitch_path => mk_params vol eq lvl ty dry wet rt dec q ff v maxP rev pan
| osc_drops_maxPitch_path => mk_params vol eq lvl ty dry wet rt dec q ff minP v rev pan
| osc_drops_reverbLevel_path => mk_params vol eq lvl ty dry wet rt dec q ff minP maxP v pan
| osc_drops_panRange_path => mk_params vol eq lvl ty dry wet rt dec q ff minP maxP rev v
| osc_noise_filterFreq_path => mk_params vol eq lvl ty dry wet rt dec q v minP maxP rev pan
end.

Record RainGenerator := mk {
(* BaseGenerator *)
destination : nat;
gainNode : nat;
eqNode : list nat;
params : RainParams;
(* RainGenerator *)
time : Q;
dropInterval : Q;
dropGainNode : nat;
noiseGainNode : nat;
dryDropGainNode : nat;
wetDropGainNode : nat;
reverbNode : nat;
noiseFilter : nat;
noiseGain : nat;
noiseSource : option nat;
}.

Definition with_params (ps : RainParams) (this : RainGenerator) : RainGenerator :=
mk (destination this) (gainNode this) (eqNode this) ps (time this)
   (dropInterval this) (dropGainNode this) (noiseGainNode this)
   (dryDropGainNode this) (wetDropGainNode this) (reverbNode this)
   (noiseFilter this) (noiseGain this) (noiseSource this).
Definition with_clock (t d : Q) (this : RainGenerator) : RainGenerator :=
mk (destination this) (gainNode this) (eqNode this) (params this) t d
   (dropGainNode this) (noiseGainNode this)
   (dryDropGainNode this) (wetDropGainNode this) (reverbNode this)
   (noiseFilter this) (noiseGain this) (noiseSource this).
Definition with_noiseSource (s : option nat) (this : RainGenerator) : RainGenerator :=
mk (destination this) (gainNode this) (eqNode this) (params this) (time this)
   (dropInterval this) (dropGainNode this) (noiseGainNode this)
   (dryDropGainNode this) (wetDropGainNode this) (reverbNode this)
   (noiseFilter this) (noiseGain this) s.

Section Methods.
Context `{MathHost}.

Definition randomBetween (min max : Q) : M host Q :=
let* r := Math_random in ret (min + r * (max - min)).

(** The loop runs while [i < length]; a write past the end of the channel
data is dropped. *)
Definition generateImpulseBuffer (channels : nat) (duration : Q)
: M host (list (list Q)) :=
let* rate := rate in
let length := rate * duration in
let fix channel (c : nat) : M host (list (list Q)) :=
match c with
| O => ret []
| S c' =>
    let* data :=
      fill 0 (iterations length)
        (λ i, let* r := Math_random in
              ret ((r * 2 - 1)
                   * Math_pow (1 - inject_Z (Z.of_nat i) / length) 2))
        (createBuffer length) in
    let* rest := channel c' in
    ret (data :: rest)
end in
channel channels.

(** The pink branch of [createNoiseBuffer]. *)
Fixpoint fill_pink (from n : nat) (b0 b1 b2 b3 b4 b5 b6 : Q) (data : list Q)
: M host (list Q) :=
match n with
| O => ret data
| S n' =>
  let* r := Math_random in
  let white := r * 2 - 1 in
  let b0 := 0.99886 * b0 + white * 0.0555179 in
  let b1 := 0.99332 * b1 + white * 0.0750759 in
  let b2 := 0.96900 * b2 + white * 0.1538520 in
  let b3 := 0.86650 * b3 + white * 0.3104856 in
  let b4 := 0.55000 * b4 + white * 0.5329522 in
  let b5 := -0.7616 * b5 - white * 0.0168980 in
  let pink := b0 + b1 + b2 + b3 + b4 + b5 + b6 + white * 0.5362 in
  let b6 := white * 0.115926 in
  fill_pink (S from) n' b0 b1 b2 b3 b4 b5 b6 (<[from := pink * 0.11]> data)
end.

Definition createNoiseBuffer (type : NoiseType) : M host (list Q) :=
let* sr := rate in
let length := sr * 2 in
let data := createBuffer length in
match type with
| white =>
  fill 0 (iterations length) (λ _, let* r := Math_random in ret (r * 2 - 1)) data
| pink => fill_pink 0 (iterations length) 0 0 0 0 0 0 0 data
end.

(** The field initializers and the body of the constructor, after the
constructor of [BaseGenerator] (with an equalizer of six bands). *)
Definition new (destination : nat) (initialParams : RainParams)
: M host RainGenerator :=
let* gainNode := createNode Gain in
let fix bands (freqs : list Q) : M host (list nat) :=
match freqs with
| [] => ret []
| freq :: freqs' =>
    let* filter := createNode BiquadFilter in
    set_frequency filter freq ;;
    set_gain filter 0 ;;
    let* rest := bands freqs' in
    ret (filter :: rest)
end in
let* eqNode := bands [100; 300; 600; 1200; 2400; 4800] in
chainNodes (eqNode ++ [gainNode; destination]) ;;
let* dropGainNode := createNode Gain in
let* noiseGainNode := createNode Gain in
let* dryDropGainNode := createNode Gain in
let* wetDropGainNode := createNode Gain in
let* reverbNode := createNode Convolver in
let* noiseFilter := createNode BiquadFilter in
let* noiseGain := createNode Gain in
let* impulse := generateImpulseBuffer 2 2.5 in
set_buffer reverbNode impulse ;;
connect reverbNode (ToNode gainNode) ;;
connect dryDropGainNode (ToNode dropGainNode) ;;
connect wetDropGainNode (ToNode dropGainNode) ;;
connect dropGainNode (ToNode gainNode) ;;
connect noiseGainNode (ToNode gainNode) ;;
ret (mk destination gainNode eqNode initialParams 0 0 dropGainNode
      noiseGainNode dryDropGainNode wetDropGainNode reverbNode noiseFilter
      noiseGain None).

Definition start (this : RainGenerator) : M host RainGenerator :=
let* noiseSource := createNode BufferSource in
let* data := createNoiseBuffer (const_noise_type (params this)) in
set_buffer noiseSource [data] ;;
set_loop noiseSource true ;;
set_frequency (noiseFilter this)
            (OscParam.value (osc_noise_filterFreq (params this))) ;;
set_gain (noiseGain this) (const_noise_level (params this)) ;;
connect noiseSource (ToNode (noiseFilter this)) ;;
connect (noiseFilter this) (ToNode (noiseGainNode this)) ;;
set_gain (noiseGainNode this) (const_noise_level (params this)) ;;
start_source noiseSource ;;
ret (with_noiseSource (Some noiseSource) this).

Definition stop (this : RainGenerator) : M host RainGenerator :=
let* this :=
match noiseSource this with
| Some id =>
    stop_source id ;; disconnect id ;; ret (with_noiseSource None this)
| None => ret this
end in
ret (with_clock (time this) 0 this).

Definition destroy (this : RainGenerator) : M host RainGenerator :=
let* this := stop this in
disconnect (noiseFilter this) ;;
disconnect (noiseGain this) ;;
ret this.

Definition scheduleDrop (this : RainGenerator) : M host unit :=
let* t := now in
let duration := const_drops_decayTime (params this) in
let* sr := rate in
let bufferSize := Math_floor (sr * duration) in
let* data := ctx_createBuffer (inject_Z bufferSize) in
let* data :=
fill 0 (Z.to_nat bufferSize) (λ _, let* r := Math_random in ret (r * 2 - 1))
     data in
setValueAtTime 1 t ;;
exponentialRampToValueAtTime 0.001 (t + duration) ;;
let* frequency := randomBetween (OscParam.value (osc_drops_minPitch (params this)))
                              (OscParam.value (osc_drops_maxPitch (params this))) in
let* pan := randomBetween (- OscParam.value (osc_drops_panRange (params this)))
                        (OscParam.value (osc_drops_panRange (params this))) in
start_at t ;;
stop_at (t + duration + 0.05) ;;
spawn (DropV2 t duration data frequency (const_drops_q (params this)) pan
            (const_drops_dryLevel (params this))
            (const_drops_wetLevel (params this))).

Definition applyOsc (this : RainGenerator) (param : OscParam.t) (p : path)
: RainGenerator :=
let modulated :=
OscParam.value param
+ Math_sin (time this * OscParam.freq param * 2 * Math_PI) * OscParam.amp param in
with_params
(assign p (OscParam.mk modulated (OscParam.osc param) (OscParam.amp param)
                       (OscParam.freq param))
        (params this))
this.

(** [while (this.dropInterval >= timePerDrop)]; [fuel] bounds the number
of iterations the model follows. *)
Fixpoint drops_due (fuel : nat) (timePerDrop : Q) (this : RainGenerator)
: M host RainGenerator :=
if Qlt_le_dec (dropInterval this) timePerDrop then ret this
else
match fuel with
| O => throw OutOfFuel
| S fuel' =>
    let this := with_clock (time this) (dropInterval this - timePerDrop) this in
    scheduleDrop this ;;
    drops_due fuel' timePerDrop this
end.

Definition tick (fuel : nat) (this : RainGenerator) (dt : Q) : M host RainGenerator :=
let this := with_clock (time this + dt) (dropInterval this + dt) this in
let timePerDrop := 1 / const_drops_rate (params this) in
let* this := drops_due fuel timePerDrop this in
let this := applyOsc this (osc_drops_minPitch (params this)) osc_drops_minPitch_path in
let this := applyOsc this (osc_drops_maxPitch (params this)) osc_drops_maxPitch_path in
let this := applyOsc this (osc_drops_reverbLevel (params this)) osc_drops_reverbLevel_path in
let this := applyOsc this (osc_drops_panRange (params this)) osc_drops_panRange_path in
let this := applyOsc this (osc_noise_filterFreq (params this)) osc_noise_filterFreq_path in
set_frequency (noiseFilter this)
            (OscParam.value (osc_noise_filterFreq (params this))) ;;
ret this.
End Methods.
End RainV2.

(** ** RainGenerator (V1) *)

Module RainV1.
Record RainParams := mk_params {
volume : Q;
eqGains : list Q;
noiseLevel : Q;
noiseType : NoiseType;
noiseFilterFreq : OscParam.t;
dropDryLevel : Q;
dropWetLevel : Q;
dropRate : Q;
dropMinPitch : OscParam.t;
dropMaxPitch : OscParam.t;
dropDecayTime : Q;
dropReverbLevel : OscParam.t;
dropPanRange : OscParam.t;
dropQ : Q;
}.

Definition _defaultRainParams : RainParams := {|
volume := 0.5;
noiseLevel := 0.2;
noiseType := pink;
noiseFilterFreq := OscParam.mk 4000 false 1000 0.1;
eqGains := replicate 10 0;
dropDryLevel := 0.5;
dropWetLevel := 0.5;
dropRate := 30;
dropMinPitch := OscParam.mk 300 false 100 0.1;
dropMaxPitch := OscParam.mk 800 false 500 0.1;
dropDecayTime := 0.2;
dropReverbLevel := OscParam.mk 0.4 false 0.2 0.1;
dropPanRange := OscParam.mk 1.0 false 0.5 0.1;
dropQ := 1;
|}.

Record RainGenerator := mk {
output : nat;
noiseGainNode : nat;
dropGainNode : nat;
dryDropGainNode : nat;
reverbNode : nat;
dryGain : nat;
wetGain : nat;
noiseFilter : nat;
noiseNode : option nat;
dropInterval : option nat;
running : bool;
params : RainParams;
eqBands : list nat;
lfoMap : gmap string (nat * nat);     (* id ↦ { osc, gain } *)
}.

Definition with_noiseNode (n : option nat) (this : RainGenerator) : RainGenerator :=
mk (output this) (noiseGainNode this) (dropGainNode this) (dryDropGainNode this)
   (reverbNode this) (dryGain this) (wetGain this) (noiseFilter this)
   n (dropInterval this) (running this) (params this) (eqBands this) (lfoMap this).
Definition with_dropInterval (d : option nat) (this : RainGenerator) : RainGenerator :=
mk (output this) (noiseGainNode this) (dropGainNode this) (dryDropGainNode this)
   (reverbNode this) (dryGain this) (wetGain this) (noiseFilter this)
   (noiseNode this) d (running this) (params this) (eqBands this) (lfoMap this).
Definition with_running (r : bool) (this : RainGenerator) : RainGenerator :=
mk (output this) (noiseGainNode this) (dropGainNode this) (dryDropGainNode this)
   (reverbNode this) (dryGain this) (wetGain this) (noiseFilter this)
   (noiseNode this) (dropInterval this) r (params this) (eqBands this) (lfoMap this).
Definition with_params (ps : RainParams) (this : RainGenerator) : RainGenerator :=
mk (output this) (noiseGainNode this) (dropGainNode this) (dryDropGainNode this)
   (reverbNode this) (dryGain this) (wetGain this) (noiseFilter this)
   (noiseNode this) (dropInterval this) (running this) ps (eqBands this) (lfoMap this).
Definition with_lfoMap (m : gmap string (nat * nat)) (this : RainGenerator) : RainGenerator :=
mk (output this) (noiseGainNode this) (dropGainNode this) (dryDropGainNode this)
   (reverbNode this) (dryGain this) (wetGain this) (noiseFilter this)
   (noiseNode this) (dropInterval this) (running this) (params this) (eqBands this) m.

Definition with_noiseType (t : NoiseType) (ps : RainParams) : RainParams :=
mk_params (volume ps) (eqGains ps) (noiseLevel ps) t (noiseFilterFreq ps)
  (dropDryLevel ps) (dropWetLevel ps) (dropRate ps) (dropMinPitch ps)
  (dropMaxPitch ps) (dropDecayTime ps) (dropReverbLevel ps) (dropPanRange ps)
  (dropQ ps).
Definition with_noiseFilterFreq (p : OscParam.t) (ps : RainParams) : RainParams :=
mk_params (volume ps) (eqGains ps) (noiseLevel ps) (noiseType ps) p
  (dropDryLevel ps) (dropWetLevel ps) (dropRate ps) (dropMinPitch ps)
  (dropMaxPitch ps) (dropDecayTime ps) (dropReverbLevel ps) (dropPanRange ps)
  (dropQ ps).
Definition with_dropReverbLevel (p : OscParam.t) (ps : RainParams) : RainParams :=
mk_params (volume ps) (eqGains ps) (noiseLevel ps) (noiseType ps) (noiseFilterFreq ps)
  (dropDryLevel ps) (dropWetLevel ps) (dropRate ps) (dropMinPitch ps)
  (dropMaxPitch ps) (dropDecayTime ps) p (dropPanRange ps) (dropQ ps).
Definition with_dropRate (r : Q) (ps : RainParams) : RainParams :=
mk_params (volume ps) (eqGains ps) (noiseLevel ps) (noiseType ps) (noiseFilterFreq ps)
  (dropDryLevel ps) (dropWetLevel ps) r (dropMinPitch ps)
  (dropMaxPitch ps) (dropDecayTime ps) (dropReverbLevel ps) (dropPanRange ps)
  (dropQ ps).
Definition with_dropPanRange (p : OscParam.t) (ps : RainParams) : RainParams :=
mk_params (volume ps) (eqGains ps) (noiseLevel ps) (noiseType ps) (noiseFilterFreq ps)
  (dropDryLevel ps) (dropWetLevel ps) (dropRate ps) (dropMinPitch ps)
  (dropMaxPitch ps) (dropDecayTime ps) (dropReverbLevel ps) p (dropQ ps).
Definition with_dropDecayTime (d : Q) (ps : RainParams) : RainParams :=
mk_params (volume ps) (eqGains ps) (noiseLevel ps) (noiseType ps) (noiseFilterFreq ps)
  (dropDryLevel ps) (dropWetLevel ps) (dropRate ps) (dropMinPitch ps)
  (dropMaxPitch ps) d (dropReverbLevel ps) (dropPanRange ps) (dropQ ps).

(** [Partial<RainParams>]: the fields that an object passed to
[setParams] has. *)
Record PartialRainParams := mk_partial {
new_volume : option Q;
new_eqGains : option (list Q);
new_noiseLevel : option Q;
new_noiseType : option NoiseType;
new_noiseFilterFreq : option OscParam.t;
new_dropDryLevel : option Q;
new_dropWetLevel : option Q;
new_dropRate : option Q;
new_dropMinPitch : option OscParam.t;
new_dropMaxPitch : option OscParam.t;
new_dropDecayTime : option Q;
new_dropReverbLevel : option OscParam.t;
new_dropPanRange : option OscParam.t;
new_dropQ : option Q;
}.

(** [{ ...params, ...newParams }] *)
Definition spread (ps : RainParams) (newParams : PartialRainParams) : RainParams :=
mk_params (default (volume ps) (new_volume newParams))
  (default (eqGains ps) (new_eqGains newParams))
  (default (noiseLevel ps) (new_noiseLevel newParams))
  (default (noiseType ps) (new_noiseType newParams))
  (default (noiseFilterFreq ps) (new_noiseFilterFreq newParams))
  (default (dropDryLevel ps) (new_dropDryLevel newParams))
  (default (dropWetLevel ps) (new_dropWetLevel newParams))
  (default (dropRate ps) (new_dropRate newParams))
  (default (dropMinPitch ps) (new_dropMinPitch newParams))
  (default (dropMaxPitch ps) (new_dropMaxPitch newParams))
  (default (dropDecayTime ps) (new_dropDecayTime newParams))
  (default (dropReverbLevel ps) (new_dropReverbLevel newParams))
  (default (dropPanRange ps) (new_dropPanRange newParams))
  (default (dropQ ps) (new_dropQ newParams)).

Section Methods.
Context `{MathHost}.

Definition _connectNodes (this : RainGenerator) : M host unit :=
connect (noiseGainNode this) (ToNode (noiseFilter this)) ;;
connect (noiseFilter this) (ToNode (dryGain this)) ;;
connect (dropGainNode this) (ToNode (reverbNode this)) ;;
connect (reverbNode this) (ToNode (wetGain this)) ;;
connect (dryDropGainNode this) (ToNode (default 0%nat (eqBands this !! 0%nat))) ;;
connect (dryGain this) (ToNode (default 0%nat (eqBands this !! 0%nat))) ;;
connect (wetGain this) (ToNode (default 0%nat (eqBands this !! 0%nat))).

(** The loops run while [i < length]; a write past the end of the channel
data is dropped. *)
Definition _generateImpulseResponse (this : RainGenerator) : M host unit :=
let* sr := rate in
let length := sr * 2 in
let channel :=
fill 0 (iterations length)
  (λ i, let* r := Math_random in
        ret ((r * 2 - 1) * Math_pow (1 - inject_Z (Z.of_nat i) / length) 2.5))
  (createBuffer length) in
let* data0 := channel in
let* data1 := channel in
set_buffer (reverbNode this) [data0; data1].

Definition new (params : RainParams) : M host RainGenerator :=
let* output := createNode Gain in
let* noiseGainNode := createNode Gain in
let* noiseFilter := createNode BiquadFilter in
let* dropGainNode := createNode Gain in
let* dryDropGainNode := createNode Gain in
let* reverbNode := createNode Convolver in
let* dryGain := createNode Gain in
let* wetGain := createNode Gain in
let fix bands (freqs : list Q) : M host (list nat) :=
match freqs with
| [] => ret []
| freq :: freqs' =>
    let* band := createNode BiquadFilter in
    set_frequency band freq ;;
    set_gain band 0 ;;
    let* rest := bands freqs' in
    ret (band :: rest)
end in
let* eqBands := bands [31; 62; 125; 250; 500; 1000; 2000; 4000; 8000; 16000] in
chainNodes (eqBands ++ [output]) ;;
let this := mk output noiseGainNode dropGainNode dryDropGainNode reverbNode
             dryGain wetGain noiseFilter None None false params eqBands ∅ in
_connectNodes this ;;
_generateImpulseResponse this ;;
ret this.

(** [this.lfoMap.forEach(({ osc, gain }) => { osc.stop(); osc.disconnect();
gain.disconnect(); })] *)
Fixpoint stop_lfos (lfos : list (string * (nat * nat))) : M host unit :=
match lfos with
| [] => ret tt
| (_, (osc, gain)) :: rest =>
  stop_source osc ;; disconnect osc ;; disconnect gain ;; stop_lfos rest
end.

(** [lfoMap.forEach] without the [osc.stop()], as [destroy] has it. *)
Fixpoint disconnect_lfos (lfos : list (string * (nat * nat))) : M host unit :=
match lfos with
| [] => ret tt
| (_, (osc, gain)) :: rest =>
  disconnect osc ;; disconnect gain ;; disconnect_lfos rest
end.

Definition setOscParam (this : RainGenerator) (param : OscParam.t)
(target : audio_param) (id : string) : M host RainGenerator :=
let* this :=
match lfoMap this !! id with
| Some (osc, gain) =>
    stop_source osc ;; disconnect osc ;; disconnect gain ;;
    ret (with_lfoMap (delete id (lfoMap this)) this)
| None => ret this
end in
set_param target (OscParam.value param) ;;
if running this && OscParam.osc param then
let* osc := createNode Oscillator in
let* gain := createNode Gain in
set_frequency osc (OscParam.freq param) ;;
set_gain gain (OscParam.amp param) ;;
connect osc (ToNode gain) ;;
connect gain (ToParam target) ;;
start_source osc ;;
ret (with_lfoMap (<[id := (osc, gain)]> (lfoMap this)) this)
else ret this.

(** The pink branch of [_startNoise]: the sum is stored in [output[i]],
which is then scaled in place. *)
Fixpoint fill_pink (from n : nat) (b0 b1 b2 b3 b4 b5 b6 : Q) (output : list Q)
: M host (list Q) :=
match n with
| O => ret output
| S n' =>
  let* r := Math_random in
  let white := r * 2 - 1 in
  let b0 := 0.99886 * b0 + white * 0.0555179 in
  let b1 := 0.99332 * b1 + white * 0.0750759 in
  let b2 := 0.969 * b2 + white * 0.153852 in
  let b3 := 0.8665 * b3 + white * 0.3104856 in
  let b4 := 0.55 * b4 + white * 0.5329522 in
  let b5 := -0.7616 * b5 - white * 0.016898 in
  let output := <[from := b0 + b1 + b2 + b3 + b4 + b5 + b6 + white * 0.5362]> output in
  let output := <[from := default 0 (output !! from) * 0.11]> output in
  let b6 := white * 0.115926 in
  fill_pink (S from) n' b0 b1 b2 b3 b4 b5 b6 output
end.

Definition _startNoise (this : RainGenerator) : M host RainGenerator :=
let* this :=
match noiseNode this with
| Some id => stop_source id ;; disconnect id ;; ret (with_noiseNode None this)
| None => ret this
end in
let* sr := rate in
let bufferSize := 2 * sr in
let output := createBuffer bufferSize in
let* output :=
match noiseType (params this) with
| white =>
    fill 0 (iterations bufferSize)
         (λ _, let* r := Math_random in ret (r * 2 - 1)) output
| pink => fill_pink 0 (iterations bufferSize) 0 0 0 0 0 0 0 output
end in
let* noiseNode := createNode BufferSource in
set_buffer noiseNode [output] ;;
set_loop noiseNode true ;;
connect noiseNode (ToNode (noiseGainNode this)) ;;
start_source noiseNode ;;
ret (with_noiseNode (Some noiseNode) this).

(** The callback of the drop interval. *)
Definition playDrop (this : RainGenerator) : M host unit :=
let* t := now in
let duration := Math_min (dropDecayTime (params this)) 0.2 in
let* sr := rate in
let* data := ctx_createBuffer (sr * duration) in
let* data :=
fill 0 (length data)
  (λ i, let fade := Math_pow (1 - inject_Z (Z.of_nat i)
                                   / inject_Z (Z.of_nat (length data))) 2.5 in
        let* r := Math_random in
        ret ((r * 2 - 1) * fade))
  data in
let* r1 := Math_random in
let frequency :=
OscParam.value (dropMinPitch (params this))
+ r1 * (OscParam.value (dropMaxPitch (params this))
        - OscParam.value (dropMinPitch (params this))) in
let* r2 := Math_random in
let pan := (r2 * 2 - 1) * OscParam.value (dropPanRange (params this)) in
start_at t ;;
spawn (DropV1 t data frequency (dropQ (params this)) pan
            (dropDryLevel (params this))).

Definition _startDrops (this : RainGenerator) : M host RainGenerator :=
let baseRate := dropRate (params this) in
let baseInterval := 1000 / baseRate in
let* id := setInterval baseInterval in
ret (with_dropInterval (Some id) this).

Definition setNoiseType (this : RainGenerator) (type : NoiseType)
: M host RainGenerator :=
let this := with_params (with_noiseType type (params this)) this in
if running this then _startNoise this else ret this.

Definition setNoiseFilterFreq (this : RainGenerator) (param : OscParam.t)
: M host RainGenerator :=
let this := with_params (with_noiseFilterFreq param (params this)) this in
setOscParam this param (FrequencyOf (noiseFilter this)) "noiseFilterFreq".

Definition setDropReverbLevel (this : RainGenerator) (param : OscParam.t)
: M host RainGenerator :=
let this := with_params (with_dropReverbLevel param (params this)) this in
setOscParam this param (GainOf (wetGain this)) "dropReverbLevel".

Definition setDropRate (this : RainGenerator) (param : Q) : M host RainGenerator :=
let this := with_params (with_dropRate param (params this)) this in
match dropInterval this with
| Some id => clearInterval id
| None => ret tt
end ;;
if running this then _startDrops this else ret this.

Definition setPanRange (this : RainGenerator) (param : OscParam.t) : RainGenerator :=
with_params (with_dropPanRange param (params this)) this.

Definition setDecayTime (this : RainGenerator) (param : Q) : RainGenerator :=
with_params (with_dropDecayTime param (params this)) this.

(** [newParams.eqGains.forEach((gain, i) => { this.eqBands[i].gain.value =
gain; })], under the test that the two arrays are of the same length. *)
Definition _applyParams (this : RainGenerator) (newParams : PartialRainParams)
: M host RainGenerator :=
let updated := spread (params this) newParams in
match new_eqGains newParams with
| Some gains =>
  if decide (length gains = length (eqBands this)) then
    for_range 0 (length gains)
      (λ i, set_gain (default 0%nat (eqBands this !! i)) (default 0 (gains !! i)))
  else ret tt
| None => ret tt
end ;;
ret (with_params updated this).

Definition setParams (this : RainGenerator) (newParams : PartialRainParams)
: M host RainGenerator :=
_applyParams this newParams.

(** [start], in a context that is not suspended: the asynchronous
function runs to its end at once.  (In a suspended context it waits at
[await this.audioCtx.resume()], past the guard, and what follows runs
when the context has resumed.) *)
Definition start (this : RainGenerator) : M host RainGenerator :=
if running this then ret this
else
let this := with_running true this in
set_gain (output this) (volume (params this)) ;;
set_gain (noiseGainNode this) (volume (params this) * 0.4) ;;
set_gain (dropGainNode this) (dropWetLevel (params this)) ;;
set_gain (dryDropGainNode this) (dropDryLevel (params this)) ;;
set_gain (dryGain this) (noiseLevel (params this)) ;;
set_gain (wetGain this) (OscParam.value (dropReverbLevel (params this))) ;;
let* this := setNoiseType this (noiseType (params this)) in
let* this := setNoiseFilterFreq this (noiseFilterFreq (params this)) in
let* this := setDropReverbLevel this (dropReverbLevel (params this)) in
let* this := setDropRate this (dropRate (params this)) in
let this := setPanRange this (dropPanRange (params this)) in
_startDrops this.

Definition stop (this : RainGenerator) : M host RainGenerator :=
let this := with_running false this in
let* this :=
match noiseNode this with
| Some id => stop_source id ;; disconnect id ;; ret (with_noiseNode None this)
| None => ret this
end in
let* this :=
match dropInterval this with
| Some id => clearInterval id ;; ret (with_dropInterval None this)
| None => ret this
end in
stop_lfos (map_to_list (lfoMap this)) ;;
let this := with_lfoMap ∅ this in
set_gain (output this) 0 ;;
set_gain (noiseGainNode this) 0 ;;
set_gain (dropGainNode this) 0 ;;
set_gain (dryDropGainNode this) 0 ;;
set_gain (dryGain this) 0 ;;
set_gain (wetGain this) 0 ;;
ret this.

Definition destroy (this : RainGenerator) : M host RainGenerator :=
let* this := stop this in
disconnect (output this) ;;
disconnect (noiseGainNode this) ;;
disconnect (noiseFilter this) ;;
disconnect (dropGainNode this) ;;
disconnect (dryDropGainNode this) ;;
disconnect (reverbNode this) ;;
disconnect (dryGain this) ;;
disconnect (wetGain this) ;;
for_range 0 (length (eqBands this))
(λ i, disconnect (default 0%nat (eqBands this !! i))) ;;
disconnect_lfos (map_to_list (lfoMap this)) ;;
let this := with_lfoMap ∅ this in
ret (with_dropInterval None (with_noiseNode None this)).
End Methods.
End RainV1.

(** ** NoiseDController (V1): the lifecycle *)

Module ControllerV1.
Record NoiseDController := mk {
rain : RainV1.RainGenerator;
thunder : ThunderV1.ThunderGenerator;
delayBetweenThunders : Q * Q;        (* params.delayBetweenThunders: min, max *)
rain_on : bool;                      (* params.rainParams.on *)
thunder_on : bool;                   (* params.thunderParams.on *)
thunderTimeout : option nat;
running : bool;
}.

Section Methods.
Context `{MathHost}.

Definition _rand (min max : Q) : M host Q :=
let* r := Math_random in ret (r * (max - min) + min).

(** The callback armed here triggers a strike and calls [scheduleThunder]
again when it fires. *)
Definition scheduleThunder (this : NoiseDController) : M host NoiseDController :=
if negb (running this) || negb (thunder_on this) then ret this
else
let* delay := _rand (fst (delayBetweenThunders this))
                    (snd (delayBetweenThunders this)) in
let* id := window_setTimeout delay in
ret (mk (rain this) (thunder this) (delayBetweenThunders this) (rain_on this)
        (thunder_on this) (Some id) (running this)).

(** [start()].  [rain.start()] is asynchronous and [start] does not await
it.  In a context that is not suspended it runs to its end at once.  In
a suspended context ([suspended]) it stops at [await
this.audioCtx.resume()], past its guard and before anything of the rain
is started, and [start] goes on without it; what is left of it runs
later, when the context has resumed: [rain_resumed]. *)
Definition start (suspended : bool) (this : NoiseDController)
: M host NoiseDController :=
if running this then ret this
else
let this := mk (rain this) (thunder this) (delayBetweenThunders this)
               (rain_on this) (thunder_on this) (thunderTimeout this) true in
let* this :=
  if rain_on this && negb suspended then
    let* r := RainV1.start (rain this) in
    ret (mk r (thunder this) (delayBetweenThunders this) (rain_on this)
            (thunder_on this) (thunderTimeout this) (running this))
  else ret this in
if thunder_on this then scheduleThunder this else ret this.

(** What is left of a call of [rain.start()] that was suspended on a
generator that was not running: [RainV1.start] past its guard. *)
Definition rain_resumed (this : NoiseDController) : M host NoiseDController :=
let* r := RainV1.start (RainV1.with_running false (rain this)) in
ret (mk r (thunder this) (delayBetweenThunders this) (rain_on this)
        (thunder_on this) (thunderTimeout this) (running this)).

Definition stop (this : NoiseDController) : M host NoiseDController :=
let this := mk (rain this) (thunder this) (delayBetweenThunders this)
             (rain_on this) (thunder_on this) (thunderTimeout this) false in
let* r := RainV1.stop (rain this) in
let this := mk r (thunder this) (delayBetweenThunders this) (rain_on this)
             (thunder_on this) (thunderTimeout this) (running this) in
match thunderTimeout this with
| Some id =>
  clearTimeout id ;;
  ret (mk (rain this) (thunder this) (delayBetweenThunders this) (rain_on this)
          (thunder_on this) None (running this))
| None => ret this
end.

(** [startRain()], which does not await [rain.start()] either. *)
Definition startRain (suspended : bool) (this : NoiseDController)
: M host NoiseDController :=
let this := mk (rain this) (thunder this) (delayBetweenThunders this)
             true (thunder_on this) (thunderTimeout this) (running this) in
if suspended then ret this
else
let* r := RainV1.start (rain this) in
ret (mk r (thunder this) (delayBetweenThunders this) (rain_on this)
      (thunder_on this) (thunderTimeout this) (running this)).

Definition stopRain (this : NoiseDController) : M host NoiseDController :=
let this := mk (rain this) (thunder this) (delayBetweenThunders this)
             false (thunder_on this) (thunderTimeout this) (running this) in
let* r := RainV1.stop (rain this) in
ret (mk r (thunder this) (delayBetweenThunders this) (rain_on this)
      (thunder_on this) (thunderTimeout this) (running this)).

Definition startThunder (this : NoiseDController) : M host NoiseDController :=
let this := mk (rain this) (thunder this) (delayBetweenThunders this)
             (rain_on this) true (thunderTimeout this) (running this) in
scheduleThunder this.

Definition stopThunder (this : NoiseDController) : M host NoiseDController :=
let this := mk (rain this) (thunder this) (delayBetweenThunders this)
             (rain_on this) false (thunderTimeout this) (running this) in
match thunderTimeout this with
| Some id =>
  clearTimeout id ;;
  ret (mk (rain this) (thunder this) (delayBetweenThunders this) (rain_on this)
          (thunder_on this) None (running this))
| None => ret this
end.

Definition setDelayBetweenThunders (this : NoiseDController) (value : Q * Q)
: NoiseDController :=
mk (rain this) (thunder this) value (rain_on this) (thunder_on this)
 (thunderTimeout this) (running this).
End Methods.
End ControllerV1.

(** ** The pink-noise filter as the specification states it

    Paul Kellet's filter: the state [b0 .. b6] starts at zero; for a white
    sample [w], [b0 .. b5] are updated, the output is
    [(b0 + b1 + b2 + b3 + b4 + b5 + b6 + w * 0.5362) * 0.11], and then
    [b6 = w * 0.115926]. *)

Module Kellet.
Record state := mk { b0 : Q; b1 : Q; b2 : Q; b3 : Q; b4 : Q; b5 : Q; b6 : Q }.

Definition zero : state := mk 0 0 0 0 0 0 0.

Definition step (s : state) (w : Q) : state * Q :=
let b0' := 0.99886 * b0 s + w * 0.0555179 in
let b1' := 0.99332 * b1 s + w * 0.0750759 in
let b2' := 0.969 * b2 s + w * 0.153852 in
let b3' := 0.8665 * b3 s + w * 0.3104856 in
let b4' := 0.55 * b4 s + w * 0.5329522 in
let b5' := -0.7616 * b5 s - w * 0.016898 in
let output := (b0' + b1' + b2' + b3' + b4' + b5' + b6 s + w * 0.5362) * 0.11 in
(mk b0' b1' b2' b3' b4' b5' (w * 0.115926), output).

Fixpoint outputs (s : state) (ws : list Q) : list Q :=
match ws with
| [] => []
| w :: ws' => (step s w).2 :: outputs (step s w).1 ws'
end.

(** The states agree, number by number. *)
Definition agrees (b0 b1 b2 b3 b4 b5 b6 : Q) (s : state) : Prop :=
b0 == Kellet.b0 s ∧ b1 == Kellet.b1 s ∧ b2 == Kellet.b2 s ∧ b3 == Kellet.b3 s
∧ b4 == Kellet.b4 s ∧ b5 == Kellet.b5 s ∧ b6 == Kellet.b6 s.
End Kellet.

(** The white samples [Math.random() * 2 - 1] of [n] successive calls, the
    first of them call number [c]. *)
Definition whites `{MathHost} (c n : nat) : list Q :=
  (λ i, random_seq i * 2 - 1) <$> seq c n.


(** What a node is as a source: its kind, whether it plays, whether it
    loops.  Setting a frequency, a gain or a buffer, connecting and
    disconnecting leave it as it is. *)
Definition sig (n : node) : node_kind * playback * bool := (kind n, state n, loop n).
Definition sigs (h : host) : list (node_kind * playback * bool) := sig <$> nodes h.

Definition is_live_sig (s : node_kind * playback * bool) : bool :=
  match s with
  | (BufferSource, Playing, l) => l
  | _ => false
  end.

(** [start()] was called on the source [id]. *)
Definition started (h : host) (id : nat) : Prop :=
  ∃ k s l, sigs h !! id = Some (k, s, l) ∧ s ≠ Unscheduled.

(** ** NoiseDController (V1): the WAV encoder *)

Module Wav.
(** An [AudioBuffer]: [length] frames in each channel. *)
Record AudioBuffer := mk {
sampleRate : Q;
length : nat;
channels : list (list Q);
}.
Definition numberOfChannels (buffer : AudioBuffer) : nat :=
List.length (channels buffer).

(** The integer part of a number, and its conversions to the integer
  types of typed arrays and of [DataView]. *)
Definition truncate (x : Q) : Z := Z.quot (Qnum x) (Zpos (Qden x)).
Definition to_uint32 (x : Q) : Z := truncate x mod 2 ^ 32.
Definition to_uint16 (x : Q) : Z := truncate x mod 2 ^ 16.
Definition to_int16 (x : Q) : Z := (truncate x + 2 ^ 15) mod 2 ^ 16 - 2 ^ 15.

(** The two bytes of a 16-bit integer, the low byte first. *)
Definition int16_bytes (v : Z) : list Z :=
[Z.land v 255; Z.land (Z.shiftr v 8) 255].

(** The [DataView] on the array of bytes, and the offset of the next
  write. *)
Record writer := mk_writer { view : list Z; offset : nat }.

Definition setUint8 (bytes : list Z) (at_ : nat) (v : Z) : list Z :=
<[at_ := Z.land v 255]> bytes.

(** [view.setUint32(offset, v, true)] and [view.setUint16(offset, v, true)] *)
Definition setUint32 (bytes : list Z) (at_ : nat) (v : Q) : list Z :=
let n := to_uint32 v in
setUint8 (setUint8 (setUint8 (setUint8 bytes at_ n)
                             (at_ + 1) (Z.shiftr n 8))
                   (at_ + 2) (Z.shiftr n 16))
         (at_ + 3) (Z.shiftr n 24).
Definition setUint16 (bytes : list Z) (at_ : nat) (v : Q) : list Z :=
let n := to_uint16 v in
setUint8 (setUint8 bytes at_ n) (at_ + 1) (Z.shiftr n 8).

Definition charCode (c : Ascii.ascii) : Z := Z.of_N (Ascii.N_of_ascii c).

Definition writeString (s : string) (w : writer) : writer :=
foldl (λ w c, mk_writer (setUint8 (view w) (offset w) (charCode c))
                        (S (offset w)))
      w (String.list_ascii_of_string s).
Definition writeUint32 (v : Q) (w : writer) : writer :=
mk_writer (setUint32 (view w) (offset w) v) (offset w + 4).
Definition writeUint16 (v : Q) (w : writer) : writer :=
mk_writer (setUint16 (view w) (offset w) v) (offset w + 2).

Definition of_nat (n : nat) : Q := inject_Z (Z.of_nat n).

(** [buffer.copyFromChannel(interleaved.subarray(ch, interleaved.length), ch)]
  for every channel: the frames of channel [ch] are copied, one after
  the other, to the positions from [ch] on; what does not fit is
  dropped. *)
Definition copy_channels (buffer : AudioBuffer) (interleaved : list Q) : list Q :=
foldl (λ interleaved '(ch, data),
         list_inserts ch (take (length buffer) data) interleaved)
      interleaved
      (imap (λ ch data, (ch, data)) (channels buffer)).

(** [output[i] = s < 0 ? s * 0x8000 : s * 0x7FFF], stored in an
  [Int16Array]. *)
Definition sample16 (x : Q) : Z :=
let s := Math_max (-1) (Math_min 1 x) in
to_int16 (if Qlt_le_dec s 0 then s * 32768 else s * 32767).

(** The bytes of the file. *)
Definition _bufferToWavBlob (buffer : AudioBuffer) : list Z :=
let numOfChan := numberOfChannels buffer in
let length := (length buffer * numOfChan * 2 + 44)%nat in
let w := mk_writer (replicate length 0%Z) 0 in
let w := writeString "RIFF" w in
let w := writeUint32 (of_nat (length - 8)) w in
let w := writeString "WAVE" w in
let w := writeString "fmt " w in
let w := writeUint32 16 w in
let w := writeUint16 1 w in
let w := writeUint16 (of_nat numOfChan) w in
let w := writeUint32 (sampleRate buffer) w in
let w := writeUint32 (sampleRate buffer * of_nat numOfChan * 2) w in
let w := writeUint16 (of_nat numOfChan * 2) w in
let w := writeUint16 16 w in
let w := writeString "data" w in
let w := writeUint32 (of_nat (length - offset w - 4)) w in
let interleaved :=
  copy_channels buffer (replicate (Wav.length buffer * numOfChan) 0) in
let output := sample16 <$> interleaved in
list_inserts (offset w) (output ≫= int16_bytes) (view w).

(** *** What the file should hold *)

(** A little-endian 32-bit field of the file. *)
Definition uint32_at (bytes : list Z) (at_ : nat) : Z :=
(default 0 (bytes !! at_)
 + 2 ^ 8 * default 0 (bytes !! (at_ + 1)%nat)
 + 2 ^ 16 * default 0 (bytes !! (at_ + 2)%nat)
 + 2 ^ 24 * default 0 (bytes !! (at_ + 3)%nat))%Z.

(** A little-endian 16-bit field of the file, read as an unsigned and as
  a signed integer. *)
Definition uint16_at (bytes : list Z) (at_ : nat) : Z :=
(default 0 (bytes !! at_) + 2 ^ 8 * default 0 (bytes !! (at_ + 1)%nat))%Z.

Definition int16_at (bytes : list Z) (at_ : nat) : Z :=
let u := uint16_at bytes at_ in
if (u <? 2 ^ 15)%Z then u else (u - 2 ^ 16)%Z.

(** The payload: everything after the 44 bytes of the header. *)
Definition data_chunk (bytes : list Z) : list Z := drop 44 bytes.

(** The samples frame by frame, and within a frame channel by channel. *)
Definition interleave (buffer : AudioBuffer) : list Q :=
seq 0 (length buffer) ≫= λ i,
  (λ data, default 0 (data !! i)) <$> channels buffer.

(** The payload that interleaved 16-bit samples make. *)
Definition interleaved_payload (buffer : AudioBuffer) : list Z :=
(sample16 <$> interleave buffer) ≫= int16_bytes.
End Wav.

(** ** States of the lifecycle of the V1 rain generator *)

(** The generator is not running: no noise source, no drop interval, no
    oscillator. *)
Definition quiet (this : RainV1.RainGenerator) : Prop :=
  RainV1.running this = false ∧ RainV1.noiseNode this = None
  ∧ RainV1.dropInterval this = None ∧ RainV1.lfoMap this = ∅.

(** The generator once stopped. *)
Definition stopped (this : RainV1.RainGenerator) : RainV1.RainGenerator :=
  RainV1.with_lfoMap ∅
    (RainV1.with_dropInterval None
       (RainV1.with_noiseNode None (RainV1.with_running false this))).

(** The six gain nodes that [stop] sets to zero. *)
Definition gain_nodes (this : RainV1.RainGenerator) : list nat :=
  [RainV1.output this; RainV1.noiseGainNode this; RainV1.dropGainNode this;
   RainV1.dryDropGainNode this; RainV1.dryGain this; RainV1.wetGain this].

Definition zero_gain (n : node) : node :=
  mk_node (kind n) (frequency n) 0 (state n) (loop n) (buffer n) (outputs n).

(** The context with the six gains at zero and nothing else changed. *)
Definition silenced (this : RainV1.RainGenerator) (h : host) : host :=
  with_nodes (foldl (λ l id, alter zero_gain id l) (nodes h) (gain_nodes this)) h.

(** The gain of node [id], if there is such a node, is zero. *)
Definition gain_is_zero (l : list node) (id : nat) : Prop :=
  ∀ n, l !! id = Some n → gain n = 0.

(** The six gains are at zero. *)
Definition silent (this : RainV1.RainGenerator) (h : host) : Prop :=
  Forall (gain_is_zero (nodes h)) (gain_nodes this).

(** The sources that the generator holds were started: the noise source
    and the oscillator of every entry of the LFO map. *)
Definition holds_source (this : RainV1.RainGenerator) (id : nat) : Prop :=
  RainV1.noiseNode this = Some id
  ∨ ∃ key gain, RainV1.lfoMap this !! key = Some (id, gain).

Definition sources_started (this : RainV1.RainGenerator) (h : host) : Prop :=
  ∀ id, holds_source this id → started h id.

(** ** A concrete host

    A host all of whose functions are rational, to run the model on
    concrete inputs: the draws of [Math.random()] cycle through eighths,
    the sine and the exponential are power series cut off after the cubic
    term, and a power takes the integer part of its exponent.  No property
    below depends on these choices. *)

Module Sample.
Definition draws (n : nat) : Q := inject_Z (Z.of_nat ((n * 5 + 3) mod 8)) / 8.

Definition math : MathHost := {|
Math_sin x := x - x * x * x / 6;
Math_exp x := 1 + x + x * x / 2 + x * x * x / 6;
Math_pow x y := Qpower x (Qfloor y);
random_seq := draws;
|}.

(** An audio context at 40 samples per second in which nothing has
  happened yet. *)
Definition idle : host := {|
currentTime := 0;
sampleRate := 40;
random_calls := 0;
nodes := [];
voices := [];
timeouts := [];
handles := ∅;
next_handle := 0;
|}.

(** The same context with one node, to stand for [ctx.destination]. *)
Definition stage : host := with_nodes [default_node Gain] idle.
End Sample.

(** The number of integers [i] with [0 ≤ i < b]. *)
Definition bursts_of (b : Q) : nat := Z.to_nat (Qceiling b).

Module SampleThunder.

(** Generators with the default parameters. *)
Definition default_v1 : ThunderV1.ThunderGenerator :=
ThunderV1.mk ThunderV1._defaultThunderParams None.
Definition default_v2 : ThunderV2.ThunderGenerator :=
ThunderV2.mk 0 ThunderV2._defaultThunderParamsV2.

End SampleThunder.

Module SampleRain.
(** A context with the eight persistent nodes of a rain generator, a
  looping noise source that plays, and an oscillator that plays with
  its gain; one interval is live. *)
Definition playing : host := {|
currentTime := 1;
sampleRate := 40;
random_calls := 0;
nodes := [default_node Gain; default_node Gain; default_node Gain;
          default_node Gain; default_node Convolver; default_node Gain;
          default_node Gain; default_node BiquadFilter;
          mk_node BufferSource 0 0 Playing true [[0.5; -0.5]] [ToNode 1%nat];
          mk_node Oscillator 0.1 0 Playing false [] [ToNode 10%nat];
          mk_node Gain 0 1000 Unscheduled false [] [ToParam (FrequencyOf 7)]];
voices := [];
timeouts := [];
handles := {[1%nat := 1000 / 30; 2%nat := 5000]};
next_handle := 2;
|}.

(** A rain generator that runs in that context, its filter frequency
  oscillating. *)
Definition running : RainV1.RainGenerator :=
RainV1.mk 0 1 2 3 4 5 6 7 (Some 8%nat) (Some 1%nat) true
  RainV1._defaultRainParams [] {["noiseFilterFreq" := (9%nat, 10%nat)]}.

(** A rain generator on the same nodes that was not started. *)
Definition fresh : RainV1.RainGenerator :=
RainV1.mk 0 1 2 3 4 5 6 7 None None false RainV1._defaultRainParams [] ∅.

(** A controller that runs, a strike being due in five seconds. *)
Definition controller : ControllerV1.NoiseDController :=
ControllerV1.mk running SampleThunder.default_v1 (5000, 15000) true true
  (Some 2%nat) true.
End SampleRain.

Module SampleWav.
(** Two channels of two frames. *)
Definition stereo : Wav.AudioBuffer :=
Wav.mk 44100 2 [[1; 0.5]; [-1; -0.5]].
End SampleWav.

(** ** Notions used in the statements

    What a computation does to the context, counted as the properties
    below need it. *)

(** [m] returns and changes nothing but the count of random draws. *)
Definition only_draws {A} (m : M host A) : Prop :=
  ∀ h, ∃ a n, m h = Done (a, with_random_calls n h).

(** [m] returns, and adds the voices of a list satisfying [P]. *)
Definition adds_voices {A} (m : M host A) (P : list voice → Prop) : Prop :=
  ∀ h, ∃ a n vs,
    m h = Done (a, with_voices (voices h ++ vs) (with_random_calls n h)) ∧ P vs.

(** The numbers of burst voices and of rumble voices in a list. *)
Definition tally (vs : list voice) : nat * nat :=
  (count_voices is_burst vs, count_voices is_rumble vs).





(** [m] returns when the sources satisfy [P], and leaves them satisfying
    [Q]. *)
Definition triple {A} (P : list (node_kind * playback * bool) → Prop)
    (m : M host A) (Q : A → list (node_kind * playback * bool) → Prop) : Prop :=
  ∀ h, P (sigs h) → ∃ a h', m h = Done (a, h') ∧ Q a (sigs h').

(** [m] returns and leaves every source as it is. *)
Definition keeps {A} (m : M host A) : Prop :=
  ∀ h, ∃ a h', m h = Done (a, h') ∧ sigs h' = sigs h.

(** Every source of [S] was started. *)
Definition all_started (S : nat → Prop)
    (l : list (node_kind * playback * bool)) : Prop :=
  ∀ id, S id → ∃ k s b, l !! id = Some (k, s, b) ∧ s ≠ Unscheduled.

(** What [_bufferToWavBlob] stores after the header. *)
Definition payload (buffer : Wav.AudioBuffer) : list Z :=
  (Wav.sample16 <$> Wav.copy_channels buffer
                      (replicate (Wav.length buffer * Wav.numberOfChannels buffer) 0))
  ≫= Wav.int16_bytes.

(** ** Voices and what a computation adds to them *)

(** [m] returns; it draws random numbers and adds the voices [vs], and
    changes nothing else.  [P] relates the sample rate and the time of
    the context, the value returned, and [vs]. *)
Definition emits {A} (m : M host A) (P : Q → Q → A → list voice → Prop) : Prop :=
  ∀ h, ∃ a n vs,
    m h = Done (a, with_voices (voices h ++ vs) (with_random_calls n h))
    ∧ P (sampleRate h) (currentTime h) a vs.

(** The same for a computation that a context can refuse: [m] returns in
    every context whose sample rate is [sr] and whose clock reads [t];
    it draws random numbers and adds the voices [vs], and changes
    nothing else.  [P] relates the value returned and [vs]. *)
Definition emits_at (sr t : Q) {A} (m : M host A)
    (P : A → list voice → Prop) : Prop :=
  ∀ h, sampleRate h = sr → currentTime h = t →
    ∃ a n vs,
      m h = Done (a, with_voices (voices h ++ vs) (with_random_calls n h))
      ∧ P a vs.

(** Whatever [rand] of V2 returns for [p] satisfies [P]. *)
Definition rand_in `{MathHost} (p : RandParam.t) (P : Q → Prop) : Prop :=
  ∀ h x h', ThunderV2.rand p h = Done (x, h') → P x.

(** The parameters of a V2 thunder generator with which the audio engine
    accepts every call of a strike: no evaluation of the duration of a
    burst or of the decay of the rumble is negative, and none of the end
    frequency of the rumble is 0. *)
Definition strike_accepted `{MathHost} (this : ThunderV2.ThunderGenerator)
  : Prop :=
  rand_in (ThunderV2.duration (ThunderV2.params this)) (λ d, 0 <= d)
  ∧ rand_in (ThunderV2.rumbleDecay (ThunderV2.params this)) (λ d, 0 <= d)
  ∧ rand_in (ThunderV2.rumbleFreqEnd (ThunderV2.params this)) (λ f, ¬ f == 0).

(** A burst of V1 whose strike has the duration [d] and the volume [v],
    at the sample rate [sr], with which the audio engine accepts every
    call of the burst: the shortest burst has a frame at least and the
    longest tail fewer than 2^32, and the volume is not 0. *)
Definition burst_accepted (sr d v : Q) : Prop :=
  0 < sr ∧ 1 <= sr * (d * 0.8) ∧ sr * (d * 1.2) * 1.5 < 4294967296
  ∧ ¬ v == 0.


(** A crackle pop scheduled for a strike at [time]. *)
Definition crackle_pop_within (time sr range : Q) (v : voice) : Prop :=
  match v with
  | CracklePopV2 t duration pan volume clicks wet =>
      (time <= t ∧ t < time + 0.6)
      ∧ (0.02 <= duration ∧ duration < 0.05)
      ∧ (- range <= pan ∧ pan <= range)
      ∧ (0.1 <= volume ∧ volume < 0.3)
      ∧ length clicks = Z.to_nat (Math_floor (sr * duration))
      ∧ Forall (λ x, -1 <= x ∧ x < 1) clicks
  | _ => False
  end.

(** When a voice is due to sound. *)
Definition voice_time (v : voice) : Q :=
  match v with
  | RumbleV1 now _ _ _ _ => now
  | BurstV1 now _ _ _ _ _ _ _ _ _ _ => now
  | DropV1 now _ _ _ _ _ => now
  | BurstV2 time _ _ _ _ _ _ => time
  | RumbleV2 time _ _ _ _ _ _ => time
  | CracklePopV2 time _ _ _ _ _ => time
  | DropV2 now _ _ _ _ _ _ _ => now
  end.

Definition is_pop (v : voice) : bool :=
  match v with CracklePopV2 _ _ _ _ _ _ => true | _ => false end.

Definition is_drop (v : voice) : bool :=
  match v with
  | DropV1 _ _ _ _ _ _ | DropV2 _ _ _ _ _ _ _ _ => true
  | _ => false
  end.

(** ** The lifecycle of a generator: sources and timers *)

(** [m] leaves [f] of the context as it is, when it returns. *)
Definition preserves {A B} (f : host → B) (m : M host A) : Prop :=
  ∀ h a h', m h = Done (a, h') → f h' = f h.

(** The timers whose handle the caller keeps, and the last handle given. *)
Definition timers (h : host) : gmap nat Q * nat := (handles h, next_handle h).

(** What the lifecycle of a generator turns on: the sources of the
    context and its timers. *)
Definition scene (h : host) : list (node_kind * playback * bool) * (gmap nat Q * nat) :=
  (sigs h, timers h).

(** [m] returns when the scene satisfies [P], and leaves it satisfying [Q]. *)
Definition during {A}
    (P : list (node_kind * playback * bool) * (gmap nat Q * nat) → Prop)
    (m : M host A)
    (Q : A → list (node_kind * playback * bool) * (gmap nat Q * nat) → Prop)
  : Prop :=
  ∀ h, P (scene h) → ∃ a h', m h = Done (a, h') ∧ Q a (scene h').

(** The sources that the oscillation of a parameter adds while the
    generator runs: an oscillator that plays, and its gain. *)
Definition lfo_sigs (running : bool) (p : OscParam.t)
  : list (node_kind * playback * bool) :=
  if running && OscParam.osc p
  then [(Oscillator, Playing, false); (Gain, Unscheduled, false)]
  else [].

(** The entry of the LFO map that goes with them, the first of the two
    nodes having the id [at_]. *)
Definition lfo_entry (running : bool) (p : OscParam.t) (id : string) (at_ : nat)
    (m : gmap string (nat * nat)) : gmap string (nat * nat) :=
  if running && OscParam.osc p then <[id := (at_, S at_)]> m else m.

(** The source [id] once stopped. *)
Definition end_source (id : nat) (l : list (node_kind * playback * bool))
  : list (node_kind * playback * bool) :=
  alter (λ s, (s.1.1, Ended, s.2)) id l.

(** The generator that [start] leaves: it runs, holds the noise source
    [at_] and the interval [timer], and the oscillators that its two
    oscillating parameters ask for. *)
Definition running_from (this : RainV1.RainGenerator) (at_ timer : nat)
  : RainV1.RainGenerator :=
  let ps := RainV1.params this in
  RainV1.mk (RainV1.output this) (RainV1.noiseGainNode this)
    (RainV1.dropGainNode this) (RainV1.dryDropGainNode this)
    (RainV1.reverbNode this) (RainV1.dryGain this) (RainV1.wetGain this)
    (RainV1.noiseFilter this) (Some at_) (Some timer) true ps
    (RainV1.eqBands this)
    (lfo_entry true (RainV1.dropReverbLevel ps) "dropReverbLevel"
       (S at_ + length (lfo_sigs true (RainV1.noiseFilterFreq ps)))
       (lfo_entry true (RainV1.noiseFilterFreq ps) "noiseFilterFreq" (S at_) ∅)).

(** The sources that a running generator holds are in order: its noise
    source is a looping buffer source that plays, and the oscillator of
    every entry of its LFO map is an oscillator that plays. *)
Definition tidy (this : RainV1.RainGenerator)
    (l : list (node_kind * playback * bool)) : Prop :=
  (∀ id, RainV1.noiseNode this = Some id →
         l !! id = Some (BufferSource, Playing, true))
  ∧ (∀ key o g, RainV1.lfoMap this !! key = Some (o, g) →
                l !! o = Some (Oscillator, Playing, false)).

(** The number of looping sources that play. *)
Definition live (l : list (node_kind * playback * bool)) : nat :=
  length (List.filter is_live_sig l).

(** ** A strike of the V1 thunder generator in time *)

(** A burst of a strike of the duration [d] and the volume [v], played
    at the time [t]: its duration and its volume are those of the strike
    scaled by factors within [[0.8, 1.2)] and [[0.7, 1.3)], and it has a
    reverb path only if the generator has a reverb buffer. *)
Definition burst_of (this : ThunderV1.ThunderGenerator) (d v t : Q)
    (x : voice) : Prop :=
  match x with
  | BurstV1 t' duration volume _ _ _ wet _ _ _ _ =>
      t' = t
      ∧ (∃ k, 0.8 <= k ∧ k < 1.2 ∧ duration = d * k)
      ∧ (∃ k, 0.7 <= k ∧ k < 1.3 ∧ volume = v * k)
      ∧ (wet = None ↔ ThunderV1.reverbBuffer this = None)
  | _ => False
  end.

(** The pending callback of burst [i] of a strike: its delay is between
    [200 * i] and [600 * i] milliseconds. *)
Definition burst_timer (d v : Q) (i : nat) (t : Q * task) : Prop :=
  t.2 = SingleBurst d v
  ∧ 200 * inject_Z (Z.of_nat i) <= t.1
  ∧ t.1 <= 600 * inject_Z (Z.of_nat i).

(** ** A generator while it runs, and its end *)

(** The node [id], if there is such a node, is connected to nothing. *)
Definition severed (id : nat) (h : host) : Prop :=
  ∀ n, nodes h !! id = Some n → outputs n = [].

(** [m] returns; it disconnects the nodes of [S], connects nothing, and
    leaves the sources and the timers as they are. *)
Definition cuts {A} (S : nat → Prop) (m : M host A) : Prop :=
  ∀ h, ∃ a h',
    m h = Done (a, h')
    ∧ (∀ id, S id ∨ severed id h → severed id h')
    ∧ sigs h' = sigs h
    ∧ handles h' = handles h.

(** The nodes that a V1 rain generator creates once and keeps. *)
Definition persistent (this : RainV1.RainGenerator) : list nat :=
  [RainV1.output this; RainV1.noiseGainNode this; RainV1.noiseFilter this;
   RainV1.dropGainNode this; RainV1.dryDropGainNode this;
   RainV1.reverbNode this; RainV1.dryGain this; RainV1.wetGain this]
  ++ RainV1.eqBands this.

(** ** The level of the noise *)

(** A bound on the magnitude of the samples of a noise buffer. *)
Definition noise_peak (type : NoiseType) : Q :=
  match type with white => 1 | pink => 7.66 end.

(** The state of the pink-noise filter stays within these bounds. *)
Definition within_bounds (s : Kellet.state) : Prop :=
  (-49 <= Kellet.b0 s ∧ Kellet.b0 s <= 49)
  ∧ (-11.3 <= Kellet.b1 s ∧ Kellet.b1 s <= 11.3)
  ∧ (-5 <= Kellet.b2 s ∧ Kellet.b2 s <= 5)
  ∧ (-2.4 <= Kellet.b3 s ∧ Kellet.b3 s <= 2.4)
  ∧ (-1.2 <= Kellet.b4 s ∧ Kellet.b4 s <= 1.2)
  ∧ (-0.08 <= Kellet.b5 s ∧ Kellet.b5 s <= 0.08)
  ∧ (-0.12 <= Kellet.b6 s ∧ Kellet.b6 s <= 0.12).

(** * Properties *)

Section UpdateParams.
Context {V : Type}.
Implicit Types (p u : gmap string V) (l : list (string * V)).



End UpdateParams.



(** The sample sequence of draws lies in [[0, 1)]. *)
Lemma Sample_draws_range (n : nat) : 0 <= Sample.draws n < 1.
Proof.
  unfold Sample.draws.
  pose proof (Nat.mod_upper_bound (n * 5 + 3) 8 ltac:(lia)) as Hlt.
  set (k := ((n * 5 + 3) mod 8)%nat) in *.
  assert (0 <= inject_Z (Z.of_nat k)) by (rewrite <- (Zle_Qle 0); lia).
  assert (inject_Z (Z.of_nat k) < 8) by (rewrite <- (Zlt_Qlt _ 8); lia).
  split.
  - apply Qle_shift_div_l; [reflexivity|]. lra.
  - apply Qlt_shift_div_r; [reflexivity|]. lra.
Qed.

(** ** Computations that only draw random numbers, or only add voices *)

Section Frames.
Context `{MathHost}.



Lemma only_draws_ret {A} (a : A) : only_draws (ret a).
Proof. intros h. exists a, (random_calls h). by destruct h. Qed.

Lemma only_draws_bind {A B} (m : M host A) (k : A → M host B) :
only_draws m → (∀ a, only_draws (k a)) → only_draws (bind m k).
Proof.
intros Hm Hk h. destruct (Hm h) as (a & n & Ha).
destruct (Hk a (with_random_calls n h)) as (b & n' & Hb).
exists b, n'. unfold bind. by rewrite Ha, Hb.
Qed.

Lemma only_draws_random : only_draws Math_random.
Proof. intros h. by eexists _, _. Qed.

Lemma only_draws_now : only_draws now.
Proof. intros h. exists (currentTime h), (random_calls h). by destruct h. Qed.

Lemma only_draws_rate : only_draws rate.
Proof. intros h. exists (sampleRate h), (random_calls h). by destruct h. Qed.

Lemma only_draws_fill sample : (∀ i, only_draws (sample i)) →
∀ n from data, only_draws (fill from n sample data).
Proof.
intros Hs. induction n as [|n IH]; intros from data; simpl.
- apply only_draws_ret.
- apply only_draws_bind; [apply Hs|]. intros x. apply IH.
Qed.

Lemma adds_voices_spawn v : adds_voices (spawn v) (λ vs, vs = [v]).
Proof. intros h. exists tt, (random_calls h), [v]. by destruct h. Qed.

Lemma adds_voices_weaken {A} (m : M host A) (P P' : list voice → Prop) :
(∀ vs, P vs → P' vs) → adds_voices m P → adds_voices m P'.
Proof.
intros HP Hm h. destruct (Hm h) as (a & n & vs & E & Hvs).
exists a, n, vs. eauto.
Qed.

Lemma adds_voices_draws {A B} (m : M host A) (k : A → M host B) P :
only_draws m → (∀ a, adds_voices (k a) P) → adds_voices (bind m k) P.
Proof.
intros Hm Hk h. destruct (Hm h) as (a & n & Ha).
destruct (Hk a (with_random_calls n h)) as (b & n' & vs & Hb & Hvs).
exists b, n', vs. unfold bind. rewrite Ha, Hb. by destruct h.
Qed.

Lemma adds_voices_bind {A B} (m : M host A) (k : A → M host B) P P' :
adds_voices m P → (∀ a, adds_voices (k a) P') →
adds_voices (bind m k) (λ vs, ∃ vs1 vs2, vs = vs1 ++ vs2 ∧ P vs1 ∧ P' vs2).
Proof.
intros Hm Hk h. destruct (Hm h) as (a & n & vs1 & Ha & H1).
destruct (Hk a (with_voices (voices h ++ vs1) (with_random_calls n h)))
  as (b & n' & vs2 & Hb & H2).
exists b, n', (vs1 ++ vs2). unfold bind. rewrite Ha, Hb. split.
- destruct h; simpl. by rewrite <- app_assoc.
- eauto.
Qed.

Lemma adds_voices_none {A} (m : M host A) :
only_draws m → adds_voices m (λ vs, vs = []).
Proof.
intros Hm h. destruct (Hm h) as (a & n & Ha).
exists a, n, []. rewrite Ha, app_nil_r. by destruct h.
Qed.

Lemma count_voices_app p vs1 vs2 :
count_voices p (vs1 ++ vs2) = (count_voices p vs1 + count_voices p vs2)%nat.
Proof. unfold count_voices. by rewrite List.filter_app, length_app. Qed.


Lemma tally_app vs1 vs2 :
tally (vs1 ++ vs2)
= ((tally vs1).1 + (tally vs2).1, (tally vs1).2 + (tally vs2).2)%nat.
Proof. unfold tally. by rewrite !count_voices_app. Qed.

(** A loop whose body adds [b] bursts and [r] rumbles at each iteration
  adds [n * b] bursts and [n * r] rumbles. *)
Lemma adds_voices_for_range b r (body : nat → M host unit) :
(∀ i, adds_voices (body i) (λ vs, tally vs = (b, r))) →
∀ n from, adds_voices (for_range from n body)
            (λ vs, tally vs = (n * b, n * r)%nat).
Proof.
intros Hb. induction n as [|n IH]; intros from; simpl.
- eapply adds_voices_weaken; [|apply adds_voices_none, only_draws_ret].
  by intros vs ->.
- eapply adds_voices_weaken;
    [|apply (adds_voices_bind _ _ _ _ (Hb from) (λ _, IH (S from)))].
  intros vs (vs1 & vs2 & -> & H1 & H2). by rewrite tally_app, H1, H2.
Qed.

(** Sequencing adds the tallies. *)
Lemma adds_voices_seq {A B} (m : M host A) (k : A → M host B) t1 t2 :
adds_voices m (λ vs, tally vs = t1) →
(∀ a, adds_voices (k a) (λ vs, tally vs = t2)) →
adds_voices (bind m k)
  (λ vs, tally vs = (t1.1 + t2.1, t1.2 + t2.2)%nat).
Proof.
intros Hm Hk.
eapply adds_voices_weaken; [|apply (adds_voices_bind _ _ _ _ Hm Hk)].
intros vs (vs1 & vs2 & -> & H1 & H2). by rewrite tally_app, H1, H2.
Qed.
End Frames.

(** ** What the audio engine accepts *)

Lemma bind_ret_l {St A B} (a : A) (k : A → M St B) : bind (ret a) k = k a.
Proof. reflexivity. Qed.

Lemma setValueAtTime_ok (value startTime : Q) :
0 <= startTime → setValueAtTime value startTime = ret tt.
Proof.
intros Ht. unfold setValueAtTime.
destruct (Qlt_le_dec startTime 0); [lra|done].
Qed.

Lemma linearRampToValueAtTime_ok (value endTime : Q) :
0 <= endTime → linearRampToValueAtTime value endTime = ret tt.
Proof.
intros Ht. unfold linearRampToValueAtTime.
destruct (Qlt_le_dec endTime 0); [lra|done].
Qed.

Lemma exponentialRampToValueAtTime_ok (value endTime : Q) :
¬ value == 0 → 0 <= endTime →
exponentialRampToValueAtTime value endTime = ret tt.
Proof.
intros Hv Ht. unfold exponentialRampToValueAtTime.
destruct (Qeq_bool value 0) eqn:E; [by apply Qeq_bool_eq in E|].
destruct (Qlt_le_dec endTime 0); [lra|done].
Qed.

Lemma exponentialRampToValueAtTime_zero (value endTime : Q) (h : host) :
value == 0 → exponentialRampToValueAtTime value endTime h = Thrown RangeError h.
Proof.
intros Hv. unfold exponentialRampToValueAtTime.
by rewrite (Qeq_eq_bool _ _ Hv).
Qed.

Lemma start_at_ok (when : Q) : 0 <= when → start_at when = ret tt.
Proof.
intros Ht. unfold start_at. destruct (Qlt_le_dec when 0); [lra|done].
Qed.

Lemma stop_at_ok (when : Q) : 0 <= when → stop_at when = ret tt.
Proof.
intros Ht. unfold stop_at. destruct (Qlt_le_dec when 0); [lra|done].
Qed.

(** A length of at least one frame, below 2^32, is converted by
    dropping its fraction. *)
Lemma to_unsigned_long_frames (x : Q) :
0 <= x → x < 4294967296 → to_unsigned_long x = to_length x.
Proof.
intros H0 Hmax. unfold to_unsigned_long, to_length.
destruct x as [n d]. unfold Qfloor. cbn [Qnum Qden].
assert (0 <= n)%Z as Hn.
{ unfold Qle in H0. simpl in H0. lia. }
rewrite Z.quot_div_nonneg by lia.
rewrite Z.mod_small; [done|]. split; [apply Z.div_pos; lia|].
apply Z.div_lt_upper_bound; [lia|].
unfold Qlt in Hmax. simpl in Hmax. lia.
Qed.

Lemma to_length_frames (x : Q) : 1 <= x → (1 ≤ to_length x)%nat.
Proof.
intros Hx. unfold to_length.
assert (1 <= Qfloor x)%Z; [|lia].
change 1%Z with (Qfloor 1). by apply Qfloor_resp_le.
Qed.

Lemma ctx_createBuffer_ok (length : Q) :
1 <= length → length < 4294967296 →
ctx_createBuffer length = ret (createBuffer length).
Proof.
intros H1 Hmax. unfold ctx_createBuffer, createBuffer.
rewrite to_unsigned_long_frames by lra.
pose proof (to_length_frames length H1).
by destruct (to_length length); [lia|].
Qed.


(** The calls that the audio engine accepts, their conditions being
    known, leave a computation as it is. *)
Ltac accepted :=
  repeat first
    [ rewrite setValueAtTime_ok by (first [done|lra|nra])
    | rewrite linearRampToValueAtTime_ok by (first [done|lra|nra])
    | rewrite exponentialRampToValueAtTime_ok by (first [done|lra|nra])
    | rewrite start_at_ok by (first [done|lra|nra])
    | rewrite stop_at_ok by (first [done|lra|nra])
    | rewrite bind_ret_l ];
  cbv beta.

(** ** Voices added in a context of a given rate and time *)

Section EmitsAt.
Context `{MathHost}.
Variables sr t : Q.

Lemma emits_at_emits {A} (m : M host A) (P : Q → Q → A → list voice → Prop) :
emits m P → emits_at sr t m (P sr t).
Proof.
intros Hm h <- <-. destruct (Hm h) as (a & n & vs & E & HP). by exists a, n, vs.
Qed.

Lemma emits_at_adds_voices {A} (m : M host A) (P : list voice → Prop) :
adds_voices m P → emits_at sr t m (λ _ vs, P vs).
Proof.
intros Hm h _ _. destruct (Hm h) as (a & n & vs & E & HP). by exists a, n, vs.
Qed.

Lemma emits_at_only_draws {A} (m : M host A) :
only_draws m → emits_at sr t m (λ _ vs, vs = []).
Proof.
intros Hm h _ _. destruct (Hm h) as (a & n & Ha).
exists a, n, []. rewrite Ha, app_nil_r. by destruct h.
Qed.

Lemma emits_at_weaken {A} (m : M host A) (P P' : A → list voice → Prop) :
(∀ a vs, P a vs → P' a vs) → emits_at sr t m P → emits_at sr t m P'.
Proof.
intros HP Hm h Hsr Ht. destruct (Hm h Hsr Ht) as (a & n & vs & E & Hvs).
exists a, n, vs. eauto.
Qed.

Lemma emits_at_ret {A} (a : A) (P : A → list voice → Prop) :
P a [] → emits_at sr t (ret a) P.
Proof.
intros HP h _ _. exists a, (random_calls h), []. rewrite app_nil_r.
split; [by destruct h|done].
Qed.

Lemma emits_at_spawn (v : voice) (P : unit → list voice → Prop) :
P tt [v] → emits_at sr t (spawn v) P.
Proof.
intros HP h _ _. exists tt, (random_calls h), [v]. split; [by destruct h|done].
Qed.

(** What is known of the value and the voices of a step is known to
    what follows it. *)
Lemma emits_at_bind {A B} (m : M host A) (k : A → M host B)
  (P1 : A → list voice → Prop) (P : B → list voice → Prop) :
emits_at sr t m P1 →
(∀ a vs1, P1 a vs1 → emits_at sr t (k a) (λ b vs2, P b (vs1 ++ vs2))) →
emits_at sr t (bind m k) P.
Proof.
intros Hm Hk h Hsr Ht. destruct (Hm h Hsr Ht) as (a & n & vs1 & Ha & H1).
destruct (Hk a vs1 H1 (with_voices (voices h ++ vs1) (with_random_calls n h)))
  as (b & n' & vs2 & Hb & H2); [by destruct h..|].
exists b, n', (vs1 ++ vs2). unfold bind. rewrite Ha, Hb. split; [|done].
destruct h; simpl. by rewrite <- app_assoc.
Qed.

(** A step that adds no voice. *)
Lemma emits_at_let {A B} (m : M host A) (k : A → M host B)
  (R : A → Prop) (P : B → list voice → Prop) :
emits_at sr t m (λ a vs, R a ∧ vs = []) →
(∀ a, R a → emits_at sr t (k a) P) →
emits_at sr t (bind m k) P.
Proof.
intros Hm Hk. eapply emits_at_bind; [exact Hm|].
intros a vs1 [HR ->]. simpl. by apply Hk.
Qed.

Lemma emits_at_draws {A B} (m : M host A) (k : A → M host B)
  (P : B → list voice → Prop) :
only_draws m → (∀ a, emits_at sr t (k a) P) → emits_at sr t (bind m k) P.
Proof.
intros Hm Hk. eapply emits_at_bind; [by apply emits_at_only_draws|].
intros a vs1 ->. apply Hk.
Qed.

Lemma emits_at_now {B} (k : Q → M host B) (P : B → list voice → Prop) :
emits_at sr t (k t) P → emits_at sr t (bind now k) P.
Proof.
intros Hk h Hsr Ht. destruct (Hk h Hsr Ht) as (b & n & vs & Hb & HP).
exists b, n, vs. unfold bind, now. by rewrite Ht.
Qed.

Lemma emits_at_rate {B} (k : Q → M host B) (P : B → list voice → Prop) :
emits_at sr t (k sr) P → emits_at sr t (bind rate k) P.
Proof.
intros Hk h Hsr Ht. destruct (Hk h Hsr Ht) as (b & n & vs & Hb & HP).
exists b, n, vs. unfold bind, rate. by rewrite Hsr.
Qed.

Lemma emits_at_rand {B} (p : RandParam.t) (k : Q → M host B) (R : Q → Prop)
  (P : B → list voice → Prop) :
rand_in p R →
(∀ x, R x → emits_at sr t (k x) P) →
emits_at sr t (bind (ThunderV2.rand p) k) P.
Proof.
intros Hp Hk h Hsr Ht.
assert (∃ x n, ThunderV2.rand p h = Done (x, with_random_calls n h))
  as (x & n & Hx).
{ destruct p as [v [] d]; simpl.
  - unfold ThunderV2.randomBetween, bind, Math_random, ret. by eexists _, _.
  - unfold ret. exists v, (random_calls h). by destruct h. }
destruct (Hk x (Hp _ _ _ Hx) (with_random_calls n h))
  as (b & n' & vs & Hb & HP); [by destruct h..|].
exists b, n', vs. unfold bind. rewrite Hx, Hb. split; [|done]. by destruct h.
Qed.

(** A loop each of whose iterations adds one voice. *)
Lemma emits_at_for_range (V : nat → voice → Prop) (body : nat → M host unit) :
∀ n from,
  (∀ i, (from ≤ i < from + n)%nat →
        emits_at sr t (body i) (λ _ vs, ∃ v, vs = [v] ∧ V i v)) →
  emits_at sr t (for_range from n body) (λ _ vs, Forall2 V (seq from n) vs).
Proof.
induction n as [|n IH]; intros from Hb; simpl.
- apply emits_at_ret. constructor.
- eapply emits_at_bind; [apply Hb; lia|].
  intros [] vs1 (v & -> & Hv).
  eapply emits_at_weaken; [|apply IH; intros i Hi; apply Hb; lia].
  intros [] vs2 Hvs. by constructor.
Qed.

(** With the flag off, [rand] returns the base value. *)
Lemma rand_in_disabled (p : RandParam.t) (P : Q → Prop) :
RandParam.rand p = false → P (RandParam.value p) → rand_in p P.
Proof.
destruct p as [v r d]; simpl. intros -> HP h x h' [= <- _]. done.
Qed.
End EmitsAt.

(** ** Loops bounded by a number *)

Lemma lt_ceiling (z : Z) (q : Q) : inject_Z z < q ↔ (z < Qceiling q)%Z.
Proof.
  split; intros Hlt.
  - rewrite Zlt_Qlt. eapply Qlt_le_trans; [exact Hlt|apply Qle_ceiling].
  - eapply Qle_lt_trans; [|apply Qceiling_lt].
    rewrite <- Zle_Qle. lia.
Qed.

Lemma for_below_range {St} (body : nat → M St unit) (bound : Q) :
  ∀ fuel from,
    (Z.to_nat (Qceiling bound) - from ≤ fuel)%nat →
    for_below fuel from bound body
    = for_range from (Z.to_nat (Qceiling bound) - from) body.
Proof.
  induction fuel as [|fuel IH]; intros from Hfuel; simpl;
    destruct (Qlt_le_dec _ _) as [Hlt|Hge].
  - apply lt_ceiling in Hlt. lia.
  - replace (Z.to_nat (Qceiling bound) - from)%nat with O; [done|].
    assert (¬ (Z.of_nat from < Qceiling bound)%Z); [|lia].
    rewrite <- lt_ceiling. by apply Qle_not_lt.
  - apply lt_ceiling in Hlt.
    replace (Z.to_nat (Qceiling bound) - from)%nat
      with (S (Z.to_nat (Qceiling bound) - S from)) by lia.
    simpl. rewrite IH by lia. done.
  - replace (Z.to_nat (Qceiling bound) - from)%nat with O; [done|].
    assert (¬ (Z.of_nat from < Qceiling bound)%Z); [|lia].
    rewrite <- lt_ceiling. by apply Qle_not_lt.
Qed.

(** ** V2/ThunderGenerator *)

Section ThunderV2_facts.
Context `{MathHost}.
Hypothesis random_range : ∀ n, 0 <= random_seq n < 1.
Import ThunderV2.

Lemma only_draws_randomBetween lo hi : only_draws (randomBetween lo hi).
Proof.
apply only_draws_bind; [apply only_draws_random|].
intros r. apply only_draws_ret.
Qed.

Lemma only_draws_rand p : only_draws (rand p).
Proof.
destruct p as [v [] d]; simpl.
- apply only_draws_randomBetween.
- apply only_draws_ret.
Qed.

(** With the flag off, [rand] returns the base value and draws nothing. *)
Lemma rand_disabled p h :
RandParam.rand p = false → rand p h = Done (RandParam.value p, h).
Proof. destruct p as [v r d]; simpl. by intros ->. Qed.

Lemma only_draws_createCrackleBuffer duration :
only_draws (createCrackleBuffer duration).
Proof.
unfold createCrackleBuffer.
apply only_draws_bind; [apply only_draws_rate|]. intros sr.
apply only_draws_fill. intros _.
apply only_draws_bind; [apply only_draws_random|]. intros r.
destruct (Qlt_le_dec _ _); [|apply only_draws_ret].
apply only_draws_bind; [apply only_draws_random|]. intros r'.
apply only_draws_ret.
Qed.

Lemma scheduleCracklePop_adds this time :
adds_voices (scheduleCracklePop this time) (λ vs, tally vs = (0, 0)%nat).
Proof.
unfold scheduleCracklePop.
repeat (apply adds_voices_draws;
        [first [apply only_draws_rand|apply only_draws_randomBetween
               |apply only_draws_random|apply only_draws_createCrackleBuffer]
        |intros ?]).
eapply adds_voices_weaken; [|apply adds_voices_spawn]. by intros vs ->.
Qed.

Lemma scheduleCrackle_adds this time :
adds_voices (scheduleCrackle this time) (λ vs, tally vs = (0, 0)%nat).
Proof.
unfold scheduleCrackle.
apply adds_voices_draws; [apply only_draws_rand|]. intros amount.
eapply adds_voices_weaken; [|apply (adds_voices_for_range 0 0)].
- intros vs ->. f_equal; lia.
- intros _. apply adds_voices_draws; [apply only_draws_random|].
  intros r. apply scheduleCracklePop_adds.
Qed.

Lemma emits_at_random sr t {B} (k : Q → M host B) (P : B → list voice → Prop) :
(∀ r, 0 <= r → r < 1 → emits_at sr t (k r) P) →
emits_at sr t (bind Math_random k) P.
Proof.
intros Hk. apply (emits_at_let sr t _ _ (λ r, 0 <= r ∧ r < 1)).
- intros h _ _. exists (random_seq (random_calls h)), (S (random_calls h)), [].
  rewrite app_nil_r. split; [by destruct h|]. split; [|done].
  exact (random_range (random_calls h)).
- intros r [Hr0 Hr1]. by apply Hk.
Qed.

(** A burst is scheduled, at a time that is not negative. *)
Lemma scheduleBurst_at sr t this time :
0 <= time →
rand_in (duration (params this)) (λ d, 0 <= d) →
emits_at sr t (scheduleBurst this time)
  (λ _ vs, ∃ v, vs = [v] ∧ is_burst v = true ∧ voice_time v = time).
Proof.
intros Htime Hdur. unfold scheduleBurst.
apply emits_at_draws; [apply only_draws_rand|intros volume].
eapply emits_at_rand; [exact Hdur|intros duration Hd]. cbv beta in Hd.
apply emits_at_draws; [apply only_draws_rand|intros freq].
apply emits_at_draws; [apply only_draws_randomBetween|intros pan].
apply emits_at_draws; [apply only_draws_rand|intros subLevel].
accepted.
apply emits_at_draws; [apply only_draws_rand|intros subGain].
accepted.
apply emits_at_draws; [apply only_draws_rand|intros wet].
accepted.
apply emits_at_spawn. by eexists.
Qed.

(** The rumble is scheduled, at a time that is not negative. *)
Lemma scheduleRumble_at sr t this time :
0 <= time →
rand_in (rumbleDecay (params this)) (λ d, 0 <= d) →
rand_in (rumbleFreqEnd (params this)) (λ f, ¬ f == 0) →
emits_at sr t (scheduleRumble this time)
  (λ _ vs, ∃ v, vs = [v] ∧ is_rumble v = true ∧ voice_time v = time).
Proof.
intros Htime Hdecay Hend. unfold scheduleRumble.
apply emits_at_draws; [apply only_draws_rand|intros freqStart].
eapply emits_at_rand; [exact Hend|intros freqEnd Hf]. cbv beta in Hf.
eapply emits_at_rand; [exact Hdecay|intros decay Hd]. cbv beta in Hd.
apply emits_at_draws; [apply only_draws_rand|intros volume].
accepted.
apply emits_at_draws; [apply only_draws_randomBetween|intros pan].
apply emits_at_draws; [apply only_draws_rand|intros wet].
accepted.
apply emits_at_spawn. by eexists.
Qed.

(** With an end frequency of 0 the rumble is refused, and nothing of it
  is added. *)
Lemma scheduleRumble_refused this time h :
RandParam.rand (rumbleFreqStart (params this)) = false →
RandParam.rand (rumbleFreqEnd (params this)) = false →
RandParam.rand (rumbleDecay (params this)) = false →
RandParam.rand (rumbleVolume (params this)) = false →
RandParam.value (rumbleFreqEnd (params this)) == 0 →
0 <= time →
scheduleRumble this time h = Thrown RangeError h.
Proof.
intros H1 H2 H3 H4 Hzero Htime. unfold scheduleRumble, bind.
rewrite !rand_disabled by done.
rewrite setValueAtTime_ok by done. unfold ret at 1.
by rewrite exponentialRampToValueAtTime_zero.
Qed.

(** What a strike schedules, [b] being the burst count evaluated for it
  and [C] what is known of its crackle. *)
Lemma strike_at sr t (this : ThunderGenerator) (b : Q) (fuel : nat)
  (C : list voice → Prop) :
0 <= t →
strike_accepted this →
(bursts_of b ≤ fuel)%nat →
(∀ time, emits_at sr t (scheduleCrackle this time) (λ _ vs, C vs)) →
emits_at sr t
  (for_below fuel 0 b
     (λ i, let* r := Math_random in
           let delay := inject_Z (Z.of_nat i) * 0.1 + r * 0.05 in
           let* t := now in
           scheduleBurst this (t + delay)) ;;
   let* t := now in
   scheduleRumble this t ;;
   let* t := now in
   scheduleCrackle this t)
  (λ _ vs,
     ∃ bursts rumble pops,
       vs = bursts ++ rumble :: pops
       ∧ Forall2 (λ i v, is_burst v = true
                         ∧ t + inject_Z (Z.of_nat i) * 0.1 <= voice_time v
                         ∧ voice_time v < t + inject_Z (Z.of_nat i) * 0.1 + 0.05)
                 (seq 0 (bursts_of b)) bursts
       ∧ (is_rumble rumble = true ∧ voice_time rumble = t)
       ∧ C pops).
Proof.
intros Ht (Hdur & Hdecay & Hend) Hfuel Hcrackle.
rewrite for_below_range by (unfold bursts_of in Hfuel; lia).
rewrite Nat.sub_0_r. fold (bursts_of b).
eapply emits_at_bind.
{ apply (emits_at_for_range sr t
           (λ i v, is_burst v = true
                   ∧ t + inject_Z (Z.of_nat i) * 0.1 <= voice_time v
                   ∧ voice_time v < t + inject_Z (Z.of_nat i) * 0.1 + 0.05)).
  intros i _. apply emits_at_random. intros r Hr0 Hr1.
  apply emits_at_now.
  assert (0 <= inject_Z (Z.of_nat i)) as Hi
    by (rewrite <- (Zle_Qle 0); lia).
  eapply emits_at_weaken; [|apply scheduleBurst_at; [lra|done]].
  intros [] vs (v & -> & Hb & Hv). exists v. rewrite Hv.
  split; [done|]. split; [done|]. split; lra. }
intros [] bursts Hbursts. apply emits_at_now.
eapply emits_at_bind; [by apply scheduleRumble_at|].
intros [] vs (rumble & -> & Hr & Hrt). apply emits_at_now.
eapply emits_at_weaken; [|apply Hcrackle].
intros [] pops Hpops. by exists bursts, rumble, pops.
Qed.

Lemma tally_bursts (l : list nat) (P : nat → voice → Prop) (vs : list voice) :
Forall2 (λ i v, is_burst v = true ∧ P i v) l vs →
tally vs = (length vs, 0%nat).
Proof.
induction 1 as [|i v l vs [Hv _] _ IH]; [done|].
change (v :: vs) with ([v] ++ vs). rewrite tally_app, IH.
unfold tally, count_voices. simpl. rewrite Hv.
by destruct v.
Qed.

(** A strike whose evaluated burst count is [b] spawns as many bursts as
  there are integers [0 ≤ i < b], and one rumble. *)
Lemma triggerThunder_tally this h b h1 fuel :
0 <= currentTime h →
strike_accepted this →
rand (burstCount (params this)) h = Done (b, h1) →
(Z.to_nat (Qceiling b) ≤ fuel)%nat →
∃ n vs,
  triggerThunder fuel this h
  = Done (tt, with_voices (voices h ++ vs) (with_random_calls n h))
  ∧ tally vs = (Z.to_nat (Qceiling b), 1%nat).
Proof.
intros Hnow Hok Hb Hfuel.
destruct (only_draws_rand (burstCount (params this)) h) as (b' & n1 & Hb').
rewrite Hb in Hb'. injection Hb' as <- ->.
destruct (strike_at (sampleRate h) (currentTime h) this b fuel
            (λ vs, tally vs = (0, 0)%nat) Hnow Hok Hfuel
            (λ time, emits_at_adds_voices _ _ _ _ (scheduleCrackle_adds this time))
            (with_random_calls n1 h))
  as ([] & n & vs & Hrun & bursts & rumble & pops & -> & Hbursts & [Hr _] & Hpops);
  [by destruct h..|].
exists n, (bursts ++ rumble :: pops). split.
- unfold triggerThunder, bind at 1. rewrite Hb.
  etransitivity; [exact Hrun|]. by destruct h.
- change (rumble :: pops) with ([rumble] ++ pops).
  rewrite !tally_app, Hpops, (tally_bursts _ _ _ Hbursts).
  apply Forall2_length in Hbursts. rewrite length_seq in Hbursts.
  rewrite <- Hbursts. unfold bursts_of, tally, count_voices. simpl. rewrite Hr.
  destruct rumble; try done; cbn; f_equal; lia.
Qed.
End ThunderV2_facts.


Lemma bursts_of_fraction (b : Q) : 0 < b → b <= 1 → bursts_of b = 1%nat.
Proof.
  unfold bursts_of. intros Hpos Hle.
  apply (lt_ceiling 0 b) in Hpos.
  assert (¬ (1 < Qceiling b)%Z); [|lia].
  rewrite <- lt_ceiling. by apply Qle_not_lt.
Qed.

(** ** ThunderGenerator (V1): strikes and the timers they arm *)

Section ThunderV1_facts.
Context `{MathHost}.
Hypothesis random_range : ∀ n, 0 <= random_seq n < 1.
Import ThunderV1.

Lemma only_draws_evaluateRand p fallback : only_draws (evaluateRand p fallback).
Proof.
unfold evaluateRand. destruct (truthy _); [|apply only_draws_ret].
destruct (RandParam.rand p); [|apply only_draws_ret].
apply only_draws_bind; [apply only_draws_random|].
intros r. apply only_draws_ret.
Qed.

Lemma only_draws_fill_tail crackleAmount sr duration :
∀ n from lastOut tailData,
  only_draws (fill_tail from n lastOut crackleAmount sr duration tailData).
Proof.
induction n as [|n IH]; intros from lastOut tailData; simpl.
- apply only_draws_ret.
- apply only_draws_bind; [apply only_draws_random|]. intros r. apply IH.
Qed.

Lemma Math_max_bounds (a b : Q) :
a <= Math_max a b ∧ b <= Math_max a b ∧ (a <= b → Math_max a b <= b).
Proof.
unfold Math_max. destruct (Qlt_le_dec a b) as [Hlt|Hle].
- split; [by apply Qlt_le_weak|]. split; [apply Qle_refl|]. intros _. apply Qle_refl.
- split; [apply Qle_refl|]. split; [done|]. intros Hab. done.
Qed.

Lemma scaled_not_zero (v k c : Q) : ¬ v == 0 → 0 < k → 0 < c → ¬ v * k * c == 0.
Proof.
intros Hv Hk Hc E. apply Hv.
apply Qmult_integral in E as [E|E]; [|lra].
apply Qmult_integral in E as [E|E]; [done|lra].
Qed.

(** The callback of a burst timer plays one burst, at the time that the
  clock reads. *)
Lemma single_burst_at sr t fuel this d v :
0 <= t → burst_accepted sr d v →
emits_at sr t (run_task fuel this (SingleBurst d v))
  (λ _ vs, ∃ x, vs = [x] ∧ burst_of this d v t x).
Proof.
intros Ht (Hsr & Hmin & Hmax & Hv). simpl.
apply emits_at_random; [done|]. intros r1 H10 H11.
apply emits_at_random; [done|]. intros r2 H20 H21.
assert (0 < d) as Hd by (apply Qnot_le_lt; intros Hneg; nra).
set (k1 := 0.8 + r1 * 0.4). set (k2 := 0.7 + r2 * 0.6).
assert (0.8 <= k1 ∧ k1 < 1.2) as [Hk1 Hk1'] by (unfold k1; split; lra).
assert (0.7 <= k2 ∧ k2 < 1.3) as [Hk2 Hk2'] by (unfold k2; split; lra).
assert (0 <= d * k1) as Hdk by nra.
assert (1 <= sr * (d * k1)) as Hone by nra.
assert (sr * (d * k1) < 4294967296) as Hbody by nra.
assert (1 <= sr * (d * k1) * 1.5) as Htail1 by nra.
assert (sr * (d * k1) * 1.5 < 4294967296) as Htail2 by nra.
assert (¬ v * k2 * 0.8 == 0) as Hv8 by (apply scaled_not_zero; [done|lra|lra]).
assert (¬ v * k2 * 0.5 == 0) as Hv5 by (apply scaled_not_zero; [done|lra|lra]).
clearbody k1 k2.
unfold _playSingleBurst.
do 6 (apply emits_at_draws; [apply only_draws_evaluateRand|intros ?]).
apply emits_at_now. apply emits_at_rate.
rewrite ctx_createBuffer_ok, bind_ret_l by done.
apply emits_at_draws.
{ apply only_draws_fill. intros i.
  do 2 (apply only_draws_bind; [apply only_draws_random|intros ?]).
  apply only_draws_ret. }
intros data. accepted.
apply emits_at_random; [done|]. intros r _ _. accepted.
rewrite ctx_createBuffer_ok, bind_ret_l by done.
apply emits_at_draws; [apply only_draws_fill_tail|intros tailData].
accepted.
apply emits_at_spawn. eexists. split; [reflexivity|]. simpl.
split; [done|]. split; [by exists k1|]. split; [by exists k2|].
by destruct (reverbBuffer this).
Qed.

(** The timers that the loop of a strike arms: one for each index [i],
  with a delay between [200 * i] and [600 * i] milliseconds. *)
Lemma burst_loop_arms d v : ∀ n from h,
∃ k ts,
  for_range from n
    (λ i, let* r := Math_random in
          let burstDelay := 200 + r * 400 in
          setTimeout (SingleBurst d v) (burstDelay * inject_Z (Z.of_nat i))) h
  = Done (tt, with_timeouts (timeouts h ++ ts) (with_random_calls k h))
  ∧ Forall2 (burst_timer d v) (seq from n) ts.
Proof.
set (body := λ i : nat, _).
induction n as [|n IH]; intros from h.
- exists (random_calls h), []. simpl. rewrite app_nil_r.
  split; [by destruct h|constructor].
- cbn [for_range]. unfold bind at 1. unfold body at 1.
  unfold bind at 1, Math_random, setTimeout, modify.
  set (r := random_seq (random_calls h)).
  set (i := inject_Z (Z.of_nat from)).
  set (h1 := with_timeouts _ _).
  destruct (IH (S from) h1) as (k & ts & E & Hall).
  exists k, ((Math_max 0 ((200 + r * 400) * i), SingleBurst d v) :: ts).
  split.
  + rewrite E. subst h1. simpl. by rewrite <- app_assoc.
  + constructor; [|exact Hall].
    assert (0 <= r ∧ r < 1) as [Hr0 Hr1] by apply random_range.
    assert (0 <= i) as Hi by (unfold i; rewrite <- (Zle_Qle 0); lia).
    split; [done|]. simpl. fold i.
    destruct (Math_max_bounds 0 ((200 + r * 400) * i)) as (Hm0 & Hm1 & Hm2).
    assert (0 <= (200 + r * 400) * i) as Hpos by nra.
    specialize (Hm2 Hpos).
    set (m := Math_max 0 ((200 + r * 400) * i)) in *.
    clearbody m. split; nra.
Qed.

(** The callback of a strike plays the rumble and arms the timers of the
  bursts. *)
Lemma strike_body_runs fuel this fs fe rv rd b d v h :
0 <= currentTime h → 0 <= rd → (bursts_of b ≤ fuel)%nat →
∃ k ts,
  run_task fuel this (StrikeBody fs fe rv rd b d v) h
  = Done (tt, with_timeouts (timeouts h ++ ts)
                (with_voices (voices h ++ [RumbleV1 (currentTime h) fs fe rv rd])
                   (with_random_calls k h)))
  ∧ Forall2 (burst_timer d v) (seq 0 (bursts_of b)) ts.
Proof.
intros Hnow Hrd Hfuel. cbn [run_task].
unfold bind at 1, now.
accepted.
unfold bind at 1, spawn, modify.
rewrite for_below_range by (fold (bursts_of b); lia).
fold (bursts_of b). rewrite Nat.sub_0_r.
set (h1 := with_voices _ _).
destruct (burst_loop_arms d v (bursts_of b) 0 h1) as (k & ts & E & Hall).
exists k, ts. cbv zeta in E. rewrite E. split; [|exact Hall].
subst h1. by destruct h.
Qed.



End ThunderV1_facts.

(** ** Thunder strikes *)

Section Strikes.
Context `{MathHost}.
Hypothesis random_range : ∀ n, 0 <= random_seq n < 1.




(** The same for a strike of V2, whose bursts are scheduled at once. *)
Lemma triggerThunder_counts (this : ThunderV2.ThunderGenerator)
  (h h1 : host) (b : Q) (fuel : nat) :
0 <= currentTime h →
strike_accepted this →
ThunderV2.rand (ThunderV2.burstCount (ThunderV2.params this)) h = Done (b, h1) →
(bursts_of b ≤ fuel)%nat →
∃ h', ThunderV2.triggerThunder fuel this h = Done (tt, h')
  ∧ count_voices is_burst (voices h')
    = (count_voices is_burst (voices h) + bursts_of b)%nat
  ∧ count_voices is_rumble (voices h')
    = (count_voices is_rumble (voices h) + 1)%nat.
Proof.
intros Hnow Hok Hb Hfuel.
destruct (triggerThunder_tally random_range this h b h1 fuel Hnow Hok Hb Hfuel)
  as (n & vs & Hrun & Hvs).
eexists. split; [exact Hrun|].
unfold tally in Hvs. injection Hvs as Hbs Hrs. simpl.
rewrite !count_voices_app, Hbs, Hrs. done.
Qed.

(** C1: with the flag off and the base value 0, the inline evaluation of
  V1 returns the fallback written after it (here the [1] of
  [burstCount]), not the base value. *)
Theorem evaluateRand_zero_value_takes_fallback (dist : Q) (h : host) :
ThunderV1.evaluateRand (RandParam.mk 0 false dist) 1 h = Done (1, h).
Proof. reflexivity. Qed.


End Strikes.

(** With its randomization off, a parameter has one value. *)
Lemma strike_accepted_disabled `{MathHost} (this : ThunderV2.ThunderGenerator) :
RandParam.rand (ThunderV2.duration (ThunderV2.params this)) = false →
0 <= RandParam.value (ThunderV2.duration (ThunderV2.params this)) →
RandParam.rand (ThunderV2.rumbleDecay (ThunderV2.params this)) = false →
0 <= RandParam.value (ThunderV2.rumbleDecay (ThunderV2.params this)) →
RandParam.rand (ThunderV2.rumbleFreqEnd (ThunderV2.params this)) = false →
¬ RandParam.value (ThunderV2.rumbleFreqEnd (ThunderV2.params this)) == 0 →
strike_accepted this.
Proof.
intros H1 H2 H3 H4 H5 H6. repeat split; by apply rand_in_disabled.
Qed.





(** ** Noise buffers *)

Lemma to_length_le_iterations (x : Q) : (to_length x ≤ iterations x)%nat.
Proof.
  unfold to_length, iterations.
  assert (Qfloor x <= Qceiling x)%Z; [|lia].
  rewrite Zle_Qle. eapply Qle_trans; [apply Qfloor_le|apply Qle_ceiling].
Qed.

Lemma with_random_calls_twice (a b : nat) (h : host) :
  with_random_calls a (with_random_calls b h) = with_random_calls a h.
Proof. reflexivity. Qed.

Lemma with_random_calls_same (h : host) : with_random_calls (random_calls h) h = h.
Proof. by destruct h. Qed.

Section Noise.
Context `{MathHost}.
Hypothesis random_range : ∀ n, 0 <= random_seq n < 1.

Lemma whites_range c n : Forall (λ w, -1 <= w ∧ w < 1) (whites c n).
Proof.
unfold whites. apply Forall_fmap, Forall_forall. intros i _. simpl.
pose proof (random_range i). lra.
Qed.

Lemma whites_cons c n :
whites c (S n) = (random_seq c * 2 - 1) :: whites (S c) n.
Proof. reflexivity. Qed.

(** Past the end of the channel data, the loop of V2 writes nothing. *)
Lemma fill_pink_v2_past_end m : ∀ from b0 b1 b2 b3 b4 b5 b6 data h,
(length data ≤ from)%nat →
RainV2.fill_pink from m b0 b1 b2 b3 b4 b5 b6 data h
= Done (data, with_random_calls (random_calls h + m) h).
Proof.
induction m as [|m IH]; intros from b0 b1 b2 b3 b4 b5 b6 data h Hlen; simpl.
- unfold ret. by rewrite Nat.add_0_r, with_random_calls_same.
- unfold bind, Math_random. rewrite list_insert_ge by done.
  rewrite IH by lia. simpl. do 2 f_equal. rewrite with_random_calls_twice.
  f_equal. lia.
Qed.

Lemma fill_pink_v2_outputs m : ∀ from done rest b0 b1 b2 b3 b4 b5 b6 s h,
from = length done →
Kellet.agrees b0 b1 b2 b3 b4 b5 b6 s →
∃ outs,
  RainV2.fill_pink from m b0 b1 b2 b3 b4 b5 b6 (done ++ rest) h
  = Done (done ++ outs ++ drop m rest,
          with_random_calls (random_calls h + m) h)
  ∧ Forall2 Qeq outs
      (take (length rest) (Kellet.outputs s (whites (random_calls h) m))).
Proof.
induction m as [|m IH];
  intros from done rest b0 b1 b2 b3 b4 b5 b6 s h ->
         (E0 & E1 & E2 & E3 & E4 & E5 & E6).
- exists []. simpl. unfold ret.
  rewrite Nat.add_0_r, with_random_calls_same, take_nil. by split.
- rewrite whites_cons. cbn [RainV2.fill_pink Kellet.outputs].
  unfold bind at 1, Math_random.
  destruct rest as [|r0 rest].
  + exists [].
    rewrite !list_insert_ge by (rewrite ?length_insert, length_app; simpl; lia).
    rewrite fill_pink_v2_past_end by (rewrite length_app; simpl; lia).
    simpl. split; [|constructor].
    do 2 f_equal. rewrite with_random_calls_twice. f_equal. lia.
  + 
    rewrite insert_app_r_alt, Nat.sub_diag by done. cbn [insert list_insert].
    rewrite (cons_middle _ done rest), app_assoc.
    match goal with
    | |- context [RainV2.fill_pink _ m ?a0 ?a1 ?a2 ?a3 ?a4 ?a5 ?a6
                    ((done ++ [?x]) ++ rest) ?h1] =>
        destruct (IH (S (length done)) (done ++ [x]) rest a0 a1 a2 a3 a4 a5 a6
                     (Kellet.step s (random_seq (random_calls h) * 2 - 1)).1 h1)
          as (outs & Hrun & Hout);
          [by rewrite length_app, Nat.add_1_r
          |unfold Kellet.agrees, Kellet.step; simpl;
           repeat split; first [lra|reflexivity]
          |rewrite Hrun; exists (x :: outs); split]
    end.
    * rewrite <- !app_assoc. simpl. do 2 f_equal.
      rewrite with_random_calls_twice. f_equal. lia.
    * simpl. constructor; [unfold Kellet.step; simpl; lra|exact Hout].
Qed.

(** The same two facts for the loop of V1. *)
Lemma fill_pink_v1_past_end m : ∀ from b0 b1 b2 b3 b4 b5 b6 data h,
(length data ≤ from)%nat →
RainV1.fill_pink from m b0 b1 b2 b3 b4 b5 b6 data h
= Done (data, with_random_calls (random_calls h + m) h).
Proof.
induction m as [|m IH]; intros from b0 b1 b2 b3 b4 b5 b6 data h Hlen; simpl.
- unfold ret. by rewrite Nat.add_0_r, with_random_calls_same.
- unfold bind, Math_random.
  rewrite !list_insert_ge by (rewrite ?length_insert; done).
  rewrite IH by lia. simpl. do 2 f_equal. rewrite with_random_calls_twice.
  f_equal. lia.
Qed.

Lemma fill_pink_v1_outputs m : ∀ from done rest b0 b1 b2 b3 b4 b5 b6 s h,
from = length done →
Kellet.agrees b0 b1 b2 b3 b4 b5 b6 s →
∃ outs,
  RainV1.fill_pink from m b0 b1 b2 b3 b4 b5 b6 (done ++ rest) h
  = Done (done ++ outs ++ drop m rest,
          with_random_calls (random_calls h + m) h)
  ∧ Forall2 Qeq outs
      (take (length rest) (Kellet.outputs s (whites (random_calls h) m))).
Proof.
induction m as [|m IH];
  intros from done rest b0 b1 b2 b3 b4 b5 b6 s h ->
         (E0 & E1 & E2 & E3 & E4 & E5 & E6).
- exists []. simpl. unfold ret.
  rewrite Nat.add_0_r, with_random_calls_same, take_nil. by split.
- rewrite whites_cons. cbn [RainV1.fill_pink Kellet.outputs].
  unfold bind at 1, Math_random.
  destruct rest as [|r0 rest].
  + exists [].
    rewrite !list_insert_ge by (rewrite ?length_insert, length_app; simpl; lia).
    rewrite fill_pink_v1_past_end by (rewrite length_app; simpl; lia).
    simpl. split; [|constructor].
    do 2 f_equal. rewrite with_random_calls_twice. f_equal. lia.
  + rewrite (insert_app_r_alt done (r0 :: rest)), Nat.sub_diag by done. cbn [insert list_insert]. rewrite list_lookup_middle by done. cbn [default].
    rewrite insert_app_r_alt, Nat.sub_diag by done. cbn [insert list_insert].
    rewrite (cons_middle _ done rest), app_assoc.
    match goal with
    | |- context [RainV1.fill_pink _ m ?a0 ?a1 ?a2 ?a3 ?a4 ?a5 ?a6
                    ((done ++ [?x]) ++ rest) ?h1] =>
        destruct (IH (S (length done)) (done ++ [x]) rest a0 a1 a2 a3 a4 a5 a6
                     (Kellet.step s (random_seq (random_calls h) * 2 - 1)).1 h1)
          as (outs & Hrun & Hout);
          [by rewrite length_app, Nat.add_1_r
          |unfold Kellet.agrees, Kellet.step; simpl;
           repeat split; first [lra|reflexivity]
          |rewrite Hrun; exists (x :: outs); split]
    end.
    * rewrite <- !app_assoc. simpl. do 2 f_equal.
      rewrite with_random_calls_twice. f_equal. lia.
    * simpl. constructor; [unfold Kellet.step; simpl; lra|exact Hout].
Qed.

Lemma length_outputs ws : ∀ s, length (Kellet.outputs s ws) = length ws.
Proof. induction ws as [|w ws IH]; intros s; simpl; [done|by rewrite IH]. Qed.

Lemma length_whites c n : length (whites c n) = n.
Proof. unfold whites. by rewrite length_fmap, length_seq. Qed.

(** A loop that runs at least as often as the buffer is long fills it
  with the first outputs of the recurrence. *)
Lemma pink_buffer_outputs (bound : Q) (outs : list Q) (c : nat) :
Forall2 Qeq outs
  (take (length (createBuffer bound))
        (Kellet.outputs Kellet.zero (whites c (iterations bound)))) →
length outs = to_length bound.
Proof.
intros Hout. apply Forall2_length in Hout.
rewrite Hout, length_take, length_outputs, length_whites.
unfold createBuffer. rewrite length_replicate.
pose proof (to_length_le_iterations bound). lia.
Qed.

(** What [_startNoise] leaves, the noise source that the generator held
  having been started: the generator holds a new source, the last node of
  the context, which loops and plays the buffer that the loop of the
  noise type has filled. *)
Lemma startNoise_buffer (this : RainV1.RainGenerator) (h : host) :
match RainV1.noiseNode this with
| Some id => ∃ n, nodes h !! id = Some n ∧ state n ≠ Unscheduled
| None => True
end →
∃ h0, random_calls h0 = random_calls h ∧ sampleRate h0 = sampleRate h
  ∧ length (nodes h0) = length (nodes h)
  ∧ ∀ output c,
      match RainV1.noiseType (RainV1.params this) with
      | white =>
          fill 0 (iterations (2 * sampleRate h))
               (λ _, let* r := Math_random in ret (r * 2 - 1))
               (createBuffer (2 * sampleRate h))
      | pink =>
          RainV1.fill_pink 0 (iterations (2 * sampleRate h)) 0 0 0 0 0 0 0
            (createBuffer (2 * sampleRate h))
      end h0 = Done (output, with_random_calls c h0) →
      ∃ h', RainV1._startNoise this h
            = Done (RainV1.with_noiseNode (Some (length (nodes h))) this, h')
        ∧ random_calls h' = c
        ∧ sampleRate h' = sampleRate h
        ∧ nodes h' !! length (nodes h)
          = Some (mk_node BufferSource 0 0 Playing true [output]
                    [ToNode (RainV1.noiseGainNode this)]).
Proof.
intros Hold.
assert (∃ h0, random_calls h0 = random_calls h ∧ sampleRate h0 = sampleRate h
  ∧ length (nodes h0) = length (nodes h)
  ∧ match RainV1.noiseNode this with
    | Some id => stop_source id ;; disconnect id ;; ret (RainV1.with_noiseNode None this)
    | None => ret this
    end h = Done (RainV1.with_noiseNode None this, h0)) as (h0 & Hc & Hr & Hl & E0).
{ destruct this as [? ? ? ? ? ? ? ? [id|] ? ? ? ? ?]; simpl in *.
  - destruct Hold as (n & Hn & Hs).
    unfold bind, stop_source. rewrite Hn.
    destruct (state n) eqn:Es; [done| |];
      unfold update_node, modify, disconnect, update_node, modify, ret;
      eexists; (split; [|split; [|split; [|reflexivity]]]); simpl;
      rewrite ?length_alter; done.
  - exists h. by destruct h. }
exists h0. repeat (split; [done|]). intros output c Hfill.
unfold RainV1._startNoise. unfold bind at 1. rewrite E0.
unfold bind at 1, rate. rewrite Hr.
unfold bind at 1.
replace (RainV1.noiseType (RainV1.params (RainV1.with_noiseNode None this)))
  with (RainV1.noiseType (RainV1.params this)) by by destruct this.
rewrite Hfill.
unfold bind, createNode, set_buffer, set_loop, connect, start_source,
  update_node, modify. simpl.
rewrite !list_lookup_alter_eq. 
rewrite (lookup_app_r (nodes h0) _ (length (nodes h0))) by done.
rewrite Nat.sub_diag. simpl.
unfold ret. rewrite <- Hl.
eexists. split; [by destruct this|]. simpl. split; [done|]. split; [done|].
rewrite !list_lookup_alter_eq.
rewrite (lookup_app_r (nodes h0) _ (length (nodes h0))) by done.
rewrite Nat.sub_diag. simpl. by destruct this.
Qed.

(** C4: in pink mode the noise buffer of either generation holds the
  outputs of the Kellet recurrence, started from the zero state, over
  white samples [Math.random() * 2 - 1] that lie in [[-1, 1)]:
  [createNoiseBuffer] of V2 returns that buffer, and [_startNoise] of V1
  gives it to the looping source that it creates, connects and starts. *)
Theorem pink_noise_is_kellet (h : host) :
let c := random_calls h in
let sr := sampleRate h in
Forall (λ w, -1 <= w ∧ w < 1) (whites c (iterations (sr * 2)))
∧ (∃ data,
     RainV2.createNoiseBuffer pink h
     = Done (data, with_random_calls (c + iterations (sr * 2)) h)
     ∧ length data = to_length (sr * 2)
     ∧ Forall2 Qeq data
         (take (to_length (sr * 2))
               (Kellet.outputs Kellet.zero (whites c (iterations (sr * 2))))))
∧ (∀ this : RainV1.RainGenerator,
     RainV1.noiseType (RainV1.params this) = pink →
     match RainV1.noiseNode this with
     | Some id => ∃ n, nodes h !! id = Some n ∧ state n ≠ Unscheduled
     | None => True
     end →
     ∃ h' output,
       RainV1._startNoise this h
       = Done (RainV1.with_noiseNode (Some (length (nodes h))) this, h')
       ∧ random_calls h' = (c + iterations (2 * sr))%nat
       ∧ nodes h' !! length (nodes h)
         = Some (mk_node BufferSource 0 0 Playing true [output]
                   [ToNode (RainV1.noiseGainNode this)])
       ∧ length output = to_length (2 * sr)
       ∧ Forall2 Qeq output
           (take (to_length (2 * sr))
                 (Kellet.outputs Kellet.zero (whites c (iterations (2 * sr)))))).
Proof.
intros c sr. split; [apply whites_range|]. split.
- destruct (fill_pink_v2_outputs (iterations (sr * 2)) 0%nat []
              (createBuffer (sr * 2)) 0 0 0 0 0 0 0 Kellet.zero h)
    as (outs & Hrun & Hout); [done|by repeat split|].
  pose proof (pink_buffer_outputs _ _ _ Hout) as Hlen.
  rewrite drop_ge, app_nil_r in Hrun
    by (unfold createBuffer; rewrite length_replicate;
        apply to_length_le_iterations).
  exists outs. split; [exact Hrun|]. split; [done|].
  unfold createBuffer in Hout. by rewrite length_replicate in Hout.
- intros this Hpink Hold.
  destruct (startNoise_buffer this h Hold) as (h0 & Hc & Hr & Hl & Hstart).
  rewrite Hpink in Hstart.
  destruct (fill_pink_v1_outputs (iterations (2 * sr)) 0%nat []
              (createBuffer (2 * sr)) 0 0 0 0 0 0 0 Kellet.zero h0)
    as (outs & Hrun & Hout); [done|by repeat split|].
  pose proof (pink_buffer_outputs _ _ _ Hout) as Hlen.
  rewrite drop_ge, app_nil_r in Hrun
    by (unfold createBuffer; rewrite length_replicate;
        apply to_length_le_iterations).
  destruct (Hstart _ _ Hrun) as (h' & E & Hc' & _ & Hnode).
  exists h', outs. split; [exact E|]. split; [by rewrite Hc', Hc|].
  split; [exact Hnode|]. split; [done|].
  unfold createBuffer in Hout. rewrite length_replicate, Hc in Hout.
  exact Hout.
Qed.
End Noise.

Lemma pink_noise_is_kellet_witness :
  (∀ n, 0 <= @random_seq Sample.math n < 1)
  ∧ (∃ data,
       @RainV2.createNoiseBuffer Sample.math pink SampleRain.playing
       = Done (data, with_random_calls 80 SampleRain.playing)
       ∧ length data = 80%nat
       ∧ Forall2 Qeq data
           (take 80 (Kellet.outputs Kellet.zero (@whites Sample.math 0 80))))
  ∧ RainV1.noiseType (RainV1.params SampleRain.running) = pink
  ∧ (∃ n, nodes SampleRain.playing !! 8%nat = Some n ∧ state n ≠ Unscheduled)
  ∧ ∃ h' output,
      @RainV1._startNoise Sample.math SampleRain.running SampleRain.playing
      = Done (RainV1.with_noiseNode (Some 11%nat) SampleRain.running, h')
      ∧ random_calls h' = 80%nat
      ∧ nodes h' !! 11%nat
        = Some (mk_node BufferSource 0 0 Playing true [output] [ToNode 1%nat])
      ∧ length output = 80%nat
      ∧ Forall2 Qeq output
          (take 80 (Kellet.outputs Kellet.zero (@whites Sample.math 0 80))).
Proof.
  split; [exact Sample_draws_range|].
  destruct (@pink_noise_is_kellet Sample.math Sample_draws_range
              SampleRain.playing) as (_ & Hv2 & Hv1).
  split; [exact Hv2|]. split; [reflexivity|].
  assert (∃ n, nodes SampleRain.playing !! 8%nat = Some n
               ∧ state n ≠ Unscheduled) as Hold
    by (eexists; split; [reflexivity|discriminate]).
  split; [exact Hold|].
  exact (Hv1 SampleRain.running eq_refl Hold).
Defined.

(** ** Raindrops *)

Section Drops.
Context `{MathHost}.
Hypothesis random_range : ∀ n, 0 <= random_seq n < 1.





End Drops.



(** ** Oscillating parameters *)

Section Oscillation.
Context `{MathHost}.

(** What [applyOsc] stores at the path is what [read] finds there. *)
Lemma read_assign p v ps : RainV2.read p (RainV2.assign p v ps) = v.
Proof. by destruct ps, p. Qed.

(** C2: [applyOsc] of V2 never reads the [osc] flag: for a parameter whose
  oscillation is off it stores, as the new base value, the base value
  plus the sinusoidal offset [sin(time * freq * 2π) * amp]. *)
Theorem applyOsc_ignores_osc_flag (this : RainV2.RainGenerator)
  (value amp freq : Q) (p : RainV2.path) :
RainV2.read p (RainV2.params
                 (RainV2.applyOsc this (OscParam.mk value false amp freq) p))
= OscParam.mk (value + Math_sin (RainV2.time this * freq * 2 * Math_PI) * amp)
              false amp freq.
Proof. unfold RainV2.applyOsc. simpl. apply read_assign. Qed.

(** The same parameter in V1: [setOscParam] sets the target to the base
  value and, the flag being off, attaches no oscillator to it. *)
Lemma setOscParam_disabled (this : RainV1.RainGenerator) (param : OscParam.t)
  (target : audio_param) (id : string) (h : host) :
OscParam.osc param = false →
RainV1.lfoMap this !! id = None →
RainV1.setOscParam this param target id h
= Done (this, match set_param target (OscParam.value param) h with
              | Done (_, h') => h'
              | Thrown _ _ => h
              end)
∧ length (nodes (match set_param target (OscParam.value param) h with
                 | Done (_, h') => h'
                 | Thrown _ _ => h
                 end)) = length (nodes h).
Proof.
intros Hosc Hnone. unfold RainV1.setOscParam. rewrite Hnone, Hosc.
unfold bind, ret. rewrite andb_false_r.
destruct target; simpl; rewrite length_alter; done.
Qed.
End Oscillation.

(** ** The sources of a context *)

Section Sources.
Context `{MathHost}.
Implicit Types (l : list (node_kind * playback * bool)).

Lemma live_loops_sigs h : live_loops h = length (List.filter is_live_sig (sigs h)).
Proof.
unfold live_loops, sigs. induction (nodes h) as [|n ns IH]; [done|].
simpl. unfold is_live_loop at 1, sig at 1, is_live_sig at 1.
destruct (kind n), (state n), (loop n); simpl; by rewrite ?IH.
Qed.

Lemma live_sigs_app l1 l2 :
length (List.filter is_live_sig (l1 ++ l2))
= (length (List.filter is_live_sig l1) + length (List.filter is_live_sig l2))%nat.
Proof. by rewrite List.filter_app, length_app. Qed.



Lemma triple_ret {A} (a : A) P (Q : A → _ → Prop) :
(∀ l, P l → Q a l) → triple P (ret a) Q.
Proof. intros HPQ h HP. exists a, h. eauto. Qed.

Lemma triple_bind {A B} (m : M host A) (k : A → M host B) P R Q :
triple P m R → (∀ a, triple (R a) (k a) Q) → triple P (bind m k) Q.
Proof.
intros Hm Hk h HP. destruct (Hm h HP) as (a & h1 & E1 & HR).
destruct (Hk a h1 HR) as (b & h2 & E2 & HQ).
exists b, h2. unfold bind. rewrite E1. eauto.
Qed.

Lemma triple_conseq {A} (m : M host A) (P P' : _ → Prop) (Q Q' : A → _ → Prop) :
(∀ l, P' l → P l) → (∀ a l, Q a l → Q' a l) → triple P m Q → triple P' m Q'.
Proof.
intros HP HQ Hm h HP'. destruct (Hm h (HP _ HP')) as (a & h' & E & HQa).
exists a, h'. eauto.
Qed.

Lemma triple_keeps {A} (m : M host A) P : keeps m → triple P m (λ _ l, P l).
Proof.
intros Hm h HP. destruct (Hm h) as (a & h' & E & Hs).
exists a, h'. rewrite Hs. eauto.
Qed.

(** A step that leaves the sources as they are, then the rest. *)
Lemma triple_keeps_bind {A B} (m : M host A) (k : A → M host B) P Q :
keeps m → (∀ a, triple P (k a) Q) → triple P (bind m k) Q.
Proof.
intros Hm Hk. eapply triple_bind; [by apply triple_keeps|]. apply Hk.
Qed.

Lemma keeps_only_draws {A} (m : M host A) : only_draws m → keeps m.
Proof. intros Hm h. destruct (Hm h) as (a & n & E). by exists a, (with_random_calls n h). Qed.

Lemma keeps_update_node id f :
(∀ n, sig (f n) = sig n) → keeps (update_node id f).
Proof.
intros Hf h. exists tt, (with_nodes (alter f id (nodes h)) h). split; [done|].
unfold sigs. simpl. apply list_eq. intros i.
rewrite !list_lookup_fmap, list_lookup_alter.
case_decide; [subst|done]. destruct (nodes h !! i); simpl; by rewrite ?Hf.
Qed.

Lemma keeps_set_frequency id v : keeps (set_frequency id v).
Proof. by apply keeps_update_node. Qed.
Lemma keeps_set_gain id v : keeps (set_gain id v).
Proof. by apply keeps_update_node. Qed.
Lemma keeps_set_buffer id b : keeps (set_buffer id b).
Proof. by apply keeps_update_node. Qed.
Lemma keeps_connect id d : keeps (connect id d).
Proof. by apply keeps_update_node. Qed.
Lemma keeps_disconnect id : keeps (disconnect id).
Proof. by apply keeps_update_node. Qed.
Lemma keeps_set_param p v : keeps (set_param p v).
Proof. destruct p; [apply keeps_set_frequency|apply keeps_set_gain]. Qed.

Lemma keeps_ret {A} (a : A) : keeps (ret a).
Proof. intros h. by exists a, h. Qed.

Lemma keeps_bind {A B} (m : M host A) (k : A → M host B) :
keeps m → (∀ a, keeps (k a)) → keeps (bind m k).
Proof.
intros Hm Hk h. destruct (Hm h) as (a & h1 & E1 & S1).
destruct (Hk a h1) as (b & h2 & E2 & S2).
exists b, h2. unfold bind. rewrite E1, E2. split; [done|congruence].
Qed.

Lemma keeps_clearInterval id : keeps (clearInterval id).
Proof. intros h. by eexists tt, _. Qed.

Lemma keeps_setInterval period : keeps (setInterval period).
Proof. intros h. by eexists _, _. Qed.

Lemma triple_createNode k l0 :
triple (eq l0) (createNode k)
       (λ id l, id = length l0 ∧ l = l0 ++ [(k, Unscheduled, false)]).
Proof.
intros h ->. eexists _, _. split; [done|]. unfold sigs. simpl.
by rewrite length_fmap, fmap_app.
Qed.

Lemma triple_set_loop id b l0 :
triple (eq l0) (set_loop id b)
       (λ _ l, l = alter (λ s, (s.1.1, s.1.2, b)) id l0).
Proof.
intros h ->. eexists _, _. split; [done|]. unfold sigs. simpl.
apply list_eq. intros i. rewrite !list_lookup_fmap, !list_lookup_alter.
rewrite list_lookup_fmap. case_decide; [subst|by rewrite list_lookup_fmap].
by destruct (nodes h !! i).
Qed.

Lemma sigs_set_state s id h n :
nodes h !! id = Some n →
sigs (with_nodes (alter (set_state s) id (nodes h)) h)
= <[id := (kind n, s, loop n)]> (sigs h).
Proof.
intros Hn. unfold sigs. simpl. apply list_eq. intros i.
rewrite list_lookup_fmap, list_lookup_alter.
destruct (decide (id = i)) as [->|Hne].
- rewrite list_lookup_insert_eq, Hn; [done|].
  rewrite length_fmap. by eapply lookup_lt_Some.
- by rewrite list_lookup_insert_ne, list_lookup_fmap.
Qed.

Lemma triple_start_source id k b l0 :
l0 !! id = Some (k, Unscheduled, b) →
triple (eq l0) (start_source id) (λ _ l, l = <[id := (k, Playing, b)]> l0).
Proof.
intros Hid h ->. unfold sigs in Hid. rewrite list_lookup_fmap in Hid.
destruct (nodes h !! id) as [n|] eqn:Hn; [|done].
injection Hid as <- Hs <-.
eexists tt, _. unfold start_source. rewrite Hn, Hs. split; [done|].
by apply sigs_set_state.
Qed.

Lemma triple_stop_source id k s b l0 :
l0 !! id = Some (k, s, b) → s ≠ Unscheduled →
triple (eq l0) (stop_source id) (λ _ l, l = <[id := (k, Ended, b)]> l0).
Proof.
intros Hid Hs h ->. unfold sigs in Hid. rewrite list_lookup_fmap in Hid.
destruct (nodes h !! id) as [n|] eqn:Hn; [|done].
injection Hid as <- <- <-.
eexists tt, _. unfold stop_source. rewrite Hn. split.
- by destruct (state n).
- by apply sigs_set_state.
Qed.
End Sources.

(** ** Starting twice *)

Section StartTwice.
Context `{MathHost}.

Lemma triple_exact {A} (m : M host A) P Q :
(∀ l, P l → triple (eq l) m Q) → triple P m Q.
Proof. intros Hall h HP. by apply (Hall (sigs h) HP h). Qed.

Lemma only_draws_fill_pink_v2 n : ∀ from b0 b1 b2 b3 b4 b5 b6 data,
only_draws (RainV2.fill_pink from n b0 b1 b2 b3 b4 b5 b6 data).
Proof.
induction n as [|n IH]; intros from b0 b1 b2 b3 b4 b5 b6 data; simpl.
- apply only_draws_ret.
- apply only_draws_bind; [apply only_draws_random|]. intros r. apply IH.
Qed.

Lemma only_draws_createNoiseBuffer type : only_draws (RainV2.createNoiseBuffer type).
Proof.
unfold RainV2.createNoiseBuffer.
apply only_draws_bind; [apply only_draws_rate|]. intros sr.
destruct type.
- apply only_draws_fill_pink_v2.
- apply only_draws_fill. intros ?.
  apply only_draws_bind; [apply only_draws_random|]. intros r.
  apply only_draws_ret.
Qed.

(** [start] of V2 adds a looping source that plays and keeps its id,
  whatever the generator was doing. *)
Lemma start_v2_adds_a_source (this : RainV2.RainGenerator) l0 :
triple (eq l0) (RainV2.start this)
  (λ this' l, RainV2.noiseSource this' = Some (length l0)
              ∧ l = l0 ++ [(BufferSource, Playing, true)]).
Proof.
unfold RainV2.start.
eapply triple_bind; [apply triple_createNode|]. intros id.
apply triple_exact. intros l1 [Hid Hl1]. subst id l1.
apply triple_keeps_bind;
  [apply keeps_only_draws, only_draws_createNoiseBuffer|intros data].
apply triple_keeps_bind; [apply keeps_set_buffer|intros ?].
eapply triple_bind; [apply triple_set_loop|]. intros ?.
apply triple_exact. intros l2 Hl2. subst l2.
rewrite <- (Nat.add_0_r (length l0)) at 1. rewrite alter_app_r. simpl.
apply triple_keeps_bind; [apply keeps_set_frequency|intros ?].
apply triple_keeps_bind; [apply keeps_set_gain|intros ?].
apply triple_keeps_bind; [apply keeps_connect|intros ?].
apply triple_keeps_bind; [apply keeps_connect|intros ?].
apply triple_keeps_bind; [apply keeps_set_gain|intros ?].
eapply triple_bind.
{ apply (triple_start_source _ BufferSource true). by apply list_lookup_middle. }
intros ?. apply triple_ret. intros l ->. split; [done|].
rewrite <- (Nat.add_0_r (length l0)) at 1. by rewrite insert_app_r.
Qed.

(** [stop] of V2 stops the source whose id the generator holds. *)
Lemma stop_v2_stops_its_source (this : RainV2.RainGenerator) id l0 :
RainV2.noiseSource this = Some id →
l0 !! id = Some (BufferSource, Playing, true) →
triple (eq l0) (RainV2.stop this)
  (λ this' l, RainV2.noiseSource this' = None
              ∧ l = <[id := (BufferSource, Ended, true)]> l0).
Proof.
intros Hid Hl. unfold RainV2.stop. rewrite Hid.
eapply (triple_bind _ _ _
          (λ this' l, RainV2.noiseSource this' = None
                      ∧ l = <[id := (BufferSource, Ended, true)]> l0)).
{ eapply triple_bind; [by eapply triple_stop_source|]. intros ?.
  apply triple_keeps_bind; [apply keeps_disconnect|intros ?].
  apply triple_ret. by intros l ->. }
intros this'. apply triple_ret. by intros l [? ->].
Qed.

(** [start] of V1 has the guard: on a running generator it returns at
  once, and neither the generator nor the context changes. *)
Lemma start_while_running (this : RainV1.RainGenerator) (h : host) :
RainV1.running this = true →
RainV1.start this h = Done (this, h).
Proof. intros Hr. unfold RainV1.start. by rewrite Hr. Qed.

(** C8: [start] of V2 has no guard.  Whatever the state of the generator,
  starting it twice leaves two looping noise sources playing; [stop]
  then stops the second only, and the first keeps playing. *)
Theorem start_twice_leaves_a_noise_source_playing
  (this : RainV2.RainGenerator) (h : host) :
∃ this1 h1 this2 h2 this3 h3 first,
  RainV2.start this h = Done (this1, h1)
  ∧ RainV2.noiseSource this1 = Some first
  ∧ live_loops h1 = (live_loops h + 1)%nat
  ∧ RainV2.start this1 h1 = Done (this2, h2)
  ∧ live_loops h2 = (live_loops h + 2)%nat
  ∧ RainV2.stop this2 h2 = Done (this3, h3)
  ∧ RainV2.noiseSource this3 = None
  ∧ live_loops h3 = (live_loops h + 1)%nat
  ∧ is_live_loop <$> nodes h3 !! first = Some true.
Proof.
destruct (start_v2_adds_a_source this (sigs h) h eq_refl)
  as (this1 & h1 & E1 & Hsrc1 & Hs1).
destruct (start_v2_adds_a_source this1 (sigs h1) h1 eq_refl)
  as (this2 & h2 & E2 & Hsrc2 & Hs2).
destruct (stop_v2_stops_its_source this2 (length (sigs h1)) (sigs h2) Hsrc2)
  with (h := h2) as (this3 & h3 & E3 & Hsrc3 & Hs3); [|done|].
{ rewrite Hs2. by apply list_lookup_middle. }
exists this1, h1, this2, h2, this3, h3, (length (sigs h)).
rewrite Hs2, <- (Nat.add_0_r (length (sigs h1))), insert_app_r in Hs3.
simpl in Hs3.
repeat split; try done.
- rewrite !live_loops_sigs, Hs1, live_sigs_app. done.
- rewrite !live_loops_sigs, Hs2, Hs1, !live_sigs_app. simpl. lia.
- rewrite !live_loops_sigs, Hs3, Hs1, !live_sigs_app. simpl. lia.
- assert (sigs h3 !! length (sigs h) = Some (BufferSource, Playing, true)) as Hl.
  { rewrite Hs3, Hs1. rewrite lookup_app_l by (rewrite length_app; simpl; lia).
    by apply list_lookup_middle. }
  change (sigs h3) with (sig <$> nodes h3) in Hl.
  rewrite list_lookup_fmap in Hl.
  apply fmap_Some in Hl as (n & -> & Hn). simpl. f_equal.
  unfold sig in Hn. injection Hn as Hk Hst Hlp.
  unfold is_live_loop. by rewrite <- Hk, <- Hst, <- Hlp.
Qed.
End StartTwice.

(** ** Stopping *)

Section Stopping.

Lemma gain_is_zero_alter_same l id : gain_is_zero (alter zero_gain id l) id.
Proof.
intros n. rewrite list_lookup_alter_eq.
destruct (l !! id); simpl; [|done]. by intros [= <-].
Qed.

Lemma gain_is_zero_alter_keep l i id :
gain_is_zero l id → gain_is_zero (alter zero_gain i l) id.
Proof.
intros Hz. destruct (decide (i = id)) as [->|Hne].
- apply gain_is_zero_alter_same.
- intros n. rewrite list_lookup_alter_ne by done. apply Hz.
Qed.

Lemma alter_zero_gain_same l id :
gain_is_zero l id → alter zero_gain id l = l.
Proof.
intros Hz. apply list_eq. intros i. rewrite list_lookup_alter.
case_decide; [subst|done].
destruct (l !! i) as [n|] eqn:Hn; [|done]. simpl. f_equal.
specialize (Hz n Hn). destruct n. simpl in Hz. by subst.
Qed.

Lemma with_nodes_same h : with_nodes (nodes h) h = h.
Proof. by destruct h. Qed.

(** Setting to zero a gain that is zero changes nothing. *)
Lemma set_gain_zero_same id h :
gain_is_zero (nodes h) id → set_gain id 0 h = Done (tt, h).
Proof.
intros Hz. unfold set_gain, update_node, modify.
change (λ n : node, mk_node (kind n) (frequency n) 0 (state n) (loop n)
                            (buffer n) (outputs n)) with zero_gain.
by rewrite alter_zero_gain_same, with_nodes_same.
Qed.

Lemma silent_silenced this h : silent this (silenced this h).
Proof.
unfold silent, silenced, gain_nodes. simpl.
repeat (apply Forall_cons; split);
  [repeat (first [apply gain_is_zero_alter_same|apply gain_is_zero_alter_keep])..
  |constructor].
Qed.

Lemma stopped_quiet this : quiet (stopped this).
Proof. by repeat split. Qed.

Lemma quiet_stopped this : quiet this → stopped this = this.
Proof. destruct this. intros (? & ? & ? & ?). simpl in *. by subst. Qed.

(** Stopped while it is quiet, the generator stays as it is and the six
  gains are set to zero. *)
Lemma stop_quiet this h :
quiet this → RainV1.stop this h = Done (this, silenced this h).
Proof.
intros Hq. rewrite <- (quiet_stopped this Hq) at 3.
destruct Hq as (Hr & Hn & Hd & Hl). unfold RainV1.stop.
destruct this. simpl in *. subst. unfold bind at 1. simpl.
unfold bind at 1. simpl. rewrite map_to_list_empty. reflexivity.
Qed.

(** Stopped while it is quiet and silent, the generator and the context
  stay as they are. *)
Lemma stop_quiet_silent this h :
quiet this → silent this h → RainV1.stop this h = Done (this, h).
Proof.
intros Hq Hs. rewrite stop_quiet by done. do 2 f_equal.
unfold silenced, silent, gain_nodes in *. simpl.
repeat match goal with
       | H : Forall _ (_ :: _) |- _ => apply Forall_cons in H as [? H]
       end.
repeat rewrite (alter_zero_gain_same (nodes h)) by done.
apply with_nodes_same.
Qed.
End Stopping.

Section StoppingSources.


Lemma triple_stop_started (S : nat → Prop) id :
S id → triple (all_started S) (stop_source id) (λ _, all_started S).
Proof.
intros HS h HP. destruct (HP id HS) as (k & s & b & Hl & Hs).
destruct (triple_stop_source id k s b (sigs h) Hl Hs h eq_refl)
  as (a & h' & E & Hl').
exists a, h'. split; [done|]. rewrite Hl'. intros id' HS'.
destruct (decide (id = id')) as [<-|Hne].
- exists k, Ended, b. split; [|done].
  apply list_lookup_insert_eq. by eapply lookup_lt_Some.
- rewrite list_lookup_insert_ne by done. by apply HP.
Qed.

Lemma triple_stop_lfos (S : nat → Prop) lfos :
(∀ key o g, (key, (o, g)) ∈ lfos → S o) →
triple (all_started S) (RainV1.stop_lfos lfos) (λ _, all_started S).
Proof.
induction lfos as [|[key [o g]] lfos IH]; intros HS; simpl.
- by apply triple_ret.
- eapply triple_bind; [apply triple_stop_started; eapply HS; left|].
  intros ?. apply triple_keeps_bind; [apply keeps_disconnect|intros ?].
  apply triple_keeps_bind; [apply keeps_disconnect|intros ?].
  apply IH. intros key' o' g' Hin. eapply HS. by right.
Qed.

(** The generator stops without an exception when the sources it holds
  were started; it is then [stopped], and the context is [silenced]. *)
Lemma stop_started this h :
sources_started this h →
∃ hm, RainV1.stop this h = Done (stopped this, silenced (stopped this) hm).
Proof.
intros Hwf.
assert (triple (all_started (holds_source this))
          (match RainV1.noiseNode (RainV1.with_running false this) with
           | Some id =>
               stop_source id ;; disconnect id ;;
               ret (RainV1.with_noiseNode None (RainV1.with_running false this))
           | None => ret (RainV1.with_running false this)
           end)
          (λ t l, all_started (holds_source this) l
                  ∧ t = RainV1.with_noiseNode None (RainV1.with_running false this)))
  as HA.
{ destruct this as [? ? ? ? ? ? ? ? [id|] ? ? ? ? ?]; simpl.
  - eapply triple_bind; [apply triple_stop_started; by left|]. intros ?.
    apply triple_keeps_bind; [apply keeps_disconnect|intros ?].
    by apply triple_ret.
  - by apply triple_ret. }
destruct (HA h Hwf) as (t1 & h1 & E1 & Hwf1 & ->).
assert (keeps
          (match RainV1.dropInterval
                   (RainV1.with_noiseNode None (RainV1.with_running false this)) with
           | Some id =>
               clearInterval id ;;
               ret (RainV1.with_dropInterval None
                      (RainV1.with_noiseNode None (RainV1.with_running false this)))
           | None => ret (RainV1.with_noiseNode None (RainV1.with_running false this))
           end)) as HB.
{ destruct this as [? ? ? ? ? ? ? ? ? [id|] ? ? ? ?]; simpl.
  - apply keeps_bind; [apply keeps_clearInterval|intros ?]. apply keeps_ret.
  - apply keeps_ret. }
destruct (HB h1) as (t2 & h2 & E2 & Hs2).
assert (t2 = RainV1.with_dropInterval None
               (RainV1.with_noiseNode None (RainV1.with_running false this)))
  as ->.
{ revert E2. destruct this as [? ? ? ? ? ? ? ? ? [id|] ? ? ? ?]; simpl.
  - unfold bind, clearInterval, modify, ret. by intros [= <- _].
  - unfold ret. by intros [= <- _]. }
destruct (triple_stop_lfos (holds_source this)
            (map_to_list (RainV1.lfoMap this))) with (h := h2)
  as ([] & h3 & E3 & _).
{ intros key o g Hin. right. exists key, g. by apply elem_of_map_to_list. }
{ by rewrite Hs2. }
exists h3. unfold RainV1.stop.
unfold bind at 1. rewrite E1. unfold bind at 1. rewrite E2.
unfold bind at 1. simpl. rewrite E3. reflexivity.
Qed.
(** The controller: stopped twice, it is as after the first [stop]. *)
Lemma controller_stop_twice (c : ControllerV1.NoiseDController) (h : host) :
sources_started (ControllerV1.rain c) h →
∃ c1 h1,
  ControllerV1.stop c h = Done (c1, h1)
  ∧ ControllerV1.stop c1 h1 = Done (c1, h1).
Proof.
intros Hwf. destruct (stop_started _ _ Hwf) as (hm & E).
unfold ControllerV1.stop at 1. unfold bind at 1. simpl. rewrite E.
destruct (ControllerV1.thunderTimeout c) as [id|]; simpl;
  eexists _, _; (split; [reflexivity|]);
  unfold ControllerV1.stop; unfold bind at 1; simpl;
  (rewrite stop_quiet_silent;
     [reflexivity|apply stopped_quiet|apply silent_silenced]).
Qed.

(** C9, as amended: when the sources that the generator holds were
  started, as they are whenever it holds any, [stop] returns, and a
  second [stop] leaves the generator and the context as the first left
  them, for the rain generator and for the controller; before [start],
  [stop] returns too and leaves the generator as it is, but sets its six
  gains to zero. *)
Theorem stop_twice_is_stop_once (c : ControllerV1.NoiseDController)
  (fresh : RainV1.RainGenerator) (h : host) :
sources_started (ControllerV1.rain c) h →
quiet fresh →
(∃ this1 h1,
   RainV1.stop (ControllerV1.rain c) h = Done (this1, h1)
   ∧ RainV1.stop this1 h1 = Done (this1, h1))
∧ (∃ c1 h1,
     ControllerV1.stop c h = Done (c1, h1)
     ∧ ControllerV1.stop c1 h1 = Done (c1, h1))
∧ RainV1.stop fresh h = Done (fresh, silenced fresh h)
∧ silent fresh (silenced fresh h).
Proof.
intros Hwf Hq. split; [|split; [|split]].
- destruct (stop_started _ _ Hwf) as (hm & E).
  eexists _, _. split; [exact E|].
  apply stop_quiet_silent; [apply stopped_quiet|apply silent_silenced].
- by apply controller_stop_twice.
- by apply stop_quiet.
- apply silent_silenced.
Qed.
End StoppingSources.

(** C9, as stated, fails for [stop] before [start]: on a newly constructed
    rain generator the gain of the output node is 1, and [stop] sets it
    to 0. *)
Lemma stop_before_start_changes_the_gains :
  ∃ this h1 h2,
    @RainV1.new Sample.math RainV1._defaultRainParams Sample.idle = Done (this, h1)
    ∧ quiet this
    ∧ RainV1.stop this h1 = Done (this, h2)
    ∧ gain <$> nodes h1 !! RainV1.output this = Some 1
    ∧ gain <$> nodes h2 !! RainV1.output this = Some 0
    ∧ h2 ≠ h1.
Proof.
  do 3 eexists. split; [vm_compute; reflexivity|].
  split; [by repeat split|].
  split; [apply stop_quiet; by repeat split|].
  split; [reflexivity|]. split; [reflexivity|].
  intros Heq. apply (f_equal (λ h, gain <$> nodes h !! 0%nat)) in Heq.
  vm_compute in Heq. discriminate.
Qed.

Lemma SampleRain_sources_started :
  sources_started SampleRain.running SampleRain.playing.
Proof.
  intros id [[= <-]|(key & g & Hl)].
  - exists BufferSource, Playing, true. by split.
  - simpl in Hl. apply lookup_singleton_Some in Hl as [_ [= <- _]].
    exists Oscillator, Playing, false. by split.
Qed.

Lemma stop_twice_is_stop_once_witness :
  sources_started (ControllerV1.rain SampleRain.controller) SampleRain.playing
  ∧ quiet SampleRain.fresh
  ∧ (∃ this1 h1,
       RainV1.stop (ControllerV1.rain SampleRain.controller) SampleRain.playing
       = Done (this1, h1)
       ∧ RainV1.stop this1 h1 = Done (this1, h1))
  ∧ (∃ c1 h1,
       ControllerV1.stop SampleRain.controller SampleRain.playing = Done (c1, h1)
       ∧ ControllerV1.stop c1 h1 = Done (c1, h1)).
Proof.
  split; [exact SampleRain_sources_started|].
  split; [by repeat split|].
  destruct (stop_twice_is_stop_once SampleRain.controller SampleRain.fresh
              SampleRain.playing SampleRain_sources_started)
    as (Hrain & Hcontroller & _); [by repeat split|].
  by split.
Defined.

(** ** The WAV file *)

Section WavFile.
Import Wav.

Lemma length_int16_bytes (l : list Z) :
List.length (l ≫= int16_bytes) = (2 * List.length l)%nat.
Proof.
induction l as [|v l IH]; [done|].
rewrite bind_cons, length_app, IH. simpl. lia.
Qed.

Lemma length_copy_channels buffer interleaved :
List.length (copy_channels buffer interleaved) = List.length interleaved.
Proof.
unfold copy_channels.
generalize (imap (λ ch data, (ch, data)) (channels buffer)).
intros l. revert interleaved.
induction l as [|[ch data] l IH]; intros interleaved; simpl; [done|].
by rewrite IH, length_inserts.
Qed.


Lemma length_payload buffer :
List.length (payload buffer)
= (length buffer * numberOfChannels buffer * 2)%nat.
Proof.
unfold payload.
rewrite length_int16_bytes, length_fmap, length_copy_channels, length_replicate.
lia.
Qed.

Lemma truncate_of_nat (n : nat) : truncate (of_nat n) = Z.of_nat n.
Proof. unfold truncate, of_nat. simpl. apply Z.quot_1_r. Qed.

Lemma to_uint32_of_nat (n : nat) :
(Z.of_nat n < 2 ^ 32)%Z → to_uint32 (of_nat n) = Z.of_nat n.
Proof.
intros Hn. unfold to_uint32. rewrite truncate_of_nat.
apply Z.mod_small. lia.
Qed.

Lemma uint32_bytes (n : Z) :
(0 <= n < 2 ^ 32)%Z →
(Z.land n 255 + 2 ^ 8 * Z.land (Z.shiftr n 8) 255
 + 2 ^ 16 * Z.land (Z.shiftr n 16) 255
 + 2 ^ 24 * Z.land (Z.shiftr n 24) 255)%Z = n.
Proof.
intros Hn. change 255%Z with (Z.ones 8).
rewrite !Z.land_ones, !Z.shiftr_div_pow2 by lia.
Z.to_euclidean_division_equations. lia.
Qed.

(** The file is the written header with the payload put after its 44
  bytes; the two size fields of the header hold the length of the file
  less 8 and the length of the payload. *)
Lemma blob_structure buffer :
let total := (length buffer * numberOfChannels buffer * 2 + 44)%nat in
(Z.of_nat total < 2 ^ 32)%Z →
∃ v, _bufferToWavBlob buffer = list_inserts 44 (payload buffer) v
     ∧ List.length v = total
     ∧ uint32_at v 4 = Z.of_nat (total - 8)
     ∧ uint32_at v 40 = Z.of_nat (length buffer * numberOfChannels buffer * 2).
Proof.
intros total Htotal. unfold _bufferToWavBlob.
cbn -[Z.land Z.shiftr to_uint32 to_uint16 Nat.mul replicate list_inserts
      copy_channels].
fold (payload buffer). fold total.
eexists. split; [reflexivity|]. split; [|split].
- rewrite !length_insert. apply length_replicate.
- unfold uint32_at. simpl Nat.add.
  repeat rewrite list_lookup_insert_ne by lia.
  repeat (rewrite list_lookup_insert_eq
            by (rewrite ?length_insert, length_replicate; lia);
          repeat rewrite list_lookup_insert_ne by lia).
  simpl default. rewrite to_uint32_of_nat by lia.
  apply uint32_bytes. lia.
- unfold uint32_at. simpl Nat.add.
  repeat rewrite list_lookup_insert_ne by lia.
  repeat (rewrite list_lookup_insert_eq
            by (rewrite ?length_insert, length_replicate; lia);
          repeat rewrite list_lookup_insert_ne by lia).
  simpl default. rewrite to_uint32_of_nat by lia.
  replace (total - 40 - 4)%nat
    with (length buffer * numberOfChannels buffer * 2)%nat by lia.
  apply uint32_bytes. lia.
Qed.

Lemma uint32_at_header (p v : list Z) (at_ : nat) :
(at_ + 3 < 44)%nat →
uint32_at (list_inserts 44 p v) at_ = uint32_at v at_.
Proof.
intros Hat. unfold uint32_at.
by rewrite !list_lookup_inserts_lt by lia.
Qed.

Lemma data_chunk_inserts (p v : list Z) :
List.length v = (List.length p + 44)%nat →
data_chunk (list_inserts 44 p v) = p.
Proof.
intros Hv. unfold data_chunk.
rewrite <- (take_drop 44 v) at 1.
assert (List.length (take 44 v) = 44%nat) as Ht by (rewrite length_take; lia).
replace 44%nat with (List.length (take 44 v) + 0)%nat at 2 by lia.
rewrite list_inserts_app_r, <- (app_nil_r (drop 44 v)).
rewrite list_inserts_0_r by (rewrite length_drop; lia).
rewrite app_nil_r. rewrite <- Ht at 1. by rewrite drop_app_length.
Qed.

(** The sizes in the header, and where the payload is: these hold for
  every buffer whose file is shorter than 4 GiB. *)
Lemma wav_sizes buffer :
let total := (length buffer * numberOfChannels buffer * 2 + 44)%nat in
(Z.of_nat total < 2 ^ 32)%Z →
List.length (_bufferToWavBlob buffer) = total
∧ uint32_at (_bufferToWavBlob buffer) 4 = Z.of_nat (total - 8)
∧ uint32_at (_bufferToWavBlob buffer) 40
  = Z.of_nat (length buffer * numberOfChannels buffer * 2)
∧ data_chunk (_bufferToWavBlob buffer) = payload buffer
∧ List.length (data_chunk (_bufferToWavBlob buffer))
  = (length buffer * numberOfChannels buffer * 2)%nat.
Proof.
intros total Htotal.
pose proof (blob_structure buffer) as Hs. cbv zeta in Hs.
destruct (Hs Htotal) as (v & -> & Hv & H4 & H40).
assert (data_chunk (list_inserts 44 (payload buffer) v) = payload buffer) as Hd.
{ apply data_chunk_inserts. rewrite length_payload, Hv. done. }
rewrite length_inserts, !uint32_at_header, Hd, length_payload by lia.
done.
Qed.

Lemma bind_singleton {A B} (g : A → B) (l : list A) :
l ≫= (λ i, [g i]) = g <$> l.
Proof. induction l as [|x l IH]; [done|]. by rewrite bind_cons, IH. Qed.

(** With one channel the payload is the samples in order. *)
Lemma wav_mono sampleRate data :
payload (Wav.mk sampleRate (List.length data) [data])
= interleaved_payload (Wav.mk sampleRate (List.length data) [data]).
Proof.
unfold payload, interleaved_payload, copy_channels, interleave,
  numberOfChannels. simpl.
rewrite Nat.mul_1_r, firstn_all.
rewrite <- (app_nil_r (replicate _ _)).
rewrite list_inserts_0_r by (by rewrite length_replicate).
rewrite app_nil_r. do 2 f_equal.
rewrite (bind_singleton (λ i, default 0 (data !! i))).
apply list_eq. intros i. rewrite list_lookup_fmap.
destruct (decide (i < List.length data)%nat) as [Hi|Hi].
- rewrite lookup_seq_lt by done. simpl.
  destruct (data !! i) eqn:Hd; [done|].
  apply lookup_ge_None in Hd. lia.
- rewrite lookup_seq_ge by lia. simpl.
  apply lookup_ge_None_2. lia.
Qed.

Lemma copy_zeros (n : nat) (chans : list (nat * list Q)) (k : nat) :
Forall (λ c, Forall (λ x, x = 0) c.2) chans →
foldl (λ interleaved '(ch, data),
         list_inserts ch (take n data) interleaved)
      (replicate k 0) chans
= replicate k 0.
Proof.
induction chans as [|[ch data] chans IH]; intros Hall; simpl; [done|].
apply Forall_cons in Hall as [Hdata Hall]. simpl in Hdata.
assert (list_inserts ch (take n data) (replicate k 0) = replicate k 0) as ->;
  [|by apply IH].
apply list_eq. intros i.
destruct (decide (i < ch)%nat); [by rewrite list_lookup_inserts_lt|].
destruct (decide (ch + List.length (take n data) ≤ i)%nat);
  [by rewrite list_lookup_inserts_ge|].
destruct (decide (i < k)%nat);
  [|rewrite !lookup_ge_None_2; [done|rewrite length_replicate; lia
                               |rewrite length_inserts, length_replicate; lia]].
rewrite list_lookup_inserts by (rewrite ?length_replicate; lia).
rewrite lookup_replicate_2 by done.
destruct (take n data !! (i - ch)%nat) as [x|] eqn:Hx;
  [|apply lookup_ge_None in Hx; lia].
f_equal. apply lookup_take_Some in Hx as [Hx _].
by eapply Forall_lookup_1 in Hdata.
Qed.

(** A buffer of zeros makes a payload of zeros. *)
Lemma wav_zeros buffer :
Forall (Forall (λ x, x = 0)) (channels buffer) →
payload buffer
= replicate (length buffer * numberOfChannels buffer * 2) 0%Z.
Proof.
intros Hz. unfold payload, copy_channels. rewrite copy_zeros.
- generalize (length buffer * numberOfChannels buffer)%nat. intros n.
  induction n as [|n IH]; [done|].
  change (replicate (S n) 0) with (0 :: replicate n 0).
  rewrite fmap_cons, bind_cons, IH. reflexivity.
- apply Forall_forall. intros [ch data] Hin.
  apply elem_of_lookup_imap in Hin as (i & d & [= -> ->] & Hd).
  simpl. by eapply Forall_lookup_1 in Hz.
Qed.

(** 1.0 is stored as 0x7FFF and -1.0 as 0x8000, the low byte first. *)
Lemma wav_full_scale :
sample16 1 = 32767%Z ∧ int16_bytes (sample16 1) = [255; 127]%Z
∧ sample16 (-1) = (-32768)%Z ∧ int16_bytes (sample16 (-1)) = [0; 128]%Z.
Proof. by repeat split. Qed.

(** C3: with two channels the payload is not interleaved.  Each channel
  is copied whole, channel [ch] to the positions from [ch] on: for the
  frames (1, -1) and (0.5, -0.5) the payload is 1, -1, -0.5, 0 instead
  of 1, -1, 0.5, -0.5. *)
Theorem wav_stereo_is_not_interleaved :
data_chunk (_bufferToWavBlob SampleWav.stereo)
= (sample16 <$> [1; -1; -0.5; 0]) ≫= int16_bytes
∧ interleaved_payload SampleWav.stereo
  = (sample16 <$> [1; -1; 0.5; -0.5]) ≫= int16_bytes
∧ data_chunk (_bufferToWavBlob SampleWav.stereo)
  ≠ interleaved_payload SampleWav.stereo.
Proof. split; [|split]; [reflexivity..|discriminate]. Qed.
End WavFile.

(** ** Randomized parameters *)

Section RandomizedParameters.
Context `{MathHost}.
Hypothesis random_range : ∀ n, 0 <= random_seq n < 1.

(** X1: [rand] of V2 with a distance that is not negative.  With the
  flag on it makes one draw and returns a number between
  [value - dist] and [value + dist], below the upper end when the
  distance is positive; with the flag off it draws nothing and returns
  the base value. *)
Theorem rand_stays_within_dist (p : RandParam.t) (h : host) :
0 <= RandParam.dist p →
∃ x, ThunderV2.rand p h
     = Done (x, if RandParam.rand p
                then with_random_calls (S (random_calls h)) h else h)
   ∧ RandParam.value p - RandParam.dist p <= x
   ∧ x <= RandParam.value p + RandParam.dist p
   ∧ (RandParam.rand p = false → x = RandParam.value p)
   ∧ (RandParam.rand p = true → 0 < RandParam.dist p →
      x < RandParam.value p + RandParam.dist p).
Proof.
destruct p as [value [] dist]; simpl; intros Hdist.
- eexists. split; [reflexivity|].
  pose proof (random_range (random_calls h)) as [Hlo Hhi].
  set (r := random_seq (random_calls h)) in *.
  repeat split; try done; try nra.
- exists value. repeat split; try done; lra.
Qed.

(** X2: the inline evaluation of V1 for a base value other than 0 and
  a distance that is not negative.  With the flag on it makes one draw
  and returns a number between [value] and [value + dist]: the
  randomization only ever adds to the base value.  With the flag off it
  draws nothing and returns the base value. *)
Theorem evaluateRand_never_below_value (p : RandParam.t) (fallback : Q) (h : host) :
¬ RandParam.value p == 0 →
0 <= RandParam.dist p →
∃ x, ThunderV1.evaluateRand p fallback h
     = Done (x, if RandParam.rand p
                then with_random_calls (S (random_calls h)) h else h)
   ∧ RandParam.value p <= x
   ∧ x <= RandParam.value p + RandParam.dist p
   ∧ (RandParam.rand p = false → x = RandParam.value p)
   ∧ (RandParam.rand p = true → 0 < RandParam.dist p →
      x < RandParam.value p + RandParam.dist p).
Proof.
destruct p as [value rand dist]; simpl; intros Hv Hdist.
unfold ThunderV1.evaluateRand, truthy. simpl.
destruct (Qeq_bool value 0) eqn:E; [by apply Qeq_bool_eq in E|]. simpl.
destruct rand.
- eexists. split; [reflexivity|].
  pose proof (random_range (random_calls h)) as [Hlo Hhi].
  set (r := random_seq (random_calls h)) in *.
  repeat split; try done; try nra.
- exists value. repeat split; try done; lra.
Qed.
End RandomizedParameters.

Lemma rand_stays_within_dist_witness :
  (∀ n, 0 <= @random_seq Sample.math n < 1)
  ∧ 0 <= RandParam.dist (RandParam.mk 750 true 500)
  ∧ ∃ x, @ThunderV2.rand Sample.math (RandParam.mk 750 true 500) Sample.idle
         = Done (x, with_random_calls 1 Sample.idle)
       ∧ 250 <= x ∧ x < 1250.
Proof.
  split; [exact Sample_draws_range|]. split; [done|].
  destruct (@rand_stays_within_dist Sample.math Sample_draws_range
              (RandParam.mk 750 true 500) Sample.idle)
    as (x & Hx & Hlo & _ & _ & Hhi); [done|].
  exists x. split; [exact Hx|]. split; [exact Hlo|]. by apply Hhi.
Defined.

Lemma evaluateRand_never_below_value_witness :
  (∀ n, 0 <= @random_seq Sample.math n < 1)
  ∧ ¬ RandParam.value (RandParam.mk 750 true 500) == 0
  ∧ 0 <= RandParam.dist (RandParam.mk 750 true 500)
  ∧ ∃ x, @ThunderV1.evaluateRand Sample.math (RandParam.mk 750 true 500) 1500
           Sample.idle
         = Done (x, with_random_calls 1 Sample.idle)
       ∧ 750 <= x ∧ x < 1250.
Proof.
  split; [exact Sample_draws_range|]. split; [done|]. split; [done|].
  destruct (@evaluateRand_never_below_value Sample.math Sample_draws_range
              (RandParam.mk 750 true 500) 1500 Sample.idle)
    as (x & Hx & Hlo & _ & _ & Hhi); [done|done|].
  exists x. split; [exact Hx|]. split; [exact Hlo|]. by apply Hhi.
Defined.

(** ** The WAV file: samples and header *)

Section Samples.
Import Wav.

Lemma truncate_floor (x : Q) : 0 <= x → truncate x = Qfloor x.
Proof.
intros Hx. unfold truncate. destruct x as [n d]. simpl.
apply Z.quot_div_nonneg; [|lia].
unfold Qle in Hx. simpl in Hx. lia.
Qed.

Lemma truncate_ceiling (x : Q) : x <= 0 → truncate x = Qceiling x.
Proof.
intros Hx. unfold truncate, Qceiling. destruct x as [n d]. simpl.
assert (n <= 0)%Z as Hn by (unfold Qle in Hx; simpl in Hx; lia).
rewrite <- (Z.opp_involutive n) at 1.
rewrite Z.quot_opp_l by lia.
rewrite Z.quot_div_nonneg by lia. done.
Qed.

Lemma truncate_le (x y : Q) : x <= y → (truncate x <= truncate y)%Z.
Proof.
intros Hxy.
destruct (Qlt_le_dec x 0) as [Hx|Hx], (Qlt_le_dec y 0) as [Hy|Hy].
- rewrite !truncate_ceiling by lra. by apply Qceiling_resp_le.
- rewrite truncate_ceiling, truncate_floor by lra.
  transitivity 0%Z.
  + change 0%Z with (Qceiling 0). apply Qceiling_resp_le. lra.
  + change 0%Z with (Qfloor 0). by apply Qfloor_resp_le.
- lra.
- rewrite !truncate_floor by lra. by apply Qfloor_resp_le.
Qed.

Lemma truncate_inject (z : Z) : truncate (inject_Z z) = z.
Proof. unfold truncate. simpl. apply Z.quot_1_r. Qed.

Lemma to_int16_small (y : Q) :
-32768 <= y → y <= 32767 → to_int16 y = truncate y.
Proof.
intros Hlo Hhi. unfold to_int16.
pose proof (truncate_le _ _ Hlo) as H1.
pose proof (truncate_le _ _ Hhi) as H2.
change (-32768) with (inject_Z (-32768)) in H1.
change 32767 with (inject_Z 32767) in H2.
rewrite truncate_inject in H1, H2.
rewrite Z.mod_small by lia. lia.
Qed.

(** The number that [sample16] converts: the clamped sample, scaled. *)
Lemma scaled_range (x : Q) :
let s := Math_max (-1) (Math_min 1 x) in
let y := if Qlt_le_dec s 0 then s * 32768 else s * 32767 in
-32768 <= y ∧ y <= 32767.
Proof.
unfold Math_max, Math_min.
repeat (destruct (Qlt_le_dec _ _); simpl); lra.
Qed.

Lemma scaled_le (x x' : Q) :
x <= x' →
let s := Math_max (-1) (Math_min 1 x) in
let s' := Math_max (-1) (Math_min 1 x') in
(if Qlt_le_dec s 0 then s * 32768 else s * 32767)
<= (if Qlt_le_dec s' 0 then s' * 32768 else s' * 32767).
Proof.
unfold Math_max, Math_min. intros Hx.
repeat (destruct (Qlt_le_dec _ _); simpl); lra.
Qed.

Lemma sample16_scaled (x : Q) :
sample16 x
= truncate (let s := Math_max (-1) (Math_min 1 x) in
            if Qlt_le_dec s 0 then s * 32768 else s * 32767).
Proof. unfold sample16. apply to_int16_small; apply scaled_range. Qed.

Lemma sample16_le (x x' : Q) : x <= x' → (sample16 x <= sample16 x')%Z.
Proof.
intros Hx. rewrite !sample16_scaled. apply truncate_le. by apply scaled_le.
Qed.

Lemma sample16_above (x : Q) : 1 <= x → sample16 x = 32767%Z.
Proof.
intros Hx. rewrite sample16_scaled. unfold Math_min.
destruct (Qlt_le_dec x 1); [lra|]. reflexivity.
Qed.

Lemma sample16_below (x : Q) : x <= -1 → sample16 x = (-32768)%Z.
Proof.
intros Hx. rewrite sample16_scaled. unfold Math_min, Math_max.
destruct (Qlt_le_dec x 1); [|lra].
destruct (Qlt_le_dec (-1) x); [lra|]. reflexivity.
Qed.

Lemma sample16_range (x : Q) : (-32768 <= sample16 x <= 32767)%Z.
Proof.
destruct (Qlt_le_dec x 1) as [Hx|Hx].
- split.
  + destruct (Qlt_le_dec x (-1)) as [Hx'|Hx'].
    * rewrite sample16_below by lra. done.
    * rewrite <- (sample16_below (-1)) by lra. by apply sample16_le.
  + rewrite <- (sample16_above 1) by lra. apply sample16_le. lra.
- rewrite sample16_above by done. done.
Qed.

(** X3: no sample wraps around.  Whatever the number, the stored value
  lies between -32768 and 32767; a sample of 1 or more is stored as
  32767 and one of -1 or less as -32768; a larger sample never gets a
  smaller value; silence is stored as 0. *)
Theorem sample16_clamps (x x' : Q) :
(-32768 <= sample16 x <= 32767)%Z
∧ (1 <= x → sample16 x = 32767%Z)
∧ (x <= -1 → sample16 x = (-32768)%Z)
∧ (x <= x' → (sample16 x <= sample16 x')%Z)
∧ sample16 0 = 0%Z.
Proof.
split; [apply sample16_range|].
split; [apply sample16_above|].
split; [apply sample16_below|].
split; [apply sample16_le|reflexivity].
Qed.

(** The two bytes of a 16-bit value read back as that value. *)
Lemma int16_bytes_decode (v : Z) :
(-32768 <= v <= 32767)%Z →
int16_at (int16_bytes v) 0 = v
∧ Forall (λ b, 0 <= b < 256)%Z (int16_bytes v).
Proof.
intros Hv. unfold int16_at, uint16_at, int16_bytes. simpl.
change 255%Z with (Z.ones 8).
rewrite !Z.land_ones, !Z.shiftr_div_pow2 by lia.
split.
- destruct (Z.ltb_spec (v mod 2 ^ 8 + 2 ^ 8 * ((v / 2 ^ 8) mod 2 ^ 8)) (2 ^ 15));
    Z.to_euclidean_division_equations; lia.
- repeat constructor; Z.to_euclidean_division_equations; lia.
Qed.

End Samples.

Section Header.
Import Wav.

Lemma uint16_bytes (n : Z) :
(0 <= n < 2 ^ 16)%Z →
(Z.land n 255 + 2 ^ 8 * Z.land (Z.shiftr n 8) 255)%Z = n.
Proof.
intros Hn. change 255%Z with (Z.ones 8).
rewrite !Z.land_ones, !Z.shiftr_div_pow2 by lia.
Z.to_euclidean_division_equations. lia.
Qed.

Lemma to_uint32_range (x : Q) : (0 <= to_uint32 x < 2 ^ 32)%Z.
Proof. unfold to_uint32. apply Z.mod_pos_bound. lia. Qed.

Lemma to_uint16_of_nat (n : nat) :
(Z.of_nat n < 2 ^ 16)%Z → to_uint16 (of_nat n) = Z.of_nat n.
Proof.
intros Hn. unfold to_uint16. rewrite truncate_of_nat.
apply Z.mod_small. lia.
Qed.

Lemma of_nat_double (n : nat) : of_nat n * 2 = of_nat (n * 2).
Proof.
unfold of_nat, Qmult, inject_Z. simpl. f_equal. lia.
Qed.

(** The 44 bytes of the header as the writer leaves them. *)
Lemma blob_header buffer :
let n := numberOfChannels buffer in
let size := (length buffer * n * 2)%nat in
∃ head,
  _bufferToWavBlob buffer = head ++ payload buffer
  ∧ List.length head = 44%nat
  ∧ take 4 head = charCode <$> String.list_ascii_of_string "RIFF"
  ∧ take 8 (drop 8 head) = charCode <$> String.list_ascii_of_string "WAVEfmt "
  ∧ take 4 (drop 36 head) = charCode <$> String.list_ascii_of_string "data"
  ∧ uint32_at head 4 = to_uint32 (of_nat (size + 44 - 8))
  ∧ uint32_at head 16 = to_uint32 16
  ∧ uint16_at head 20 = to_uint16 1
  ∧ uint16_at head 22 = to_uint16 (of_nat n)
  ∧ uint32_at head 24 = to_uint32 (sampleRate buffer)
  ∧ uint32_at head 28 = to_uint32 (sampleRate buffer * of_nat n * 2)
  ∧ uint16_at head 32 = to_uint16 (of_nat n * 2)
  ∧ uint16_at head 34 = to_uint16 16
  ∧ uint32_at head 40 = to_uint32 (of_nat size).
Proof.
intros n size. unfold _bufferToWavBlob.
cbn -[Z.land Z.shiftr to_uint32 to_uint16 Nat.mul replicate list_inserts
      copy_channels].
fold (payload buffer). fold n. fold size.
replace (size + 44 - 40 - 4)%nat with size by lia.
replace (replicate (size + 44) 0%Z)
  with (replicate 44 0%Z ++ replicate size 0%Z)
  by (rewrite <- replicate_add; f_equal; lia).
repeat rewrite insert_app_l
  by (rewrite ?length_insert, length_replicate; lia).
match goal with
| |- ∃ head, list_inserts 44 _ (?v ++ _) = _ ∧ _ => exists v
end.
split.
{ match goal with
  | |- list_inserts 44 ?p (?v ++ ?z) = _ =>
      assert (List.length v = 44%nat) as Hv
        by (rewrite !length_insert; apply length_replicate);
      replace 44%nat with (List.length v + 0)%nat at 1 by lia;
      rewrite list_inserts_app_r
  end.
  f_equal. rewrite <- (app_nil_r (replicate size 0%Z)).
  rewrite list_inserts_0_r
    by (rewrite length_replicate; unfold size, n; by rewrite length_payload).
  apply app_nil_r. }
split; [rewrite !length_insert; apply length_replicate|].
let r := eval cbv in (replicate 44 0%Z) in change (replicate 44 0%Z) with r.
cbn -[Z.land Z.shiftr to_uint32 to_uint16 Nat.mul of_nat].
unfold uint32_at, uint16_at.
cbn -[Z.land Z.shiftr to_uint32 to_uint16 Nat.mul of_nat Z.mul Z.add Z.pow].
repeat split;
  first [ apply uint32_bytes, to_uint32_range
        | apply uint16_bytes; unfold to_uint16; apply Z.mod_pos_bound; lia ].
Qed.

Lemma uint32_at_app (head rest : list Z) (at_ : nat) :
(at_ + 3 < List.length head)%nat →
uint32_at (head ++ rest) at_ = uint32_at head at_.
Proof.
intros Hat. unfold uint32_at. by rewrite !lookup_app_l by lia.
Qed.

Lemma uint16_at_app (head rest : list Z) (at_ : nat) :
(at_ + 1 < List.length head)%nat →
uint16_at (head ++ rest) at_ = uint16_at head at_.
Proof.
intros Hat. unfold uint16_at. by rewrite !lookup_app_l by lia.
Qed.

Lemma take_drop_app (head rest : list Z) (k at_ : nat) :
(at_ + k ≤ List.length head)%nat →
take k (drop at_ (head ++ rest)) = take k (drop at_ head).
Proof.
intros Hk. rewrite drop_app_le by lia.
rewrite take_app_le; [done|]. rewrite length_drop. lia.
Qed.

(** X4: the layout of the file, for a buffer whose file is shorter than
  4 GiB and that has fewer than 32768 channels.  The 44 bytes of the
  header hold, in this order: RIFF, the length of the file less 8,
  WAVE, fmt and a blank, 16, the format 1 (PCM), the number of
  channels, the sample rate, the byte rate (sample rate times channels
  times 2), the block size (channels times 2), 16 bits per sample, data,
  and the length of the payload; the payload follows the header. *)
Theorem wav_header buffer :
let n := numberOfChannels buffer in
let size := (length buffer * n * 2)%nat in
let file := _bufferToWavBlob buffer in
(Z.of_nat (size + 44) < 2 ^ 32)%Z →
(Z.of_nat n < 2 ^ 15)%Z →
List.length file = (size + 44)%nat
∧ take 4 file = charCode <$> String.list_ascii_of_string "RIFF"
∧ uint32_at file 4 = Z.of_nat (size + 36)
∧ take 8 (drop 8 file) = charCode <$> String.list_ascii_of_string "WAVEfmt "
∧ uint32_at file 16 = 16%Z
∧ uint16_at file 20 = 1%Z
∧ uint16_at file 22 = Z.of_nat n
∧ uint32_at file 24 = to_uint32 (sampleRate buffer)
∧ uint32_at file 28 = to_uint32 (sampleRate buffer * of_nat n * 2)
∧ uint16_at file 32 = Z.of_nat (n * 2)
∧ uint16_at file 34 = 16%Z
∧ take 4 (drop 36 file) = charCode <$> String.list_ascii_of_string "data"
∧ uint32_at file 40 = Z.of_nat size
∧ drop 44 file = payload buffer.
Proof.
intros n size file Hsize Hn.
pose proof (blob_header buffer) as Hh. cbv zeta in Hh.
destruct Hh as (head & Hfile & Hlen & Hriff & Hwave & Hdata & H4 & H16
                & H20 & H22 & H24 & H28 & H32 & H34 & H40).
fold n in H22, H28, H32. fold size in H4, H40.
unfold file. rewrite Hfile.
assert (drop 44 (head ++ payload buffer) = payload buffer) as ->
  by (rewrite <- Hlen; apply drop_app_length).
rewrite !uint32_at_app, !uint16_at_app, !take_drop_app by lia.
rewrite <- (drop_0 (head ++ payload buffer)) at 2.
rewrite take_drop_app, drop_0 by lia.
rewrite length_app, Hlen, length_payload.
rewrite H4, H16, H20, H22, H24, H28, H32, H34, H40.
rewrite of_nat_double.
rewrite !to_uint32_of_nat, !to_uint16_of_nat by lia.
repeat split; try done; try lia.
Qed.

Lemma lookup_int16_bytes (l : list Z) (i : nat) (v : Z) :
l !! i = Some v →
(l ≫= int16_bytes) !! (2 * i)%nat = int16_bytes v !! 0%nat
∧ (l ≫= int16_bytes) !! (2 * i + 1)%nat = int16_bytes v !! 1%nat.
Proof.
revert i. induction l as [|a l IH]; intros i Hi; [done|].
rewrite bind_cons. destruct i as [|i]; simpl in Hi.
- injection Hi as ->. done.
- apply IH in Hi as [H0 H1].
  replace (2 * S i)%nat with (S (S (2 * i))) by lia.
  replace (S (S (2 * i)) + 1)%nat with (S (S (2 * i + 1))) by lia.
  done.
Qed.

Lemma int16_at_bytes (bytes : list Z) (at_ : nat) (v : Z) :
bytes !! at_ = int16_bytes v !! 0%nat →
bytes !! (at_ + 1)%nat = int16_bytes v !! 1%nat →
int16_at bytes at_ = int16_at (int16_bytes v) 0.
Proof.
intros H0 H1. unfold int16_at, uint16_at. by rewrite H0, H1.
Qed.

(** X5: a buffer of one channel is read back from the file.  The file
  has two bytes for every frame after the 44 bytes of the header, and
  the two bytes at [44 + 2 * i], read as a signed 16-bit integer, are
  the value [sample16] gives frame [i]. *)
Theorem wav_mono_round_trip (rate : Q) (data : list Q) (i : nat) (x : Q) :
data !! i = Some x →
let file := _bufferToWavBlob (Wav.mk rate (List.length data) [data]) in
List.length file = (List.length data * 2 + 44)%nat
∧ int16_at file (44 + 2 * i) = sample16 x.
Proof.
intros Hx file.
pose proof (blob_header (Wav.mk rate (List.length data) [data])) as Hh.
cbv zeta in Hh. destruct Hh as (head & Hfile & Hlen & _).
unfold file. rewrite Hfile, length_app, Hlen, length_payload.
unfold numberOfChannels. cbn [Wav.length Wav.channels List.length].
split; [lia|].
rewrite wav_mono. unfold interleaved_payload, interleave.
cbn [Wav.length Wav.channels fmap list_fmap].
rewrite (bind_singleton (λ i, default 0 (data !! i))).
assert ((λ i, default 0 (data !! i)) <$> seq 0 (List.length data) = data) as ->.
{ apply list_eq. intros j. rewrite list_lookup_fmap.
  destruct (decide (j < List.length data)%nat) as [Hj|Hj].
  - rewrite lookup_seq_lt by done. simpl.
    destruct (data !! j) eqn:Hd; [done|].
    apply lookup_ge_None in Hd. lia.
  - rewrite lookup_seq_ge by lia. simpl. symmetry.
    apply lookup_ge_None_2. lia. }
assert ((sample16 <$> data) !! i = Some (sample16 x)) as Hs
  by (by rewrite list_lookup_fmap, Hx).
apply lookup_int16_bytes in Hs as [H0 H1].
rewrite (int16_at_bytes _ _ (sample16 x)).
- apply int16_bytes_decode, sample16_range.
- rewrite lookup_app_r by lia. rewrite <- H0. f_equal. lia.
- rewrite lookup_app_r by lia. rewrite <- H1. f_equal. lia.
Qed.
End Header.

Lemma wav_header_witness :
  (Z.of_nat (Wav.length SampleWav.stereo
             * Wav.numberOfChannels SampleWav.stereo * 2 + 44) < 2 ^ 32)%Z
  ∧ (Z.of_nat (Wav.numberOfChannels SampleWav.stereo) < 2 ^ 15)%Z
  ∧ List.length (Wav._bufferToWavBlob SampleWav.stereo) = 52%nat
  ∧ Wav.uint32_at (Wav._bufferToWavBlob SampleWav.stereo) 4 = 44%Z
  ∧ Wav.uint16_at (Wav._bufferToWavBlob SampleWav.stereo) 22 = 2%Z
  ∧ Wav.uint32_at (Wav._bufferToWavBlob SampleWav.stereo) 40 = 8%Z.
Proof.
  split; [done|]. split; [done|].
  destruct (wav_header SampleWav.stereo ltac:(done) ltac:(done))
    as (Hlen & _ & H4 & _ & _ & _ & H22 & _ & _ & _ & _ & _ & H40 & _).
  split; [exact Hlen|]. split; [exact H4|]. split; [exact H22|exact H40].
Defined.

Lemma wav_mono_round_trip_witness :
  [1; 0.5] !! 1%nat = Some 0.5
  ∧ Wav.int16_at (Wav._bufferToWavBlob (Wav.mk 44100 2 [[1; 0.5]])) 46
    = Wav.sample16 0.5.
Proof.
  split; [done|].
  exact (proj2 (wav_mono_round_trip 44100 [1; 0.5] 1 0.5 eq_refl)).
Defined.

(** ** Voices: what is scheduled, and when *)

Section Emits.
Context `{MathHost}.
Hypothesis random_range : ∀ n, 0 <= random_seq n < 1.

Lemma emits_weaken {A} (m : M host A) (P P' : Q → Q → A → list voice → Prop) :
(∀ sr t a vs, P sr t a vs → P' sr t a vs) → emits m P → emits m P'.
Proof.
intros HP Hm h. destruct (Hm h) as (a & n & vs & E & Hvs).
exists a, n, vs. eauto.
Qed.

Lemma emits_ret {A} (a : A) : emits (ret a) (λ _ _ a' vs, a' = a ∧ vs = []).
Proof.
intros h. exists a, (random_calls h), []. rewrite app_nil_r. by destruct h.
Qed.

Lemma emits_bind {A B} (m : M host A) (k : A → M host B) P1 P2
  (P : Q → Q → B → list voice → Prop) :
emits m P1 → (∀ a, emits (k a) (P2 a)) →
(∀ sr t a b vs1 vs2, P1 sr t a vs1 → P2 a sr t b vs2 → P sr t b (vs1 ++ vs2)) →
emits (bind m k) P.
Proof.
intros Hm Hk HP h. destruct (Hm h) as (a & n & vs1 & Ha & H1).
destruct (Hk a (with_voices (voices h ++ vs1) (with_random_calls n h)))
  as (b & n' & vs2 & Hb & H2).
exists b, n', (vs1 ++ vs2). unfold bind. rewrite Ha, Hb. split.
- destruct h; simpl. by rewrite <- app_assoc.
- eapply HP; [exact H1|exact H2].
Qed.

(** A step that adds no voice: what is known of its value is known to
  what follows. *)
Lemma emits_let {A B} (m : M host A) (k : A → M host B)
  (R : A → Prop) (P : Q → Q → B → list voice → Prop) :
emits m (λ _ _ a vs, R a ∧ vs = []) →
(∀ a, R a → emits (k a) P) →
emits (bind m k) P.
Proof.
intros Hm Hk h. destruct (Hm h) as (a & n & vs1 & Ha & HR & ->).
destruct (Hk a HR (with_voices (voices h ++ []) (with_random_calls n h)))
  as (b & n' & vs2 & Hb & H2).
exists b, n', vs2. unfold bind. rewrite Ha, Hb.
revert H2. rewrite app_nil_r. by destruct h.
Qed.

Lemma emits_random : emits Math_random (λ _ _ r vs, (0 <= r ∧ r < 1) ∧ vs = []).
Proof.
intros h. exists (random_seq (random_calls h)), (S (random_calls h)), [].
rewrite app_nil_r. split; [by destruct h|]. split; [apply random_range|done].
Qed.

Lemma emits_only_draws {A} (m : M host A) :
only_draws m → emits m (λ _ _ _ vs, True ∧ vs = []).
Proof.
intros Hm h. destruct (Hm h) as (a & n & Ha).
exists a, n, []. rewrite Ha, app_nil_r. by destruct h.
Qed.

(** Reading the clock or the sample rate. *)
Lemma emits_now {B} (k : Q → M host B) (P : Q → Q → B → list voice → Prop) :
(∀ t, emits (k t) (λ sr t' b vs, t' = t → P sr t' b vs)) →
emits (bind now k) P.
Proof.
intros Hk h. destruct (Hk (currentTime h) h) as (b & n & vs & Hb & HP).
exists b, n, vs. unfold bind, now. split; [exact Hb|by apply HP].
Qed.

Lemma emits_rate {B} (k : Q → M host B) (P : Q → Q → B → list voice → Prop) :
(∀ sr, emits (k sr) (λ sr' t b vs, sr' = sr → P sr' t b vs)) →
emits (bind rate k) P.
Proof.
intros Hk h. destruct (Hk (sampleRate h) h) as (b & n & vs & Hb & HP).
exists b, n, vs. unfold bind, rate. split; [exact Hb|by apply HP].
Qed.

Lemma emits_spawn v : emits (spawn v) (λ _ _ _ vs, vs = [v]).
Proof. intros h. exists tt, (random_calls h), [v]. by destruct h. Qed.

(** A loop that fills a buffer, every stored sample satisfying [S]. *)
Lemma emits_fill (S : Q → Prop) (sample : nat → M host Q) :
(∀ i, emits (sample i) (λ _ _ x vs, S x ∧ vs = [])) →
∀ n from data,
  Forall S data →
  emits (fill from n sample data)
        (λ _ _ d vs, (length d = length data ∧ Forall S d) ∧ vs = []).
Proof.
intros Hs. induction n as [|n IH]; intros from data Hdata; simpl.
- eapply emits_weaken; [|apply emits_ret]. by intros _ _ d vs [-> ->].
- eapply emits_let; [apply Hs|]. intros x Hx.
  eapply emits_weaken; [|apply (IH (Datatypes.S from) (<[from := x]> data))].
  + intros _ _ d vs [[Hlen Hall] ->]. by rewrite length_insert in Hlen.
  + by apply Forall_insert.
Qed.

(** A loop each of whose iterations adds one voice. *)
Lemma emits_for_range (V : Q → Q → nat → voice → Prop) (body : nat → M host unit) :
(∀ i, emits (body i) (λ sr t _ vs, ∃ v, vs = [v] ∧ V sr t i v)) →
∀ n from,
  emits (for_range from n body)
        (λ sr t _ vs, Forall2 (V sr t) (seq from n) vs).
Proof.
intros Hb. induction n as [|n IH]; intros from; simpl.
- eapply emits_weaken; [|apply emits_ret]. intros sr t a vs [? ->]. constructor.
- eapply emits_bind; [apply Hb|intros ?; apply IH|].
  intros sr t a b vs1 vs2 (v & -> & Hv) Hrest. by constructor.
Qed.

Import ThunderV2.

Lemma emits_randomBetween lo hi :
lo <= hi →
emits (ThunderV2.randomBetween lo hi) (λ _ _ x vs, (lo <= x ∧ x <= hi) ∧ vs = []).
Proof.
intros Hle. unfold ThunderV2.randomBetween.
eapply emits_let; [apply emits_random|]. intros r [Hr0 Hr1].
eapply emits_weaken; [|apply emits_ret].
intros _ _ x vs [-> ->]. split; [|done]. split; nra.
Qed.

Lemma emits_createCrackleBuffer duration :
emits (createCrackleBuffer duration)
  (λ sr _ d vs,
     (length d = Z.to_nat (Math_floor (sr * duration))
      ∧ Forall (λ x, -1 <= x ∧ x < 1) d) ∧ vs = []).
Proof.
unfold createCrackleBuffer. apply emits_rate. intros sr.
eapply emits_weaken;
  [|apply (emits_fill (λ x, -1 <= x ∧ x < 1))].
- intros sr' t d vs [[Hlen Hall] ->] ->.
  by rewrite length_replicate in Hlen.
- intros _. eapply emits_let; [apply emits_random|]. intros r [Hr0 Hr1].
  destruct (Qlt_le_dec _ _).
  + eapply emits_let; [apply emits_random|]. intros r' [Hr0' Hr1'].
    eapply emits_weaken; [|apply emits_ret].
    intros _ _ x vs [-> ->]. split; [|done]. split; lra.
  + eapply emits_weaken; [|apply emits_ret].
    intros _ _ x vs [-> ->]. split; [|done]. split; lra.
- apply Forall_replicate. split; lra.
Qed.

Lemma scheduleCracklePop_emits this time :
0 <= RandParam.value (panRange (params this)) →
emits (scheduleCracklePop this time)
  (λ sr _ _ vs,
     ∃ duration pan volume clicks wet,
       vs = [CracklePopV2 time duration pan volume clicks wet]
       ∧ (0.02 <= duration ∧ duration < 0.05)
       ∧ (- RandParam.value (panRange (params this)) <= pan
          ∧ pan <= RandParam.value (panRange (params this)))
       ∧ (0.1 <= volume ∧ volume < 0.3)
       ∧ length clicks = Z.to_nat (Math_floor (sr * duration))
       ∧ Forall (λ x, -1 <= x ∧ x < 1) clicks).
Proof.
intros Hrange. unfold scheduleCracklePop.
eapply emits_let; [apply emits_random|]. intros r1 [Hr1 Hr1'].
eapply emits_let; [apply emits_randomBetween; lra|]. intros pan Hpan.
eapply emits_let; [apply emits_random|]. intros r2 [Hr2 Hr2'].
eapply (emits_bind _ _ _
          (λ clicks _ _ _ vs,
             ∃ wet, vs = [CracklePopV2 time (0.02 + r1 * 0.03) pan
                            (0.1 + r2 * 0.2) clicks wet]));
  [apply emits_createCrackleBuffer
  |intros clicks;
   eapply emits_let; [apply emits_only_draws, only_draws_rand|];
   intros wet _; eapply emits_weaken; [|apply emits_spawn];
   intros ? ? ? ? ->; by eexists
  |].
intros sr t clicks b vs1 vs2 [[Hlen Hall] ->] [wet ->].
eexists _, _, _, _, _. split; [reflexivity|].
repeat split; try done; try apply Hpan; lra.
Qed.

Lemma Forall2_right {A B} (P : B → Prop) (l : list A) (k : list B) :
Forall2 (λ _ y, P y) l k → Forall P k.
Proof. induction 1; by constructor. Qed.

(** X6: the crackle of a strike.  [scheduleCrackle] adds as many pops
  as the integer part of the crackle amount evaluated for it, none when
  the amount is below 1.  Every pop starts within 0.6 s of the strike,
  lasts between 20 and 50 ms, has a volume between 0.1 and 0.3 and a pan
  within the pan range, and plays a buffer of [floor(sampleRate *
  duration)] samples, each of them in [[-1, 1)]. *)
Theorem scheduleCrackle_pops (this : ThunderGenerator) (time amount : Q)
  (h h1 : host) :
rand (crackleAmount (params this)) h = Done (amount, h1) →
0 <= RandParam.value (panRange (params this)) →
∃ n pops,
  scheduleCrackle this time h
  = Done (tt, with_voices (voices h ++ pops) (with_random_calls n h))
  ∧ length pops = Z.to_nat (Math_floor amount)
  ∧ Forall (crackle_pop_within time (sampleRate h)
              (RandParam.value (panRange (params this)))) pops.
Proof.
intros Hamount Hrange.
destruct (only_draws_rand (crackleAmount (params this)) h) as (a' & n1 & Ha').
rewrite Hamount in Ha'. injection Ha' as <- ->.
assert (emits
          (for_range 0 (Z.to_nat (Math_floor amount))
             (λ _, let* r := Math_random in
                   scheduleCracklePop this (time + r * 0.6)))
          (λ sr _ _ vs,
             Forall2 (λ _ v, crackle_pop_within time sr
                               (RandParam.value (panRange (params this))) v)
                     (seq 0 (Z.to_nat (Math_floor amount))) vs)) as Hloop.
{ apply (emits_for_range
           (λ sr _ _ v, crackle_pop_within time sr
                          (RandParam.value (panRange (params this))) v)).
  intros _. eapply emits_let; [apply emits_random|]. intros r [Hr Hr'].
  eapply emits_weaken; [|by apply scheduleCracklePop_emits].
  intros sr t a vs (d & pan & vol & clicks & wet & -> & Hd & Hp & Hv & Hl & Hc).
  eexists. split; [reflexivity|]. simpl.
  repeat split; try done; try apply Hd; try apply Hp; try apply Hv; lra. }
destruct (Hloop (with_random_calls n1 h)) as ([] & n & pops & Hrun & Hpops).
exists n, pops. split; [|split].
- unfold scheduleCrackle, bind at 1. rewrite Hamount.
  rewrite Hrun. by destruct h.
- apply Forall2_length in Hpops. by rewrite length_seq in Hpops.
- by apply Forall2_right in Hpops.
Qed.

Lemma scheduleCrackle_emits this time :
emits (scheduleCrackle this time) (λ _ _ _ vs, Forall (λ v, is_pop v = true) vs).
Proof.
unfold scheduleCrackle.
eapply emits_let; [apply emits_only_draws, only_draws_rand|]. intros amount _.
eapply emits_weaken;
  [|apply (emits_for_range (λ _ _ _ v, is_pop v = true))].
- intros sr t a vs Hvs. by apply Forall2_right in Hvs.
- intros _. eapply emits_let; [apply emits_random|]. intros r _.
  unfold scheduleCracklePop.
  repeat (eapply emits_let;
          [apply emits_only_draws;
           first [apply only_draws_rand|apply only_draws_randomBetween
                 |apply only_draws_random|apply only_draws_createCrackleBuffer]
          |intros ? _]).
  eapply emits_weaken; [|apply emits_spawn].
  intros ? ? ? vs ->. by eexists.
Qed.

(** X7: what a strike of V2 schedules, and when, the audio engine
  accepting it (the time of the context, the durations of the bursts and
  the decay of the rumble are not negative, and the rumble does not end
  at 0 Hz).  After the bursts come one rumble and then the crackle pops.
  Burst [i] is due between [0.1 * i] and [0.1 * i + 0.05] seconds after
  the strike, so the bursts are due in the order in which they are
  scheduled; the rumble is due at the time of the strike. *)
Theorem triggerThunder_schedule (this : ThunderGenerator) (h h1 : host)
  (b : Q) (fuel : nat) :
0 <= currentTime h →
strike_accepted this →
rand (burstCount (params this)) h = Done (b, h1) →
(bursts_of b ≤ fuel)%nat →
∃ n bursts rumble pops,
  triggerThunder fuel this h
  = Done (tt, with_voices (voices h ++ bursts ++ rumble :: pops)
                (with_random_calls n h))
  ∧ length bursts = bursts_of b
  ∧ (∀ i v, bursts !! i = Some v →
       is_burst v = true
       ∧ currentTime h + inject_Z (Z.of_nat i) * 0.1 <= voice_time v
       ∧ voice_time v < currentTime h + inject_Z (Z.of_nat i) * 0.1 + 0.05)
  ∧ (∀ i j v w, bursts !! i = Some v → bursts !! j = Some w →
       (i < j)%nat → voice_time v < voice_time w)
  ∧ is_rumble rumble = true ∧ voice_time rumble = currentTime h
  ∧ Forall (λ v, is_pop v = true) pops.
Proof.
intros Hnow Hok Hb Hfuel.
destruct (only_draws_rand (burstCount (params this)) h) as (b' & n1 & Hb').
rewrite Hb in Hb'. injection Hb' as <- ->.
destruct (strike_at random_range (sampleRate h) (currentTime h) this b fuel
            (Forall (λ v, is_pop v = true)) Hnow Hok Hfuel
            (λ time, emits_at_emits _ _ _ _ (scheduleCrackle_emits this time))
            (with_random_calls n1 h))
  as ([] & n & vs & Hrun & bursts & rumble & pops & -> & Hbursts & [Hr Ht] & Hpops);
  [by destruct h..|].
assert (∀ i v, bursts !! i = Some v →
          is_burst v = true
          ∧ currentTime h + inject_Z (Z.of_nat i) * 0.1 <= voice_time v
          ∧ voice_time v < currentTime h + inject_Z (Z.of_nat i) * 0.1 + 0.05)
  as Hwin.
{ intros i v Hv.
  destruct (Forall2_lookup_r _ _ _ _ _ Hbursts Hv) as (k & Hk & Hkv).
  apply lookup_seq in Hk as [-> _]. exact Hkv. }
exists n, bursts, rumble, pops. split; [|split; [|split; [|split]]].
- unfold triggerThunder, bind at 1. rewrite Hb.
  etransitivity; [exact Hrun|]. by destruct h.
- apply Forall2_length in Hbursts. by rewrite length_seq in Hbursts.
- exact Hwin.
- intros i j v w Hv Hw Hij.
  apply Hwin in Hv as (_ & _ & Hv). apply Hwin in Hw as (_ & Hw & _).
  assert (inject_Z (Z.of_nat i) + 1 <= inject_Z (Z.of_nat j)) as Hle.
  { change 1 with (inject_Z 1). rewrite <- inject_Z_plus, <- Zle_Qle. lia. }
  lra.
- done.
Qed.

(** X8: one [tick] of the thunder generator of V2 triggers at most one
  strike, however much time has passed, the audio engine accepting the
  strike.  The tick draws a delay between the two bounds of
  [delayBetweenThunders]; when the time accumulated, [dt] included, is
  below that delay, the time is kept and nothing is scheduled; otherwise
  one strike is triggered (one rumble is added) and the delay is taken
  off the accumulated time.  ([fuel] is to cover the iterations of the
  loop of the strike, whatever burst count is evaluated.) *)
Theorem tick_fires_at_most_one_strike (this : ThunderGenerator) (dt : Q)
  (fuel : nat) (h : host) :
let lo := fst (delayBetweenThunders (params this)) in
let hi := snd (delayBetweenThunders (params this)) in
let elapsed := thunderTimer this + dt in
let delay := lo + random_seq (random_calls h) * (hi - lo) in
lo <= hi →
0 <= currentTime h →
strike_accepted this →
rand_in (burstCount (params this)) (λ b, (bursts_of b ≤ fuel)%nat) →
(lo <= delay ∧ delay <= hi)
∧ ∃ this' h',
    tick fuel this dt h = Done (this', h')
    ∧ params this' = params this
    ∧ ((elapsed < delay
        ∧ thunderTimer this' = elapsed
        ∧ voices h' = voices h)
       ∨ (delay <= elapsed
          ∧ thunderTimer this' = elapsed - delay
          ∧ count_voices is_rumble (voices h')
            = (count_voices is_rumble (voices h) + 1)%nat)).
Proof.
intros lo hi elapsed delay Hle Hnow Hok Hfuel.
pose proof (random_range (random_calls h)) as [Hr Hr'].
split; [unfold delay; split; nra|].
unfold tick, bind at 1, ThunderV2.randomBetween, bind at 1, Math_random, ret.
cbn [thunderTimer params].
fold lo hi elapsed delay.
destruct (Qlt_le_dec elapsed delay) as [Hlt|Hge].
- eexists _, _. split; [reflexivity|]. split; [done|]. left. done.
- set (this2 := {| thunderTimer := elapsed - delay; params := params this |}).
  set (h1 := with_random_calls (S (random_calls h)) h).
  destruct (only_draws_rand (burstCount (params this2)) h1) as (b & n1 & Hb).
  destruct (triggerThunder_counts random_range this2 h1 _ b fuel Hnow Hok Hb)
    as (h' & Hrun & _ & Hrumble).
  { exact (Hfuel _ _ _ Hb). }
  exists this2, h'. split.
  + unfold bind. by rewrite Hrun.
  + split; [done|]. right. done.
Qed.

(** ** Raindrops: pitch, pan and rate *)

Lemma playDrop_at sr t (this : RainV1.RainGenerator) :
let lo := OscParam.value (RainV1.dropMinPitch (RainV1.params this)) in
let hi := OscParam.value (RainV1.dropMaxPitch (RainV1.params this)) in
let range := OscParam.value (RainV1.dropPanRange (RainV1.params this)) in
let grainTime := Math_min (RainV1.dropDecayTime (RainV1.params this)) 0.2 in
lo <= hi → 0 <= range →
0 <= t → 1 <= sr * grainTime → sr * grainTime < 4294967296 →
emits_at sr t (RainV1.playDrop this)
  (λ _ vs,
     ∃ grain frequency pan,
       vs = [DropV1 t grain frequency (RainV1.dropQ (RainV1.params this)) pan
               (RainV1.dropDryLevel (RainV1.params this))]
       ∧ (lo <= frequency ∧ frequency <= hi)
       ∧ (- range <= pan ∧ pan <= range)).
Proof.
intros lo hi range grainTime Hle Hrange Ht Hone Hmax. unfold RainV1.playDrop.
apply emits_at_now. apply emits_at_rate. fold grainTime.
rewrite ctx_createBuffer_ok, bind_ret_l by done.
apply emits_at_draws.
{ apply only_draws_fill. intros i.
  apply only_draws_bind; [apply only_draws_random|].
  intros r. apply only_draws_ret. }
intros grain.
apply (emits_at_random random_range). intros r1 Hr1 Hr1'.
apply (emits_at_random random_range). intros r2 Hr2 Hr2'.
accepted.
apply emits_at_spawn. eexists _, _, _. split; [reflexivity|].
fold lo hi range. split; split; nra.
Qed.

Lemma emits_at_randomBetween sr t {B} lo hi (k : Q → M host B)
  (P : B → list voice → Prop) :
lo <= hi →
(∀ x, lo <= x → x <= hi → emits_at sr t (k x) P) →
emits_at sr t (bind (RainV2.randomBetween lo hi) k) P.
Proof.
intros Hle Hk.
apply (emits_at_let sr t _ _ (λ x, lo <= x ∧ x <= hi)).
- unfold RainV2.randomBetween.
  apply (emits_at_random random_range). intros r Hr Hr'.
  apply emits_at_ret. split; [|done]. split; nra.
- intros x [Hlo Hhi]. by apply Hk.
Qed.

Lemma scheduleDrop_at sr t (this : RainV2.RainGenerator) :
let lo := OscParam.value (RainV2.osc_drops_minPitch (RainV2.params this)) in
let hi := OscParam.value (RainV2.osc_drops_maxPitch (RainV2.params this)) in
let range := OscParam.value (RainV2.osc_drops_panRange (RainV2.params this)) in
let decayTime := RainV2.const_drops_decayTime (RainV2.params this) in
lo <= hi → 0 <= range →
0 <= t → 0 <= decayTime → 1 <= sr * decayTime → sr * decayTime < 4294967296 →
emits_at sr t (RainV2.scheduleDrop this)
  (λ _ vs,
     ∃ noise frequency pan,
       vs = [DropV2 t decayTime noise
               frequency (RainV2.const_drops_q (RainV2.params this)) pan
               (RainV2.const_drops_dryLevel (RainV2.params this))
               (RainV2.const_drops_wetLevel (RainV2.params this))]
       ∧ (lo <= frequency ∧ frequency <= hi)
       ∧ (- range <= pan ∧ pan <= range)).
Proof.
intros lo hi range decayTime Hle Hrange Ht Hdecay Hone Hmax.
unfold RainV2.scheduleDrop.
apply emits_at_now. apply emits_at_rate. fold decayTime.
assert (1 <= Qfloor (sr * decayTime))%Z as Hfloor.
{ change 1%Z with (Qfloor 1). by apply Qfloor_resp_le. }
assert (inject_Z (Qfloor (sr * decayTime)) <= sr * decayTime) as Hfle
  by apply Qfloor_le.
unfold Math_floor.
rewrite ctx_createBuffer_ok, bind_ret_l
  by first [by rewrite <- (Zle_Qle 1)|lra].
apply emits_at_draws.
{ apply only_draws_fill. intros i.
  apply only_draws_bind; [apply only_draws_random|].
  intros r. apply only_draws_ret. }
intros noise. accepted.
apply emits_at_randomBetween; [done|]. intros frequency Hf Hf'.
apply emits_at_randomBetween; [fold range; lra|]. intros pan Hp Hp'.
accepted.
apply emits_at_spawn. eexists _, _, _. split; [reflexivity|]. done.
Qed.

(** X9: the pitch and the pan of a drop, in both generations, when the
  minimum pitch is not above the maximum, the pan range is not negative,
  and the audio engine accepts the drop (the time of the context and the
  decay time are not negative, and the buffer gets at least one frame):
  the frequency of the band-pass filter lies between the two pitches,
  and the pan between minus and plus the pan range. *)
Theorem drop_pitch_and_pan (v1 : RainV1.RainGenerator)
  (v2 : RainV2.RainGenerator) (h : host) :
let sr := sampleRate h in
let grainTime := Math_min (RainV1.dropDecayTime (RainV1.params v1)) 0.2 in
let decayTime := RainV2.const_drops_decayTime (RainV2.params v2) in
0 <= currentTime h →
OscParam.value (RainV1.dropMinPitch (RainV1.params v1))
<= OscParam.value (RainV1.dropMaxPitch (RainV1.params v1)) →
0 <= OscParam.value (RainV1.dropPanRange (RainV1.params v1)) →
1 <= sr * grainTime → sr * grainTime < 4294967296 →
OscParam.value (RainV2.osc_drops_minPitch (RainV2.params v2))
<= OscParam.value (RainV2.osc_drops_maxPitch (RainV2.params v2)) →
0 <= OscParam.value (RainV2.osc_drops_panRange (RainV2.params v2)) →
0 <= decayTime → 1 <= sr * decayTime → sr * decayTime < 4294967296 →
(∃ n grain frequency pan,
   RainV1.playDrop v1 h
   = Done (tt, with_voices
                 (voices h ++ [DropV1 (currentTime h) grain frequency
                                 (RainV1.dropQ (RainV1.params v1)) pan
                                 (RainV1.dropDryLevel (RainV1.params v1))])
                 (with_random_calls n h))
   ∧ OscParam.value (RainV1.dropMinPitch (RainV1.params v1)) <= frequency
   ∧ frequency <= OscParam.value (RainV1.dropMaxPitch (RainV1.params v1))
   ∧ - OscParam.value (RainV1.dropPanRange (RainV1.params v1)) <= pan
   ∧ pan <= OscParam.value (RainV1.dropPanRange (RainV1.params v1)))
∧ (∃ n noise frequency pan,
     RainV2.scheduleDrop v2 h
     = Done (tt, with_voices
                   (voices h ++ [DropV2 (currentTime h) decayTime
                                   noise frequency
                                   (RainV2.const_drops_q (RainV2.params v2)) pan
                                   (RainV2.const_drops_dryLevel (RainV2.params v2))
                                   (RainV2.const_drops_wetLevel (RainV2.params v2))])
                   (with_random_calls n h))
     ∧ OscParam.value (RainV2.osc_drops_minPitch (RainV2.params v2)) <= frequency
     ∧ frequency <= OscParam.value (RainV2.osc_drops_maxPitch (RainV2.params v2))
     ∧ - OscParam.value (RainV2.osc_drops_panRange (RainV2.params v2)) <= pan
     ∧ pan <= OscParam.value (RainV2.osc_drops_panRange (RainV2.params v2))).
Proof.
intros sr grainTime decayTime Hnow H1 H2 H3 H4 H5 H6 H7 H8 H9. split.
- destruct (playDrop_at sr (currentTime h) v1 H1 H2 Hnow H3 H4 h eq_refl eq_refl)
    as ([] & n & vs & E & grain & f & pan & -> & [? ?] & [? ?]).
  by exists n, grain, f, pan.
- destruct (scheduleDrop_at sr (currentTime h) v2 H5 H6 Hnow H7 H8 H9 h
              eq_refl eq_refl)
    as ([] & n & vs & E & noise & f & pan & -> & [? ?] & [? ?]).
  by exists n, noise, f, pan.
Qed.

Lemma scheduleDrop_drop sr t (this : RainV2.RainGenerator) :
let decayTime := RainV2.const_drops_decayTime (RainV2.params this) in
0 <= t → 0 <= decayTime → 1 <= sr * decayTime → sr * decayTime < 4294967296 →
emits_at sr t (RainV2.scheduleDrop this)
  (λ _ vs, ∃ v, vs = [v] ∧ is_drop v = true).
Proof.
intros decayTime Ht Hdecay Hone Hmax.
unfold RainV2.scheduleDrop.
apply emits_at_now. apply emits_at_rate. fold decayTime.
assert (1 <= Qfloor (sr * decayTime))%Z as Hfloor.
{ change 1%Z with (Qfloor 1). by apply Qfloor_resp_le. }
assert (inject_Z (Qfloor (sr * decayTime)) <= sr * decayTime) as Hfle
  by apply Qfloor_le.
unfold Math_floor.
rewrite ctx_createBuffer_ok, bind_ret_l
  by first [by rewrite <- (Zle_Qle 1)|lra].
apply emits_at_draws.
{ apply only_draws_fill. intros i.
  apply only_draws_bind; [apply only_draws_random|].
  intros r. apply only_draws_ret. }
intros noise. accepted.
apply emits_at_draws; [apply only_draws_randomBetween|intros frequency].
apply emits_at_draws; [apply only_draws_randomBetween|intros pan].
accepted.
apply emits_at_spawn. by eexists.
Qed.

(** The loop of [tick]: a drop for every whole [timePerDrop] that has
  accumulated; what is left is carried over. *)
Lemma drops_due_at sr t (decayTime timePerDrop : Q) :
0 <= t → 0 <= decayTime → 1 <= sr * decayTime → sr * decayTime < 4294967296 →
0 < timePerDrop →
∀ fuel this,
  RainV2.const_drops_decayTime (RainV2.params this) = decayTime →
  0 <= RainV2.dropInterval this →
  RainV2.dropInterval this < inject_Z (Z.of_nat fuel) * timePerDrop →
  emits_at sr t (RainV2.drops_due fuel timePerDrop this)
    (λ this' vs,
       Forall (λ v, is_drop v = true) vs
       ∧ inject_Z (Z.of_nat (length vs)) * timePerDrop <= RainV2.dropInterval this
       ∧ RainV2.dropInterval this
         < (inject_Z (Z.of_nat (length vs)) + 1) * timePerDrop
       ∧ RainV2.dropInterval this'
         == RainV2.dropInterval this
            - inject_Z (Z.of_nat (length vs)) * timePerDrop
       ∧ this' = RainV2.with_clock (RainV2.time this)
                   (RainV2.dropInterval this') this).
Proof.
intros Ht Hdecay Hone Hmax Htpd.
induction fuel as [|fuel IH]; intros this Hthis Hpos Hfuel.
- change (inject_Z (Z.of_nat 0)) with 0 in Hfuel. lra.
- cbn [RainV2.drops_due].
  destruct (Qlt_le_dec (RainV2.dropInterval this) timePerDrop) as [Hlt|Hge].
  + apply emits_at_ret. cbn [length].
    change (inject_Z (Z.of_nat 0)) with 0.
    split; [constructor|]. split; [lra|]. split; [lra|].
    split; [ring|]. by destruct this.
  + set (this1 := RainV2.with_clock (RainV2.time this)
                    (RainV2.dropInterval this - timePerDrop) this).
    eapply emits_at_bind.
    { apply (scheduleDrop_drop sr t this1); subst this1; cbn;
        rewrite ?Hthis; done. }
    intros [] vs1 (v & -> & Hv).
    eapply emits_at_weaken; [|apply (IH this1)].
    * intros this' vs2 (Hall & Hlo & Hhi & Hd & Hthis').
      simpl in Hlo, Hhi, Hd, Hthis'. simpl length.
      rewrite Nat2Z.inj_succ, <- Z.add_1_r, inject_Z_plus.
      change (inject_Z 1) with 1.
      split; [by constructor|]. split; [lra|]. split; [lra|].
      split; [rewrite Hd; ring|]. rewrite Hthis'. by destruct this.
    * by destruct this.
    * simpl. lra.
    * simpl. rewrite Nat2Z.inj_succ, <- Z.add_1_r, inject_Z_plus in Hfuel.
      change (inject_Z 1) with 1 in Hfuel. lra.
Qed.

(** X10: the drops of one [tick] of the rain generator of V2, for a
  positive drop rate and drops that the audio engine accepts (the time
  of the context and the decay time are not negative, and the buffer of
  a drop gets at least one frame).  The time since the last drop
  accumulates over the ticks; a tick schedules one drop for every whole
  [1 / rate] seconds accumulated, adds nothing else to the voices, and
  carries over what is left, which is less than [1 / rate].  (With a
  rate of 0 JavaScript divides to Infinity and schedules nothing; the
  rationals of this development have no such value.) *)
Theorem tick_schedules_the_drops_due (this : RainV2.RainGenerator) (dt : Q)
  (fuel : nat) (h : host) :
let timePerDrop := 1 / RainV2.const_drops_rate (RainV2.params this) in
let elapsed := RainV2.dropInterval this + dt in
let decayTime := RainV2.const_drops_decayTime (RainV2.params this) in
0 < RainV2.const_drops_rate (RainV2.params this) →
0 <= elapsed →
elapsed < inject_Z (Z.of_nat fuel) * timePerDrop →
0 <= currentTime h →
0 <= decayTime →
1 <= sampleRate h * decayTime →
sampleRate h * decayTime < 4294967296 →
∃ this' h' drops,
  RainV2.tick fuel this dt h = Done (this', h')
  ∧ voices h' = voices h ++ drops
  ∧ Forall (λ v, is_drop v = true) drops
  ∧ inject_Z (Z.of_nat (length drops)) * timePerDrop <= elapsed
  ∧ elapsed < (inject_Z (Z.of_nat (length drops)) + 1) * timePerDrop
  ∧ RainV2.dropInterval this'
    == elapsed - inject_Z (Z.of_nat (length drops)) * timePerDrop
  ∧ RainV2.time this' = RainV2.time this + dt
  ∧ RainV2.noiseSource this' = RainV2.noiseSource this.
Proof.
intros timePerDrop elapsed decayTime Hrate Hpos Hfuel Hnow Hdecay Hone Hmax.
assert (0 < timePerDrop) as Htpd.
{ unfold timePerDrop. apply Qlt_shift_div_l; [done|]. lra. }
set (this1 := RainV2.with_clock (RainV2.time this + dt) elapsed this).
destruct (drops_due_at (sampleRate h) (currentTime h) decayTime timePerDrop
            Hnow Hdecay Hone Hmax Htpd fuel this1 ltac:(by destruct this)
            Hpos Hfuel h eq_refl eq_refl)
  as (this2 & n & drops & Hrun & Hall & Hlo & Hhi & Hd & Hthis).
simpl in Hlo, Hhi, Hd, Hthis.
eexists _, _, drops. split.
- unfold RainV2.tick, bind at 1.
  match goal with
  | |- context [RainV2.drops_due fuel ?a ?b h] =>
      change (RainV2.drops_due fuel a b h)
        with (RainV2.drops_due fuel timePerDrop this1 h)
  end.
  rewrite Hrun. unfold bind, set_frequency, update_node, modify, ret.
  reflexivity.
- cbn [voices with_nodes with_voices RainV2.applyOsc RainV2.with_params
       RainV2.dropInterval RainV2.time RainV2.noiseSource].
  split; [done|]. split; [done|]. split; [done|]. split; [done|].
  split; [done|]. rewrite Hthis. done.
Qed.
End Emits.

Lemma scheduleCrackle_pops_witness :
  (∀ n, 0 <= @random_seq Sample.math n < 1)
  ∧ @ThunderV2.rand Sample.math
      (ThunderV2.crackleAmount (ThunderV2.params SampleThunder.default_v2))
      Sample.idle
    = Done (1, Sample.idle)
  ∧ 0 <= RandParam.value
           (ThunderV2.panRange (ThunderV2.params SampleThunder.default_v2))
  ∧ ∃ n pops,
      @ThunderV2.scheduleCrackle Sample.math SampleThunder.default_v2 0 Sample.idle
      = Done (tt, with_voices (voices Sample.idle ++ pops)
                    (with_random_calls n Sample.idle))
      ∧ length pops = Z.to_nat (Math_floor 1)
      ∧ Forall (crackle_pop_within 0 (sampleRate Sample.idle) 1) pops.
Proof.
  split; [exact Sample_draws_range|]. split; [reflexivity|]. split; [done|].
  exact (@scheduleCrackle_pops Sample.math Sample_draws_range
           SampleThunder.default_v2 0 1 Sample.idle Sample.idle
           eq_refl ltac:(done)).
Defined.

Lemma default_v2_accepted : @strike_accepted Sample.math SampleThunder.default_v2.
Proof.
  apply strike_accepted_disabled; first [reflexivity|by vm_compute].
Defined.

Lemma triggerThunder_schedule_witness :
  (∀ n, 0 <= @random_seq Sample.math n < 1)
  ∧ 0 <= currentTime Sample.idle
  ∧ @strike_accepted Sample.math SampleThunder.default_v2
  ∧ @ThunderV2.rand Sample.math
      (ThunderV2.burstCount (ThunderV2.params SampleThunder.default_v2))
      Sample.idle
    = Done (3, Sample.idle)
  ∧ (bursts_of 3 ≤ 3)%nat
  ∧ ∃ n bursts rumble pops,
      @ThunderV2.triggerThunder Sample.math 3 SampleThunder.default_v2 Sample.idle
      = Done (tt, with_voices (voices Sample.idle ++ bursts ++ rumble :: pops)
                    (with_random_calls n Sample.idle))
      ∧ length bursts = bursts_of 3.
Proof.
  split; [exact Sample_draws_range|]. split; [done|].
  split; [exact default_v2_accepted|]. split; [reflexivity|].
  split; [vm_compute; lia|].
  destruct (@triggerThunder_schedule Sample.math Sample_draws_range
              SampleThunder.default_v2 Sample.idle Sample.idle 3 3
              ltac:(done) default_v2_accepted eq_refl
              ltac:(vm_compute; lia))
    as (n & bursts & rumble & pops & E & Hlen & _).
  exists n, bursts, rumble, pops. split; [exact E|exact Hlen].
Defined.

Lemma tick_fires_at_most_one_strike_witness :
  (∀ n, 0 <= @random_seq Sample.math n < 1)
  ∧ fst (ThunderV2.delayBetweenThunders (ThunderV2.params SampleThunder.default_v2))
    <= snd (ThunderV2.delayBetweenThunders (ThunderV2.params SampleThunder.default_v2))
  ∧ 0 <= currentTime Sample.idle
  ∧ @strike_accepted Sample.math SampleThunder.default_v2
  ∧ @rand_in Sample.math
      (ThunderV2.burstCount (ThunderV2.params SampleThunder.default_v2))
      (λ b, (bursts_of b ≤ 3)%nat)
  ∧ ∃ this' h',
      @ThunderV2.tick Sample.math 3 SampleThunder.default_v2 20000 Sample.idle
      = Done (this', h')
      ∧ ThunderV2.params this' = ThunderV2.params SampleThunder.default_v2.
Proof.
  assert (@rand_in Sample.math
            (ThunderV2.burstCount (ThunderV2.params SampleThunder.default_v2))
            (λ b, (bursts_of b ≤ 3)%nat)) as Hfuel
    by (apply rand_in_disabled; [reflexivity|vm_compute; lia]).
  split; [exact Sample_draws_range|]. split; [done|]. split; [done|].
  split; [exact default_v2_accepted|]. split; [exact Hfuel|].
  destruct (@tick_fires_at_most_one_strike Sample.math Sample_draws_range
              SampleThunder.default_v2 20000 3 Sample.idle
              ltac:(done) ltac:(done) default_v2_accepted Hfuel)
    as (_ & this' & h' & E & Hp & _).
  exists this', h'. split; [exact E|exact Hp].
Defined.

Lemma drop_pitch_and_pan_witness :
  (∀ n, 0 <= @random_seq Sample.math n < 1)
  ∧ 0 <= currentTime Sample.idle
  ∧ 1 <= sampleRate Sample.idle
         * Math_min (RainV1.dropDecayTime (RainV1.params SampleRain.fresh)) 0.2
  ∧ 1 <= sampleRate Sample.idle
         * RainV2.const_drops_decayTime RainV2._defaultRainParamsV2
  ∧ ∃ n grain frequency pan,
      @RainV1.playDrop Sample.math SampleRain.fresh Sample.idle
      = Done (tt, with_voices
                    (voices Sample.idle
                     ++ [DropV1 (currentTime Sample.idle) grain frequency
                           (RainV1.dropQ (RainV1.params SampleRain.fresh)) pan
                           (RainV1.dropDryLevel (RainV1.params SampleRain.fresh))])
                    (with_random_calls n Sample.idle))
      ∧ 300 <= frequency ∧ frequency <= 800.
Proof.
  split; [exact Sample_draws_range|]. split; [done|].
  split; [by vm_compute|]. split; [by vm_compute|].
  destruct (@drop_pitch_and_pan Sample.math Sample_draws_range
              SampleRain.fresh
              (RainV2.mk 0 0 [] RainV2._defaultRainParamsV2 0 0 0 0 0 0 0 0 0 None)
              Sample.idle ltac:(done) ltac:(done) ltac:(done)
              ltac:(by vm_compute) ltac:(by vm_compute)
              ltac:(done) ltac:(done)
              ltac:(by vm_compute) ltac:(by vm_compute) ltac:(by vm_compute))
    as [(n & grain & frequency & pan & E & Hlo & Hhi & _) _].
  exists n, grain, frequency, pan.
  split; [exact E|]. split; [exact Hlo|exact Hhi].
Defined.

Lemma tick_schedules_the_drops_due_witness :
  0 < RainV2.const_drops_rate RainV2._defaultRainParamsV2
  ∧ 0 <= 0 + 5
  ∧ 0 + 5 < inject_Z (Z.of_nat 3)
            * (1 / RainV2.const_drops_rate RainV2._defaultRainParamsV2)
  ∧ 0 <= currentTime Sample.idle
  ∧ 0 <= RainV2.const_drops_decayTime RainV2._defaultRainParamsV2
  ∧ 1 <= sampleRate Sample.idle
         * RainV2.const_drops_decayTime RainV2._defaultRainParamsV2
  ∧ ∃ this' h' drops,
      @RainV2.tick Sample.math 3
         (RainV2.mk 0 0 [] RainV2._defaultRainParamsV2 0 0 0 0 0 0 0 0 0 None)
         5 Sample.idle
      = Done (this', h')
      ∧ voices h' = voices Sample.idle ++ drops
      ∧ Forall (λ v, is_drop v = true) drops.
Proof.
  split; [done|]. split; [done|]. split; [done|]. split; [done|].
  split; [by vm_compute|]. split; [by vm_compute|].
  destruct (@tick_schedules_the_drops_due Sample.math
              (RainV2.mk 0 0 [] RainV2._defaultRainParamsV2 0 0 0 0 0 0 0 0 0 None)
              5 3 Sample.idle ltac:(done) ltac:(done) ltac:(done)
              ltac:(done) ltac:(by vm_compute) ltac:(by vm_compute)
              ltac:(by vm_compute))
    as (this' & h' & drops & E & Hv & Hall & _).
  exists this', h', drops. split; [exact E|]. split; [exact Hv|exact Hall].
Defined.

(** ** The rain generator (V1) from start to stop *)

Section Frame.
Context `{MathHost}.
Context {B : Type} (f : host → B).
Hypothesis nodes_blind : ∀ ns h, f (with_nodes ns h) = f h.
Hypothesis draws_blind : ∀ n h, f (with_random_calls n h) = f h.

Lemma preserves_ret {A} (a : A) : preserves f (ret a).
Proof. intros h a' h' [= _ <-]. done. Qed.

Lemma preserves_bind {A C} (m : M host A) (k : A → M host C) :
preserves f m → (∀ a, preserves f (k a)) → preserves f (bind m k).
Proof.
intros Hm Hk h c h'. unfold bind.
destruct (m h) as [[a h1]|] eqn:E; [|done].
intros Ek. rewrite (Hk a _ _ _ Ek). by eapply Hm.
Qed.

Lemma preserves_only_draws {A} (m : M host A) : only_draws m → preserves f m.
Proof.
intros Hm h a h' E. destruct (Hm h) as (a' & n & E').
rewrite E in E'. injection E' as _ ->. apply draws_blind.
Qed.

Lemma preserves_update_node id g : preserves f (update_node id g).
Proof. intros h a h' [= _ <-]. apply nodes_blind. Qed.

Lemma preserves_createNode k : preserves f (createNode k).
Proof. intros h a h' [= _ <-]. apply nodes_blind. Qed.

Lemma preserves_start_source id : preserves f (start_source id).
Proof.
intros h a h'. unfold start_source.
destruct (nodes h !! id) as [n|]; [|done].
destruct (state n); try done. apply preserves_update_node.
Qed.

Lemma preserves_stop_source id : preserves f (stop_source id).
Proof.
intros h a h'. unfold stop_source.
destruct (nodes h !! id) as [n|]; [|done].
destruct (state n); try done; apply preserves_update_node.
Qed.

Lemma preserves_set_param p v : preserves f (set_param p v).
Proof. destruct p; apply preserves_update_node. Qed.
End Frame.

Ltac frame :=
  repeat first
    [ apply preserves_ret
    | apply preserves_update_node; [reflexivity]
    | apply preserves_createNode; [reflexivity]
    | apply preserves_start_source; [reflexivity]
    | apply preserves_stop_source; [reflexivity]
    | apply preserves_set_param; [reflexivity]
    | apply preserves_bind; [|intros ?]
    | match goal with
      | |- preserves _ (match ?x with _ => _ end) => destruct x
      end ].

Section Lifecycle.
Context `{MathHost}.
Implicit Types (l : list (node_kind * playback * bool)) (T : gmap nat Q * nat).

Lemma during_ret {A} (a : A) P (Q : A → _ → Prop) :
(∀ sc, P sc → Q a sc) → during P (ret a) Q.
Proof. intros HPQ h HP. exists a, h. eauto. Qed.

Lemma during_bind {A C} (m : M host A) (k : A → M host C) P R Q :
during P m R → (∀ a, during (R a) (k a) Q) → during P (bind m k) Q.
Proof.
intros Hm Hk h HP. destruct (Hm h HP) as (a & h1 & E1 & HR).
destruct (Hk a h1 HR) as (b & h2 & E2 & HQ).
exists b, h2. unfold bind. rewrite E1. eauto.
Qed.

Lemma during_conseq {A} (m : M host A) (P P' : _ → Prop) (Q Q' : A → _ → Prop) :
(∀ sc, P' sc → P sc) → (∀ a sc, Q a sc → Q' a sc) → during P m Q → during P' m Q'.
Proof.
intros HP HQ Hm h HP'. destruct (Hm h (HP _ HP')) as (a & h' & E & HQa).
exists a, h'. eauto.
Qed.

Lemma during_exact {A} (m : M host A) P Q :
(∀ sc, P sc → during (eq sc) m Q) → during P m Q.
Proof. intros Hall h HP. by apply (Hall (scene h) HP h). Qed.

(** A computation that leaves the timers alone does to the scene what it
  does to the sources. *)
Lemma during_sources {A} (m : M host A) l T (Q : A → _ → Prop) :
triple (eq l) m Q → preserves timers m →
during (eq (l, T)) m (λ a sc, Q a sc.1 ∧ sc.2 = T).
Proof.
intros Hm Hf h [= Hl HT]. destruct (Hm h Hl) as (a & h' & E & HQ).
exists a, h'. split; [done|]. split; [done|].
simpl. rewrite (Hf _ _ _ E). done.
Qed.

Lemma during_frame {A} (m : M host A) (P : _ → Prop) T (R : A → _ → Prop) :
triple P m R → preserves timers m →
during (λ sc, P sc.1 ∧ sc.2 = T) m (λ a sc, R a sc.1 ∧ sc.2 = T).
Proof.
intros Hm Hf h [HP HT]. destruct (Hm h HP) as (a & h' & E & HR).
exists a, h'. split; [done|]. split; [done|].
simpl. rewrite (Hf _ _ _ E). done.
Qed.

Lemma during_keeps {A} (m : M host A) P :
keeps m → preserves timers m → during P m (λ _ sc, P sc).
Proof.
intros Hk Hf h HP. destruct (Hk h) as (a & h' & E & Hs).
exists a, h'. split; [done|]. unfold scene. rewrite Hs, (Hf _ _ _ E). done.
Qed.

Lemma during_keeps_bind {A C} (m : M host A) (k : A → M host C) P Q :
keeps m → preserves timers m → (∀ a, during P (k a) Q) → during P (bind m k) Q.
Proof.
intros Hk Hf Hrest. eapply during_bind; [by apply during_keeps|]. apply Hrest.
Qed.

Lemma during_setInterval period l ids n :
during (eq (l, (ids, n))) (setInterval period)
       (λ id sc, id = S n ∧ sc = (l, (<[S n := period]> ids, S n))).
Proof.
intros h Hsc. unfold scene, timers in Hsc. injection Hsc as Hl Hids Hn.
eexists _, _. split; [reflexivity|].
unfold scene, timers, sigs. simpl. by rewrite Hl, Hids, Hn.
Qed.

Lemma during_clearInterval id l ids n :
during (eq (l, (ids, n))) (clearInterval id)
       (λ _ sc, sc = (l, (delete id ids, n))).
Proof.
intros h Hsc. unfold scene, timers in Hsc. injection Hsc as Hl Hids Hn.
eexists _, _. split; [reflexivity|].
unfold scene, timers, sigs. simpl. by rewrite Hl, Hids, Hn.
Qed.

Lemma insert_end_source id k s b l :
l !! id = Some (k, s, b) → <[id := (k, Ended, b)]> l = end_source id l.
Proof.
intros Hl. unfold end_source. apply list_eq. intros i.
destruct (decide (i = id)) as [->|Hne].
- rewrite list_lookup_insert_eq by (by eapply lookup_lt_Some).
  by rewrite list_lookup_alter_eq, Hl.
- by rewrite list_lookup_insert_ne, list_lookup_alter_ne.
Qed.

Lemma length_end_source id l : length (end_source id l) = length l.
Proof. apply length_alter. Qed.

Lemma only_draws_fill_pink_v1 n : ∀ from b0 b1 b2 b3 b4 b5 b6 data,
only_draws (RainV1.fill_pink from n b0 b1 b2 b3 b4 b5 b6 data).
Proof.
induction n as [|n IH]; intros from b0 b1 b2 b3 b4 b5 b6 data; simpl.
- apply only_draws_ret.
- apply only_draws_bind; [apply only_draws_random|]. intros r. apply IH.
Qed.

(** The buffer that [_startNoise] fills. *)
Lemma only_draws_noise (type : NoiseType) (bufferSize : Q) :
only_draws (match type with
            | white =>
                fill 0 (iterations bufferSize)
                  (λ _, let* r := Math_random in ret (r * 2 - 1))
                  (createBuffer bufferSize)
            | pink =>
                RainV1.fill_pink 0 (iterations bufferSize) 0 0 0 0 0 0 0
                  (createBuffer bufferSize)
            end).
Proof.
destruct type.
- apply only_draws_fill_pink_v1.
- apply only_draws_fill. intros ?.
  apply only_draws_bind; [apply only_draws_random|]. intros r.
  apply only_draws_ret.
Qed.

(** [_startNoise] stops the noise source that the generator holds, if it
  holds one, and adds a looping source that plays. *)
Lemma startNoise_sources (this : RainV1.RainGenerator) l0 :
match RainV1.noiseNode this with
| Some id => ∃ k s b, l0 !! id = Some (k, s, b) ∧ s ≠ Unscheduled
| None => True
end →
triple (eq l0) (RainV1._startNoise this)
  (λ this' l,
     this' = RainV1.with_noiseNode (Some (length l0)) this
     ∧ l = match RainV1.noiseNode this with
           | Some id => end_source id l0
           | None => l0
           end ++ [(BufferSource, Playing, true)]).
Proof.
intros Hold. unfold RainV1._startNoise.
set (l1 := match RainV1.noiseNode this with
           | Some id => end_source id l0
           | None => l0
           end).
assert (length l1 = length l0) as Hlen.
{ unfold l1. destruct (RainV1.noiseNode this); [apply length_end_source|done]. }
eapply (triple_bind _ _ _
          (λ this1 l, this1 = RainV1.with_noiseNode None this ∧ l = l1)).
{ unfold l1. destruct this as [? ? ? ? ? ? ? ? [id|] ? ? ? ? ?]; simpl in *.
  - destruct Hold as (k & s & b & Hl & Hs).
    eapply triple_bind; [by apply (triple_stop_source id k s b)|]. intros ?.
    apply triple_keeps_bind; [apply keeps_disconnect|intros ?].
    apply triple_ret. intros l ->. split; [done|].
    by apply (insert_end_source _ _ s).
  - apply triple_ret. by intros l <-. }
intros this1. apply triple_exact. intros l [-> ->].
apply triple_keeps_bind; [apply keeps_only_draws, only_draws_rate|intros sr].
apply triple_keeps_bind;
  [apply keeps_only_draws, (only_draws_noise _ (2 * sr))|intros output].
eapply triple_bind; [apply triple_createNode|]. intros id.
apply triple_exact. intros l2 [Hid Hl2]. subst id l2.
apply triple_keeps_bind; [apply keeps_set_buffer|intros ?].
eapply triple_bind; [apply triple_set_loop|]. intros ?.
apply triple_exact. intros l2 Hl2. subst l2.
rewrite <- (Nat.add_0_r (length l1)) at 1. rewrite alter_app_r. simpl.
apply triple_keeps_bind; [apply keeps_connect|intros ?].
eapply triple_bind.
{ apply (triple_start_source _ BufferSource true). by apply list_lookup_middle. }
intros ?. apply triple_ret. intros l ->. split.
- rewrite Hlen. by destruct this.
- rewrite <- (Nat.add_0_r (length l1)) at 1. by rewrite insert_app_r.
Qed.

Lemma startNoise_timers (this : RainV1.RainGenerator) :
preserves timers (RainV1._startNoise this).
Proof.
unfold RainV1._startNoise. frame.
- apply preserves_only_draws; [reflexivity|apply only_draws_rate].
- apply preserves_only_draws; [reflexivity|apply only_draws_fill_pink_v1].
- apply preserves_only_draws; [reflexivity|]. apply only_draws_fill. intros ?.
  apply only_draws_bind; [apply only_draws_random|]. intros r.
  apply only_draws_ret.
Qed.

(** [setOscParam] stops the oscillator that the map holds for [id], if it
  holds one; while the generator runs and the parameter oscillates, it
  adds an oscillator that plays, with its gain, and records them. *)
Lemma setOscParam_sources (this : RainV1.RainGenerator) (param : OscParam.t)
  (target : audio_param) (id : string) l0 :
match RainV1.lfoMap this !! id with
| Some (o, g) => ∃ k s b, l0 !! o = Some (k, s, b) ∧ s ≠ Unscheduled
| None => True
end →
triple (eq l0) (RainV1.setOscParam this param target id)
  (λ this' l,
     this' = RainV1.with_lfoMap
               (lfo_entry (RainV1.running this) param id (length l0)
                  (delete id (RainV1.lfoMap this))) this
     ∧ l = match RainV1.lfoMap this !! id with
           | Some (o, g) => end_source o l0
           | None => l0
           end ++ lfo_sigs (RainV1.running this) param).
Proof.
intros Hold. unfold RainV1.setOscParam.
set (l1 := match RainV1.lfoMap this !! id with
           | Some (o, g) => end_source o l0
           | None => l0
           end).
assert (length l1 = length l0) as Hlen.
{ unfold l1. destruct (RainV1.lfoMap this !! id) as [[o g]|];
    [apply length_end_source|done]. }
eapply (triple_bind _ _ _
          (λ this1 l,
             this1 = RainV1.with_lfoMap (delete id (RainV1.lfoMap this)) this
             ∧ l = l1)).
{ unfold l1. destruct (RainV1.lfoMap this !! id) as [[o g]|] eqn:Hid.
  - destruct Hold as (k & s & b & Hl & Hs).
    eapply triple_bind; [by apply (triple_stop_source o k s b)|]. intros ?.
    apply triple_keeps_bind; [apply keeps_disconnect|intros ?].
    apply triple_keeps_bind; [apply keeps_disconnect|intros ?].
    apply triple_ret. intros l ->. split; [done|].
    by apply (insert_end_source _ _ s).
  - apply triple_ret. intros l <-. split; [|done].
    rewrite delete_id by done. by destruct this. }
intros this1. apply triple_exact. intros l [-> ->].
apply triple_keeps_bind; [apply keeps_set_param|intros ?].
unfold lfo_entry, lfo_sigs. cbn [RainV1.running RainV1.with_lfoMap].
destruct (RainV1.running this && OscParam.osc param).
- eapply triple_bind; [apply triple_createNode|]. intros o.
  apply triple_exact. intros l2 [Ho Hl2]. subst o l2.
  eapply triple_bind; [apply triple_createNode|]. intros g.
  apply triple_exact. intros l2 [Hg Hl2]. subst g l2.
  apply triple_keeps_bind; [apply keeps_set_frequency|intros ?].
  apply triple_keeps_bind; [apply keeps_set_gain|intros ?].
  apply triple_keeps_bind; [apply keeps_connect|intros ?].
  apply triple_keeps_bind; [apply keeps_connect|intros ?].
  eapply triple_bind.
  { apply (triple_start_source _ Oscillator false).
    rewrite <- app_assoc. by apply list_lookup_middle. }
  intros ?. apply triple_ret. intros l ->.
  split.
  + rewrite length_app, Hlen. simpl. rewrite Nat.add_1_r. by destruct this.
  + rewrite <- app_assoc. simpl.
    rewrite <- (Nat.add_0_r (length l1)) at 1. by rewrite insert_app_r.
- apply triple_ret. intros l ->. split; [by destruct this|].
  by rewrite app_nil_r.
Qed.

Lemma setOscParam_timers (this : RainV1.RainGenerator) (param : OscParam.t)
  (target : audio_param) (id : string) :
preserves timers (RainV1.setOscParam this param target id).
Proof. unfold RainV1.setOscParam. frame. Qed.

Lemma lfo_entry_lookup_ne running p id at_ (m : gmap string (nat * nat)) id' :
id ≠ id' → lfo_entry running p id at_ m !! id' = m !! id'.
Proof.
intros Hne. unfold lfo_entry.
destruct (running && OscParam.osc p); by rewrite ?lookup_insert_ne.
Qed.

Lemma lfo_entry_delete_ne running p id at_ (m : gmap string (nat * nat)) id' :
id ≠ id' →
delete id' (lfo_entry running p id at_ m) = lfo_entry running p id at_ (delete id' m).
Proof.
intros Hne. unfold lfo_entry.
destruct (running && OscParam.osc p); by rewrite ?delete_insert_ne.
Qed.

Ltac norm :=
  cbv beta iota delta
    [RainV1.with_params RainV1.with_lfoMap RainV1.with_noiseNode
     RainV1.with_dropInterval RainV1.with_running RainV1.with_noiseType
     RainV1.with_noiseFilterFreq RainV1.with_dropReverbLevel
     RainV1.with_dropRate RainV1.with_dropPanRange RainV1.with_dropDecayTime
     RainV1.output RainV1.noiseGainNode RainV1.dropGainNode
     RainV1.dryDropGainNode RainV1.reverbNode RainV1.dryGain RainV1.wetGain
     RainV1.noiseFilter RainV1.noiseNode RainV1.dropInterval RainV1.running
     RainV1.params RainV1.eqBands RainV1.lfoMap
     RainV1.volume RainV1.eqGains RainV1.noiseLevel RainV1.noiseType
     RainV1.noiseFilterFreq RainV1.dropDryLevel RainV1.dropWetLevel
     RainV1.dropRate RainV1.dropMinPitch RainV1.dropMaxPitch
     RainV1.dropDecayTime RainV1.dropReverbLevel RainV1.dropPanRange
     RainV1.dropQ].

(** [start] on a generator that is not running. *)
Lemma start_scene (this : RainV1.RainGenerator) l0 ids n :
quiet this →
let ps := RainV1.params this in
let period := 1000 / RainV1.dropRate ps in
during (eq (l0, (ids, n))) (RainV1.start this)
  (λ this' sc,
     this' = running_from this (length l0) (S (S n))
     ∧ sc = (l0 ++ [(BufferSource, Playing, true)]
                ++ lfo_sigs true (RainV1.noiseFilterFreq ps)
                ++ lfo_sigs true (RainV1.dropReverbLevel ps),
             (<[S (S n) := period]> (<[S n := period]> ids), S (S n)))).
Proof.
intros (Hr & Hn & Hd & Hl) ps period. unfold RainV1.start. rewrite Hr.
destruct this as [o ngn dgn ddgn rv dg wg nf nn di rn ps' eb lm].
simpl in Hr, Hn, Hd, Hl, ps. subst nn di rn lm. subst ps.
destruct ps' as [vol eqg nl ty ff ddl dwl rate minp maxp dec rl pan q].
simpl in period.
cbn [RainV1.with_running RainV1.output RainV1.noiseGainNode RainV1.dropGainNode
     RainV1.dryDropGainNode RainV1.dryGain RainV1.wetGain RainV1.params
     RainV1.volume RainV1.dropWetLevel RainV1.dropDryLevel RainV1.noiseLevel
     RainV1.dropReverbLevel RainV1.noiseType RainV1.reverbNode RainV1.noiseFilter
     RainV1.noiseNode RainV1.dropInterval RainV1.running RainV1.eqBands
     RainV1.lfoMap].
do 6 (apply during_keeps_bind; [apply keeps_set_gain|frame|intros ?]).
(* the noise *)
unfold RainV1.setNoiseType. cbn -[Qdiv].
eapply during_bind.
{ apply (during_sources _ l0 (ids, n));
    [by apply startNoise_sources|apply startNoise_timers]. }
intros this1. apply during_exact. intros [l1 T1] [[-> Hl1] HT1].
cbn -[Qdiv] in Hl1, HT1. subst l1 T1.
(* the two oscillating parameters *)
unfold RainV1.setNoiseFilterFreq. cbn -[Qdiv lfo_entry lfo_sigs].
eapply during_bind.
{ apply (during_sources _ _ (ids, n));
    [by apply setOscParam_sources|apply setOscParam_timers]. }
intros this2. apply during_exact. intros [l2 T2] [[-> Hl2] HT2].
cbn -[Qdiv lfo_entry lfo_sigs] in Hl2, HT2. subst l2 T2.
unfold RainV1.setDropReverbLevel. cbn -[Qdiv lfo_entry lfo_sigs].
rewrite ?lookup_empty, ?delete_empty, length_app, Nat.add_1_r. cbn [length].
eapply during_bind.
{ apply (during_sources _ _ (ids, n));
    [apply setOscParam_sources|apply setOscParam_timers].
  cbn -[lfo_entry]. by rewrite lfo_entry_lookup_ne, lookup_empty. }
intros this3. apply during_exact. intros [l3 T3] [[-> Hl3] HT3].
cbn -[Qdiv lfo_entry lfo_sigs] in Hl3, HT3. subst l3 T3.
(* the two intervals *)
unfold RainV1.setDropRate. norm.
rewrite lfo_entry_lookup_ne, lookup_empty, lfo_entry_delete_ne, delete_empty by done.
match goal with
| |- during (eq (?l, _)) (bind (bind _ (λ _, RainV1._startDrops ?t)) _) _ =>
    set (l3 := l); set (t3 := t)
end.
eapply (during_bind _ _ _
          (λ this sc,
             this = RainV1.with_dropInterval (Some (S n)) t3
             ∧ sc = (l3, (<[S n := period]> ids, S n)))).
{ eapply (during_bind _ _ _ (λ _ sc, (l3, (ids, n)) = sc));
    [by apply during_ret|]. intros ?.
  unfold RainV1._startDrops.
  eapply during_bind; [apply during_setInterval|].
  intros id1. apply during_exact. intros sc [-> ->].
  apply during_ret. intros sc <-. by subst t3. }
intros this4. apply during_exact. intros sc [-> ->].
unfold RainV1._startDrops, RainV1.setPanRange. subst t3. norm.
eapply during_bind; [apply during_setInterval|].
intros id2. apply during_exact. intros sc [-> ->].
apply during_ret. intros sc <-. subst l3. split.
- unfold running_from. norm. rewrite !length_app. cbn [length].
  replace (length l0 + 1 + length (lfo_sigs true ff))%nat
    with (S (length l0) + length (lfo_sigs true ff))%nat by lia.
  reflexivity.
- by rewrite <- !app_assoc.
Qed.

Lemma live_insert l i x y :
l !! i = Some x →
(live (<[i := y]> l) + (if is_live_sig x then 1 else 0)
 = live l + (if is_live_sig y then 1 else 0))%nat.
Proof.
intros Hi. unfold live.
rewrite <- (take_drop_middle l i x Hi) at 2.
rewrite insert_take_drop by (by eapply lookup_lt_Some).
rewrite !List.filter_app, !length_app. simpl.
destruct (is_live_sig x), (is_live_sig y); simpl; lia.
Qed.

Lemma tidy_sources_started this h :
tidy this (sigs h) → sources_started this h.
Proof.
intros [Hnoise Hlfo] id [Hid|(key & g & Hid)].
- exists BufferSource, Playing, true. by split; [apply Hnoise|].
- exists Oscillator, Playing, false. by split; [eapply Hlfo|].
Qed.

(** What [start] leaves is in order. *)
Lemma running_from_tidy this l0 n :
tidy (running_from this (length l0) n)
     (l0 ++ [(BufferSource, Playing, true)]
         ++ lfo_sigs true (RainV1.noiseFilterFreq (RainV1.params this))
         ++ lfo_sigs true (RainV1.dropReverbLevel (RainV1.params this))).
Proof.
unfold running_from, tidy, lfo_entry, lfo_sigs.
cbn [RainV1.noiseNode RainV1.lfoMap andb].
split.
- intros id [= <-]. by apply list_lookup_middle.
- intros key o g.
  destruct (OscParam.osc (RainV1.noiseFilterFreq (RainV1.params this))),
           (OscParam.osc (RainV1.dropReverbLevel (RainV1.params this)));
    cbn [length app Nat.add]; intros Hkey.
  + apply lookup_insert_Some in Hkey as [[_ [= <- _]]|[_ Hkey]].
    { rewrite lookup_app_r by lia.
      match goal with |- _ !! ?i = _ => by replace i with 3%nat by lia end. }
    apply lookup_insert_Some in Hkey as [[_ [= <- _]]|[_ Hkey]]; [|done].
    rewrite lookup_app_r by lia.
    match goal with |- _ !! ?i = _ => by replace i with 1%nat by lia end.
  + apply lookup_insert_Some in Hkey as [[_ [= <- _]]|[_ Hkey]]; [|done].
    rewrite lookup_app_r by lia.
    match goal with |- _ !! ?i = _ => by replace i with 1%nat by lia end.
  + rewrite Nat.add_0_r in Hkey.
    apply lookup_insert_Some in Hkey as [[_ [= <- _]]|[_ Hkey]]; [|done].
    rewrite lookup_app_r by lia.
    match goal with |- _ !! ?i = _ => by replace i with 1%nat by lia end.
  + done.
Qed.

Lemma live_lfo_sigs running p : live (lfo_sigs running p) = 0%nat.
Proof. unfold lfo_sigs. by destruct (running && OscParam.osc p). Qed.

Lemma live_app l1 l2 : live (l1 ++ l2) = (live l1 + live l2)%nat.
Proof. apply live_sigs_app. Qed.

(** Stopping the oscillators of the LFO map changes no looping source. *)
Lemma stop_lfos_sources (lfos : list (string * (nat * nat))) (c k : nat) :
triple (λ l, live l = c ∧ length l = k
             ∧ ∀ key o g, (key, (o, g)) ∈ lfos →
                 ∃ s, l !! o = Some (Oscillator, s, false) ∧ s ≠ Unscheduled)
       (RainV1.stop_lfos lfos)
       (λ _ l, live l = c ∧ length l = k).
Proof.
induction lfos as [|[key [o g]] lfos IH]; simpl.
- apply triple_ret. by intros l (? & ? & _).
- apply triple_exact. intros l (Hc & Hk & Hall).
  destruct (Hall key o g) as (s & Ho & Hs); [left|].
  eapply triple_bind; [by apply (triple_stop_source o Oscillator s false)|].
  intros ?.
  apply triple_keeps_bind; [apply keeps_disconnect|intros ?].
  apply triple_keeps_bind; [apply keeps_disconnect|intros ?].
  eapply triple_conseq; [|intros ? ? HQ; exact HQ|apply IH].
  intros l' ->. split; [|split].
  + pose proof (live_insert l o _ (Oscillator, Ended, false) Ho) as Hlive.
    simpl in Hlive. lia.
  + by rewrite length_insert.
  + intros key' o' g' Hin.
    destruct (Hall key' o' g') as (s' & Ho' & Hs'); [by right|].
    destruct (decide (o = o')) as [<-|Hne].
    * exists Ended. split; [|done].
      apply list_lookup_insert_eq. by eapply lookup_lt_Some.
    * exists s'. by rewrite list_lookup_insert_ne.
Qed.

Lemma stop_lfos_timers lfos : preserves timers (RainV1.stop_lfos lfos).
Proof. induction lfos as [|[key [o g]] lfos IH]; simpl; frame. apply IH. Qed.

Lemma stop_noise_scene {A} (x : A) (id : nat) l0 (T : gmap nat Q * nat) :
l0 !! id = Some (BufferSource, Playing, true) →
during (eq (l0, T)) (stop_source id ;; disconnect id ;; ret x)
  (λ t sc, t = x ∧ sc = (<[id := (BufferSource, Ended, true)]> l0, T)).
Proof.
intros Hid.
eapply during_conseq;
  [| |apply (during_sources _ l0 T
               (λ t l, t = x ∧ l = <[id := (BufferSource, Ended, true)]> l0))].
- by intros sc <-.
- intros t [l T'] [[-> Hl] HT]. simpl in Hl, HT. by subst.
- eapply triple_bind;
    [by apply (triple_stop_source id BufferSource Playing true)|].
  intros ?. apply triple_keeps_bind; [apply keeps_disconnect|intros ?].
  apply triple_ret. by intros l ->.
- frame.
Qed.

(** [stop] on a generator whose sources are in order. *)
Lemma stop_scene (this : RainV1.RainGenerator) l0 ids n :
tidy this l0 →
during (eq (l0, (ids, n))) (RainV1.stop this)
  (λ this' sc,
     this' = stopped this
     ∧ (live sc.1 + (if RainV1.noiseNode this is Some _ then 1 else 0))%nat
       = live l0
     ∧ length sc.1 = length l0
     ∧ sc.2 = (match RainV1.dropInterval this with
               | Some id => delete id ids
               | None => ids
               end, n)).
Proof.
intros [Hnoise Hlfo]. unfold RainV1.stop.
set (l1 := match RainV1.noiseNode this with
           | Some id => <[id := (BufferSource, Ended, true)]> l0
           | None => l0
           end).
assert ((live l1 + (if RainV1.noiseNode this is Some _ then 1 else 0))%nat
        = live l0 ∧ length l1 = length l0) as [Hlive Hlen].
{ unfold l1. destruct (RainV1.noiseNode this) as [id|]; [|split; [lia|done]].
  pose proof (live_insert l0 id _ (BufferSource, Ended, true)
                (Hnoise id eq_refl)) as Hl.
  simpl in Hl. rewrite length_insert. split; [lia|done]. }
assert (∀ key o g, RainV1.lfoMap this !! key = Some (o, g) →
          ∃ s, l1 !! o = Some (Oscillator, s, false) ∧ s ≠ Unscheduled)
  as Hlfo1.
{ intros key o g Hkey. exists Playing. split; [|done].
  unfold l1. destruct (RainV1.noiseNode this) as [id|]; [|by eapply Hlfo].
  rewrite list_lookup_insert_ne; [by eapply Hlfo|].
  intros <-. specialize (Hnoise id eq_refl).
  rewrite (Hlfo _ _ _ Hkey) in Hnoise. done. }
assert (during (eq (l0, (ids, n)))
          (match RainV1.noiseNode (RainV1.with_running false this) with
           | Some id =>
               stop_source id ;; disconnect id ;;
               ret (RainV1.with_noiseNode None (RainV1.with_running false this))
           | None => ret (RainV1.with_running false this)
           end)
          (λ t sc, t = RainV1.with_noiseNode None (RainV1.with_running false this)
                   ∧ sc = (l1, (ids, n)))) as Hstep.
{ unfold l1. destruct this as [? ? ? ? ? ? ? ? [id|] ? ? ? ? ?]; simpl in *.
  - apply stop_noise_scene. by apply Hnoise.
  - apply during_ret. by intros sc <-. }
clearbody l1.
eapply during_bind; [exact Hstep|]. clear Hstep.
intros t1. apply during_exact. intros sc [-> ->].
eapply (during_bind _ _ _
          (λ t sc,
             t = RainV1.with_dropInterval None
                   (RainV1.with_noiseNode None (RainV1.with_running false this))
             ∧ sc = (l1, (match RainV1.dropInterval this with
                          | Some id => delete id ids
                          | None => ids
                          end, n)))).
{ destruct this as [? ? ? ? ? ? ? ? ? [id|] ? ? ? ?]; simpl.
  - eapply during_bind; [apply during_clearInterval|]. intros ?.
    apply during_ret. by intros sc ->.
  - apply during_ret. by intros sc <-. }
intros t2. apply during_exact. intros sc [-> ->].
eapply during_bind.
{ eapply during_conseq;
    [| |apply (during_frame _ _
                 (match RainV1.dropInterval this with
                  | Some id => delete id ids
                  | None => ids
                  end, n) _
                 (stop_lfos_sources _ (live l1) (length l1))
                 (stop_lfos_timers _))].
  - intros sc <-. split; [|reflexivity]. simpl. split; [done|]. split; [done|].
    intros key o g Hin. apply elem_of_map_to_list in Hin.
    eapply Hlfo1. revert Hin. by destruct this.
  - intros a sc HQ. exact HQ. }
intros ?. apply during_exact. intros [l2 T2] [[Hl2 Hk2] HT2].
simpl in HT2. subst T2.
do 6 (apply during_keeps_bind; [apply keeps_set_gain|frame|intros ?]).
apply during_ret. intros sc <-. simpl in *.
split; [by destruct this|]. split; [lia|]. split; [lia|done].
Qed.

(** [start] and [stop] on a context. *)
Lemma start_run (this : RainV1.RainGenerator) h :
quiet this →
let ps := RainV1.params this in
∃ h',
  RainV1.start this h
  = Done (running_from this (length (nodes h)) (S (S (next_handle h))), h')
  ∧ sigs h' = sigs h ++ [(BufferSource, Playing, true)]
                ++ lfo_sigs true (RainV1.noiseFilterFreq ps)
                ++ lfo_sigs true (RainV1.dropReverbLevel ps)
  ∧ handles h' = <[S (S (next_handle h)) := 1000 / RainV1.dropRate ps]>
                   (<[S (next_handle h) := 1000 / RainV1.dropRate ps]> (handles h))
  ∧ next_handle h' = S (S (next_handle h)).
Proof.
intros Hq ps.
destruct (start_scene this (sigs h) (handles h) (next_handle h) Hq h eq_refl)
  as (this' & h' & E & -> & Hsc).
unfold scene, timers in Hsc. injection Hsc as Hs Hh Hn.
exists h'. unfold sigs in E at 1. rewrite length_fmap in E. done.
Qed.

Lemma stop_run (this : RainV1.RainGenerator) h :
tidy this (sigs h) →
∃ h',
  RainV1.stop this h = Done (stopped this, h')
  ∧ (live (sigs h') + (if RainV1.noiseNode this is Some _ then 1 else 0))%nat
    = live (sigs h)
  ∧ handles h' = match RainV1.dropInterval this with
                 | Some id => delete id (handles h)
                 | None => handles h
                 end.
Proof.
intros Ht.
destruct (stop_scene this (sigs h) (handles h) (next_handle h) Ht h eq_refl)
  as (this' & h' & E & -> & Hlive & _ & Hsc).
unfold scene, timers in Hlive, Hsc. simpl in Hlive, Hsc.
injection Hsc as Hh _. by exists h'.
Qed.

Lemma stopped_running_from this at_ timer :
quiet this → stopped (running_from this at_ timer) = this.
Proof.
intros (Hr & Hn & Hd & Hl). destruct this. simpl in *. by subst.
Qed.

(** X11: [start] on a rain generator at rest returns with the generator
    running and holding the node it has just created as its noise source;
    the context has one more looping source that plays, and every source
    that the generator holds was started. *)
Theorem start_plays_its_sources (this : RainV1.RainGenerator) h :
quiet this →
∃ this' h',
  RainV1.start this h = Done (this', h')
  ∧ RainV1.running this' = true
  ∧ RainV1.noiseNode this' = Some (length (nodes h))
  ∧ live_loops h' = S (live_loops h)
  ∧ sources_started this' h'.
Proof.
intros Hq. destruct (start_run this h Hq) as (h' & E & Hs & _).
eexists _, h'. split; [exact E|]. split; [done|]. split; [done|]. split.
- rewrite !live_loops_sigs, Hs. fold (live (sigs h)).
  rewrite !live_sigs_app. fold (live (sigs h)).
  fold (live (lfo_sigs true (RainV1.noiseFilterFreq (RainV1.params this)))).
  fold (live (lfo_sigs true (RainV1.dropReverbLevel (RainV1.params this)))).
  rewrite !live_lfo_sigs. simpl. lia.
- apply tidy_sources_started. rewrite Hs.
  rewrite <- (length_fmap sig (nodes h)). apply running_from_tidy.
Qed.

(** X12: [start] on a rain generator at rest arms two drop intervals of
    the same period, 1000 / dropRate milliseconds, and the generator keeps
    the handle of the second one only. *)
Theorem start_arms_two_intervals (this : RainV1.RainGenerator) h :
quiet this →
∃ this' h',
  RainV1.start this h = Done (this', h')
  ∧ handles h'
    = <[S (S (next_handle h)) := 1000 / RainV1.dropRate (RainV1.params this)]>
        (<[S (next_handle h) := 1000 / RainV1.dropRate (RainV1.params this)]>
           (handles h))
  ∧ RainV1.dropInterval this' = Some (S (S (next_handle h))).
Proof.
intros Hq. destruct (start_run this h Hq) as (h' & E & _ & Hh & _).
eexists _, h'. split; [exact E|]. by split.
Qed.

(** X13: [stop] after [start] gives back the generator as it was at rest,
    and the context plays as many looping sources as before [start]. *)
Theorem stop_undoes_start (this : RainV1.RainGenerator) h :
quiet this →
∃ this1 h1 h2,
  RainV1.start this h = Done (this1, h1)
  ∧ RainV1.stop this1 h1 = Done (this, h2)
  ∧ live_loops h2 = live_loops h.
Proof.
intros Hq. destruct (start_run this h Hq) as (h1 & E1 & Hs & _).
destruct (stop_run (running_from this (length (nodes h)) (S (S (next_handle h)))) h1)
  as (h2 & E2 & Hlive & _).
{ rewrite Hs, <- (length_fmap sig (nodes h)). apply running_from_tidy. }
rewrite stopped_running_from in E2 by done.
eexists _, h1, h2. split; [exact E1|]. split; [exact E2|].
rewrite !live_loops_sigs. fold (live (sigs h2)) (live (sigs h)).
simpl in Hlive. rewrite Hs, !live_app, !live_lfo_sigs in Hlive.
unfold live in *. simpl in Hlive. lia.
Qed.

(** X14: the first of the two intervals that [start] arms outlives
    [stop]: it is still armed, and the generator holds no handle. *)
Theorem stop_leaves_an_interval_armed (this : RainV1.RainGenerator) h :
quiet this →
∃ this1 h1 this2 h2,
  RainV1.start this h = Done (this1, h1)
  ∧ RainV1.stop this1 h1 = Done (this2, h2)
  ∧ RainV1.dropInterval this2 = None
  ∧ handles h2 !! S (next_handle h)
    = Some (1000 / RainV1.dropRate (RainV1.params this)).
Proof.
intros Hq. destruct (start_run this h Hq) as (h1 & E1 & Hs & Hh & _).
destruct (stop_run (running_from this (length (nodes h)) (S (S (next_handle h)))) h1)
  as (h2 & E2 & _ & Hh2).
{ rewrite Hs, <- (length_fmap sig (nodes h)). apply running_from_tidy. }
eexists _, h1, _, h2. split; [exact E1|]. split; [exact E2|]. split; [done|].
simpl in Hh2. rewrite Hh2, Hh.
rewrite lookup_delete_ne by lia. rewrite lookup_insert_ne by lia.
apply lookup_insert_eq.
Qed.
End Lifecycle.

Lemma start_plays_its_sources_witness :
  quiet SampleRain.fresh
  ∧ ∃ this' h',
      @RainV1.start Sample.math SampleRain.fresh
         (with_nodes (take 8 (nodes SampleRain.playing)) Sample.idle)
      = Done (this', h')
      ∧ RainV1.running this' = true
      ∧ RainV1.noiseNode this' = Some 8%nat
      ∧ live_loops h' = 1%nat
      ∧ sources_started this' h'.
Proof.
  split; [done|].
  exact (@start_plays_its_sources Sample.math SampleRain.fresh
           (with_nodes (take 8 (nodes SampleRain.playing)) Sample.idle)
           ltac:(done)).
Defined.

Lemma start_arms_two_intervals_witness :
  quiet SampleRain.fresh
  ∧ ∃ this' h',
      @RainV1.start Sample.math SampleRain.fresh
         (with_nodes (take 8 (nodes SampleRain.playing)) Sample.idle)
      = Done (this', h')
      ∧ handles h' = <[2%nat := 1000 / 30]> (<[1%nat := 1000 / 30]> ∅)
      ∧ RainV1.dropInterval this' = Some 2%nat.
Proof.
  split; [done|].
  exact (@start_arms_two_intervals Sample.math SampleRain.fresh
           (with_nodes (take 8 (nodes SampleRain.playing)) Sample.idle)
           ltac:(done)).
Defined.

Lemma stop_undoes_start_witness :
  quiet SampleRain.fresh
  ∧ ∃ this1 h1 h2,
      @RainV1.start Sample.math SampleRain.fresh
         (with_nodes (take 8 (nodes SampleRain.playing)) Sample.idle)
      = Done (this1, h1)
      ∧ RainV1.stop this1 h1 = Done (SampleRain.fresh, h2)
      ∧ live_loops h2 = 0%nat.
Proof.
  split; [done|].
  exact (@stop_undoes_start Sample.math SampleRain.fresh
           (with_nodes (take 8 (nodes SampleRain.playing)) Sample.idle)
           ltac:(done)).
Defined.

Lemma stop_leaves_an_interval_armed_witness :
  quiet SampleRain.fresh
  ∧ ∃ this1 h1 this2 h2,
      @RainV1.start Sample.math SampleRain.fresh
         (with_nodes (take 8 (nodes SampleRain.playing)) Sample.idle)
      = Done (this1, h1)
      ∧ RainV1.stop this1 h1 = Done (this2, h2)
      ∧ RainV1.dropInterval this2 = None
      ∧ handles h2 !! 1%nat = Some (1000 / 30).
Proof.
  split; [done|].
  exact (@stop_leaves_an_interval_armed Sample.math SampleRain.fresh
           (with_nodes (take 8 (nodes SampleRain.playing)) Sample.idle)
           ltac:(done)).
Defined.

(** ** A strike of the V1 thunder generator in time *)

Section StrikeTiming.
Context `{MathHost}.
Hypothesis random_range : ∀ n, 0 <= random_seq n < 1.

(** The callbacks of the bursts, in whatever order and whenever the host
  runs them: each plays its burst at the time that the clock reads. *)
Lemma run_bursts this fuel d v sr :
burst_accepted sr d v →
∀ schedule h,
  sampleRate h = sr →
  0 <= currentTime h →
  (length (timeouts h) ≤ length schedule)%nat →
  Forall (λ t, t.2 = SingleBurst d v) (timeouts h) →
  ∃ h' bursts,
    ThunderV1.run fuel schedule this h = Done (tt, h')
    ∧ voices h' = voices h ++ bursts
    ∧ length bursts = length (timeouts h)
    ∧ Forall (λ x, ∃ t, currentTime h <= t ∧ burst_of this d v t x) bursts
    ∧ StronglySorted (λ x y, voice_time x <= voice_time y) bursts.
Proof.
intros Hacc.
induction schedule as [|[pick clock] schedule IH]; intros h Hsr Hnow Hsteps Hall.
- destruct (timeouts h) as [|t ts] eqn:Hts; [|simpl in Hsteps; lia].
  exists h, []. simpl. unfold bind, get. rewrite Hts, app_nil_r.
  repeat split; constructor.
- cbn [ThunderV1.run]. unfold bind at 1. unfold ThunderV1.fire, bind at 1, get.
  set (i := Nat.min pick (length (timeouts h) - 1)).
  destruct (timeouts h !! i) as [[delay job]|] eqn:Hi.
  + pose proof (Forall_lookup_1 _ _ _ _ Hall Hi) as Hjob. simpl in Hjob.
    subst job.
    assert (length (delete i (timeouts h)) = length (timeouts h) - 1)%nat
      as Hlen by (apply length_delete; eauto).
    assert (0 < length (timeouts h))%nat as Hsome
      by (apply lookup_lt_Some in Hi; lia).
    unfold bind at 1, put.
    destruct (Math_max_bounds (currentTime h) clock) as (Hm & _ & _).
    set (T := Math_max (currentTime h) clock) in *.
    set (h1 := with_currentTime _ _).
    destruct (single_burst_at random_range sr T fuel this d v
                ltac:(lra) Hacc h1 Hsr eq_refl)
      as ([] & n & vs & Hrun & x & -> & Hx).
    unfold uncaught. rewrite Hrun.
    set (h2 := with_voices _ _).
    destruct (IH h2) as (h' & bursts & Hrest & Hvoices & Hlenb & Hin & Hsorted).
    { done. }
    { subst h2 h1. simpl. lra. }
    { subst h2 h1. simpl in *. lia. }
    { subst h2 h1. simpl. by apply Forall_delete. }
    exists h', (x :: bursts). split; [done|].
    subst h2 h1. simpl in *.
    split; [by rewrite Hvoices, <- app_assoc|].
    split; [rewrite Hlenb, Hlen; lia|]. split.
    * constructor; [by exists T|].
      eapply Forall_impl; [exact Hin|]. intros y (t & Ht & Hy).
      exists t. split; [lra|done].
    * constructor; [done|].
      eapply Forall_impl; [exact Hin|]. intros y (t & Ht & Hy).
      destruct x; try done. destruct y; try done. simpl.
      destruct Hx as (-> & _). destruct Hy as (-> & _). done.
  + assert (timeouts h = []) as Hnil.
    { destruct (timeouts h) as [|t0 ts] eqn:Hts; [done|].
      apply lookup_ge_None in Hi. subst i. simpl in Hi. lia. }
    unfold ret at 1.
    destruct (IH h) as (h' & bursts & Hrest);
      [done|done|rewrite Hnil; simpl; lia|done|].
    by exists h', bursts.
Qed.

(** X15: a pending strike of the V1 thunder generator whose rumble has a
    decay that is not negative and whose bursts the audio engine accepts.
    When its callback runs, at the time [T] (the later of the time of the
    context and of what the clock reads by then), it plays the rumble at
    [T] and arms a timer for each iteration of its loop, the timer of
    burst [i] with a delay between [200 * i] and [600 * i] milliseconds.
    In whatever order and whenever the host runs them, the callbacks
    play that many bursts; no burst starts before [T], the bursts start
    in the order in which they are played, each lasts between 0.8 and
    1.2 times the duration and has between 0.7 and 1.3 times the volume
    of the strike, and a burst has a reverb path only if the generator
    has a reverb buffer. *)
Theorem strike_bursts_follow_the_rumble (this : ThunderV1.ThunderGenerator)
  (h : host) (delay fs fe rv rd b d v : Q) (fuel : nat)
  (pick : nat) (clock : Q) (schedule : list (nat * Q)) :
let T := Math_max (currentTime h) clock in
timeouts h = [(delay, StrikeBody fs fe rv rd b d v)] →
0 <= currentTime h →
0 <= rd →
burst_accepted (sampleRate h) d v →
(bursts_of b ≤ fuel)%nat →
(bursts_of b ≤ length schedule)%nat →
(∃ h1,
   ThunderV1.fire fuel this pick clock h = Done (tt, h1)
   ∧ voices h1 = voices h ++ [RumbleV1 T fs fe rv rd]
   ∧ Forall2 (burst_timer d v) (seq 0 (bursts_of b)) (timeouts h1))
∧ ∃ h' bursts,
    ThunderV1.run fuel ((pick, clock) :: schedule) this h = Done (tt, h')
    ∧ voices h' = voices h ++ RumbleV1 T fs fe rv rd :: bursts
    ∧ length bursts = bursts_of b
    ∧ Forall (λ x, ∃ t, T <= t ∧ burst_of this d v t x) bursts
    ∧ StronglySorted (λ x y, voice_time x <= voice_time y) bursts.
Proof.
intros T Hts Hnow Hrd Hacc Hfuel Hsteps.
destruct (Math_max_bounds (currentTime h) clock) as (Hm & _ & _).
fold T in Hm.
assert (∃ k ts,
          ThunderV1.fire fuel this pick clock h
          = Done (tt, with_timeouts ts
                        (with_voices (voices h ++ [RumbleV1 T fs fe rv rd])
                           (with_random_calls k (with_currentTime T h))))
          ∧ Forall2 (burst_timer d v) (seq 0 (bursts_of b)) ts)
  as (k & ts & Hfire & Harmed).
{ unfold ThunderV1.fire, bind at 1, get. rewrite Hts. simpl length.
  rewrite Nat.min_0_r. cbn [lookup list_lookup delete list_delete].
  unfold bind at 1, put.
  fold T. set (h1 := with_currentTime _ _).
  destruct (strike_body_runs random_range fuel this fs fe rv rd b d v h1)
    as (k & ts & E & Hall); [subst h1; simpl; lra|done|done|].
  exists k, ts. unfold uncaught. rewrite E.
  split; [|exact Hall]. subst h1. by destruct h. }
split.
- eexists. split; [exact Hfire|]. split; [done|exact Harmed].
- cbn [ThunderV1.run]. unfold bind at 1. rewrite Hfire.
  set (h2 := with_timeouts _ _).
  destruct (run_bursts this fuel d v (sampleRate h) Hacc schedule h2)
    as (h' & bursts & Hrun & Hvoices & Hlenb & Hin & Hsorted).
  { done. }
  { subst h2. simpl. lra. }
  { subst h2. simpl. apply Forall2_length in Harmed.
    rewrite length_seq in Harmed. lia. }
  { subst h2. simpl. clear -Harmed.
    induction Harmed as [|i t l ts (Hjob & _) _ IH]; by constructor. }
  exists h', bursts. split; [exact Hrun|].
  subst h2. simpl in Hvoices, Hlenb, Hin.
  split; [by rewrite Hvoices, <- app_assoc|].
  split; [|split; [exact Hin|exact Hsorted]].
  apply Forall2_length in Harmed. rewrite length_seq in Harmed. lia.
Qed.
End StrikeTiming.

Lemma strike_bursts_follow_the_rumble_witness :
  (∀ n, 0 <= @random_seq Sample.math n < 1)
  ∧ timeouts (with_timeouts [(0, StrikeBody 30 20 0.05 8 3 2 0.5)] Sample.idle)
    = [(0, StrikeBody 30 20 0.05 8 3 2 0.5)]
  ∧ 0 <= currentTime Sample.idle
  ∧ 0 <= 8
  ∧ burst_accepted 40 2 0.5
  ∧ (bursts_of 3 ≤ 3)%nat
  ∧ ∃ h' bursts,
      @ThunderV1.run Sample.math 3
        [(0%nat, 0.5); (1%nat, 0.5); (0%nat, 0.9); (0%nat, 1.4)]
        SampleThunder.default_v1
        (with_timeouts [(0, StrikeBody 30 20 0.05 8 3 2 0.5)] Sample.idle)
      = Done (tt, h')
      ∧ voices h' = RumbleV1 0.5 30 20 0.05 8 :: bursts
      ∧ length bursts = 3%nat
      ∧ Forall (λ x, ∃ t, 0.5 <= t ∧ burst_of SampleThunder.default_v1 2 0.5 t x)
               bursts.
Proof.
  assert (burst_accepted 40 2 0.5) as Hacc by (repeat split; by vm_compute).
  split; [exact Sample_draws_range|]. split; [done|]. split; [done|].
  split; [done|]. split; [exact Hacc|]. split; [by vm_compute|].
  destruct (@strike_bursts_follow_the_rumble Sample.math Sample_draws_range
              SampleThunder.default_v1
              (with_timeouts [(0, StrikeBody 30 20 0.05 8 3 2 0.5)] Sample.idle)
              0 30 20 0.05 8 3 2 0.5 3 0 0.5
              [(1%nat, 0.5); (0%nat, 0.9); (0%nat, 1.4)]
              eq_refl ltac:(done) ltac:(done) Hacc
              ltac:(by vm_compute) ltac:(by vm_compute))
    as (_ & h' & bursts & E & Hv & Hlen & Hin & _).
  exists h', bursts. split; [exact E|]. split; [exact Hv|].
  split; [exact Hlen|exact Hin].
Defined.

(** ** A generator while it runs, and its end *)

Section WhileRunning.
Context `{MathHost}.

Lemma start_v2_exact (this : RainV2.RainGenerator) l0 :
triple (eq l0) (RainV2.start this)
  (λ this' l, this' = RainV2.with_noiseSource (Some (length l0)) this
              ∧ l = l0 ++ [(BufferSource, Playing, true)]).
Proof.
unfold RainV2.start.
eapply triple_bind; [apply triple_createNode|]. intros id.
apply triple_exact. intros l1 [Hid Hl1]. subst id l1.
apply triple_keeps_bind;
  [apply keeps_only_draws, only_draws_createNoiseBuffer|intros data].
apply triple_keeps_bind; [apply keeps_set_buffer|intros ?].
eapply triple_bind; [apply triple_set_loop|]. intros ?.
apply triple_exact. intros l2 Hl2. subst l2.
rewrite <- (Nat.add_0_r (length l0)) at 1. rewrite alter_app_r. simpl.
apply triple_keeps_bind; [apply keeps_set_frequency|intros ?].
apply triple_keeps_bind; [apply keeps_set_gain|intros ?].
apply triple_keeps_bind; [apply keeps_connect|intros ?].
apply triple_keeps_bind; [apply keeps_connect|intros ?].
apply triple_keeps_bind; [apply keeps_set_gain|intros ?].
eapply triple_bind.
{ apply (triple_start_source _ BufferSource true). by apply list_lookup_middle. }
intros ?. apply triple_ret. intros l ->. split; [done|].
rewrite <- (Nat.add_0_r (length l0)) at 1. by rewrite insert_app_r.
Qed.

Lemma stop_v2_exact (this : RainV2.RainGenerator) id l0 :
RainV2.noiseSource this = Some id →
l0 !! id = Some (BufferSource, Playing, true) →
triple (eq l0) (RainV2.stop this)
  (λ this' l,
     this' = RainV2.with_clock (RainV2.time this) 0
               (RainV2.with_noiseSource None this)
     ∧ l = <[id := (BufferSource, Ended, true)]> l0).
Proof.
intros Hid Hl. unfold RainV2.stop. rewrite Hid.
eapply (triple_bind _ _ _
          (λ this' l, this' = RainV2.with_noiseSource None this
                      ∧ l = <[id := (BufferSource, Ended, true)]> l0)).
{ eapply triple_bind; [by eapply triple_stop_source|]. intros ?.
  apply triple_keeps_bind; [apply keeps_disconnect|intros ?].
  apply triple_ret. by intros l ->. }
intros this'. apply triple_ret. by intros l [-> ->].
Qed.

Lemma live_snoc_playing l :
live (l ++ [(BufferSource, Playing, true)]) = S (live l).
Proof. rewrite live_app. unfold live at 2. simpl. lia. Qed.

(** X16: [stop] after [start] on a V2 rain generator that holds no noise
    source returns, and gives back the generator as it was but for the
    drop clock, which is at zero; while it runs the context plays one
    more looping source, and afterwards as many as before [start]. *)
Theorem stop_v2_undoes_start (this : RainV2.RainGenerator) h :
RainV2.noiseSource this = None →
∃ this1 h1 h2,
  RainV2.start this h = Done (this1, h1)
  ∧ RainV2.stop this1 h1 = Done (RainV2.with_clock (RainV2.time this) 0 this, h2)
  ∧ live_loops h1 = S (live_loops h)
  ∧ live_loops h2 = live_loops h.
Proof.
intros Hnone.
destruct (start_v2_exact this (sigs h) h eq_refl)
  as (this1 & h1 & E1 & -> & Hs1).
destruct (stop_v2_exact
            (RainV2.with_noiseSource (Some (length (sigs h))) this)
            (length (sigs h)) (sigs h1) eq_refl) with (h := h1)
  as (this2 & h2 & E2 & -> & Hs2); [|done|].
{ rewrite Hs1. by apply list_lookup_middle. }
eexists _, h1, h2. split; [exact E1|]. split.
- rewrite E2. do 2 f_equal. destruct this. simpl in *. by subst.
- rewrite !live_loops_sigs. fold (live (sigs h1)) (live (sigs h2)) (live (sigs h)).
  rewrite Hs2, Hs1. split; [apply live_snoc_playing|].
  pose proof (live_insert (sigs h ++ [(BufferSource, Playing, true)])
                (length (sigs h)) _ (BufferSource, Ended, true)
                (list_lookup_middle _ _ _ _ eq_refl)) as Hl.
  rewrite live_snoc_playing in Hl. simpl in Hl. lia.
Qed.

(** X17: [setNoiseType] on a V1 rain generator that runs, whose sources
    are in order: the noise source that the generator holds is stopped,
    and a new looping source plays in its place, which the generator now
    holds; the context plays as many looping sources as before, no timer
    is touched, and the sources of the generator are in order again. *)
Theorem setNoiseType_swaps_the_noise (this : RainV1.RainGenerator)
  (type : NoiseType) (id : nat) h :
RainV1.running this = true →
RainV1.noiseNode this = Some id →
tidy this (sigs h) →
∃ this' h',
  RainV1.setNoiseType this type h = Done (this', h')
  ∧ RainV1.noiseNode this' = Some (length (nodes h))
  ∧ RainV1.noiseType (RainV1.params this') = type
  ∧ sigs h' !! id = Some (BufferSource, Ended, true)
  ∧ live_loops h' = live_loops h
  ∧ handles h' = handles h
  ∧ tidy this' (sigs h').
Proof.
intros Hrun Hid [Hnoise Hlfo]. unfold RainV1.setNoiseType.
set (this0 := RainV1.with_params _ this).
assert (RainV1.running this0 = true) as -> by done.
assert (RainV1.noiseNode this0 = Some id) as Hid0 by done.
pose proof (Hnoise id Hid) as Hl.
destruct (startNoise_sources this0 (sigs h)) with (h := h)
  as (this' & h' & E & -> & Hs); [|done|].
{ rewrite Hid0. by exists BufferSource, Playing, true. }
rewrite Hid0, <- (insert_end_source id BufferSource Playing true _ Hl) in Hs.
pose proof (startNoise_timers this0 h _ _ E) as Ht.
unfold timers in Ht. injection Ht as Hh _.
assert (id < length (sigs h))%nat as Hlt by (by eapply lookup_lt_Some).
exists (RainV1.with_noiseNode (Some (length (sigs h))) this0), h'.
split; [exact E|]. unfold sigs at 1. rewrite length_fmap.
split; [done|]. split; [by destruct this|]. split; [|split; [|split]].
- rewrite Hs, lookup_app_l by (by rewrite length_insert).
  by apply list_lookup_insert_eq.
- rewrite !live_loops_sigs. fold (live (sigs h')) (live (sigs h)).
  rewrite Hs, live_snoc_playing.
  pose proof (live_insert (sigs h) id _ (BufferSource, Ended, true) Hl) as Hli.
  simpl in Hli. lia.
- done.
- split.
  + intros id' [= <-]. rewrite Hs.
    rewrite <- (length_insert (sigs h) id (BufferSource, Ended, true)).
    by apply list_lookup_middle.
  + intros key o g Hkey. rewrite Hs.
    assert (RainV1.lfoMap this !! key = Some (o, g)) as Hkey' by (by destruct this).
    pose proof (Hlfo _ _ _ Hkey') as Ho.
    rewrite lookup_app_l
      by (rewrite length_insert; by eapply lookup_lt_Some).
    rewrite list_lookup_insert_ne; [done|].
    intros <-. rewrite Hl in Ho. done.
Qed.

(** X18: [setOscParam] of the V1 rain generator, its sources being in
    order.  The oscillator that the map holds for the parameter is
    stopped; while the generator runs and the parameter oscillates, a new
    oscillator plays and the map holds it with its gain, and otherwise
    the map holds nothing for the parameter.  The other entries of the
    map, and the timers, are as before. *)
Theorem setOscParam_replaces_the_oscillator (this : RainV1.RainGenerator)
  (param : OscParam.t) (target : audio_param) (id : string) h :
tidy this (sigs h) →
∃ this' h',
  RainV1.setOscParam this param target id h = Done (this', h')
  ∧ RainV1.lfoMap this' !! id
    = (if RainV1.running this && OscParam.osc param
       then Some (length (nodes h), S (length (nodes h)))
       else None)
  ∧ (∀ key, key ≠ id → RainV1.lfoMap this' !! key = RainV1.lfoMap this !! key)
  ∧ (∀ o g, RainV1.lfoMap this !! id = Some (o, g) →
            sigs h' !! o = Some (Oscillator, Ended, false))
  ∧ (RainV1.running this && OscParam.osc param = true →
     sigs h' !! length (nodes h) = Some (Oscillator, Playing, false))
  ∧ length (nodes h')
    = (length (nodes h)
       + (if RainV1.running this && OscParam.osc param then 2 else 0))%nat
  ∧ handles h' = handles h.
Proof.
intros [Hnoise Hlfo].
destruct (setOscParam_sources this param target id (sigs h)) with (h := h)
  as (this' & h' & E & -> & Hs); [|done|].
{ destruct (RainV1.lfoMap this !! id) as [[o g]|] eqn:Hid; [|done].
  exists Oscillator, Playing, false. split; [by eapply Hlfo|done]. }
pose proof (setOscParam_timers this param target id h _ _ E) as Ht.
unfold timers in Ht. injection Ht as Hh _.
eexists _, h'. split; [exact E|].
unfold sigs at 1 2. rewrite length_fmap.
set (l1 := match RainV1.lfoMap this !! id with
           | Some (o, g) => end_source o (sigs h)
           | None => sigs h
           end) in Hs.
assert (length l1 = length (nodes h)) as Hlen.
{ unfold l1. destruct (RainV1.lfoMap this !! id) as [[o g]|];
    [rewrite length_end_source|]; unfold sigs; by rewrite length_fmap. }
split; [|split; [|split; [|split; [|split]]]].
- unfold lfo_entry. cbn [RainV1.lfoMap RainV1.with_lfoMap].
  destruct (RainV1.running this && OscParam.osc param).
  + by rewrite lookup_insert_eq.
  + by rewrite lookup_delete_eq.
- intros key Hne. cbn [RainV1.lfoMap RainV1.with_lfoMap].
  rewrite lfo_entry_lookup_ne by done. by rewrite lookup_delete_ne.
- intros o g Hid. rewrite Hs. unfold l1. rewrite Hid.
  pose proof (Hlfo _ _ _ Hid) as Ho.
  rewrite lookup_app_l
    by (rewrite length_end_source; by eapply lookup_lt_Some).
  rewrite <- (insert_end_source o Oscillator Playing false _ Ho).
  apply list_lookup_insert_eq. by eapply lookup_lt_Some.
- intros Hon. rewrite Hs. unfold lfo_sigs. rewrite Hon, <- Hlen.
  by apply list_lookup_middle.
- rewrite <- (length_fmap sig (nodes h')). fold (sigs h').
  rewrite Hs, length_app, Hlen. unfold lfo_sigs.
  by destruct (RainV1.running this && OscParam.osc param).
- done.
Qed.

Lemma bind_result {A B} (m : M host A) (k : A → M host B) h b h' :
bind m k h = Done (b, h') → ∃ a h1, m h = Done (a, h1) ∧ k a h1 = Done (b, h').
Proof. unfold bind. destruct (m h) as [[a h1]|]; [|done]. eauto. Qed.

Lemma cuts_ret {A} (a : A) : cuts (λ _, False) (ret a).
Proof. intros h. exists a, h. split; [done|]. split; [|done]. by intros id [[]|]. Qed.

Lemma cuts_disconnect id : cuts (eq id) (disconnect id).
Proof.
intros h. eexists tt, _. split; [reflexivity|]. split; [|split].
- intros id' Hid' n. simpl. rewrite list_lookup_alter.
  destruct (decide (id = id')) as [->|Hne].
  + destruct (nodes h !! id'); [|done]. by intros [= <-].
  + destruct Hid' as [->|Hs]; [done|]. apply Hs.
- destruct (keeps_disconnect id h) as (a & h' & E & Hs).
  injection E as _ <-. exact Hs.
- done.
Qed.

Lemma cuts_bind {A B} (S1 S2 : nat → Prop) (m : M host A) (k : A → M host B) :
cuts S1 m → (∀ a, cuts S2 (k a)) → cuts (λ id, S1 id ∨ S2 id) (bind m k).
Proof.
intros Hm Hk h. destruct (Hm h) as (a & h1 & E1 & Hc1 & Hs1 & Hh1).
destruct (Hk a h1) as (b & h2 & E2 & Hc2 & Hs2 & Hh2).
exists b, h2. unfold bind. rewrite E1. split; [done|].
split; [|split; congruence].
intros id [[H1|H2]|Hs]; apply Hc2; [right|by left|right]; apply Hc1; eauto.
Qed.

Lemma cuts_weaken {A} (S S' : nat → Prop) (m : M host A) :
(∀ id, S' id → S id) → cuts S m → cuts S' m.
Proof.
intros HS Hm h. destruct (Hm h) as (a & h' & E & Hc & Hs & Hh).
exists a, h'. split; [done|]. split; [|done].
intros id [Hid|Hid]; apply Hc; eauto.
Qed.

Lemma cuts_each (ids : list nat) : ∀ n from,
cuts (λ id, ∃ i, (from ≤ i < from + n)%nat ∧ ids !! i = Some id)
     (for_range from n (λ i, disconnect (default 0%nat (ids !! i)))).
Proof.
induction n as [|n IH]; intros from; simpl.
- eapply cuts_weaken; [|apply cuts_ret]. intros id (i & Hi & _). lia.
- eapply cuts_weaken; [|apply cuts_bind; [apply cuts_disconnect|intros ?; apply IH]].
  intros id (i & Hi & Hid). simpl.
  destruct (decide (i = from)) as [->|Hne].
  + left. by rewrite Hid.
  + right. exists i. split; [lia|done].
Qed.

(** X19: [destroy] on a V1 rain generator whose sources are in order
    returns and leaves the generator at rest.  Every node that the
    generator keeps (its eight gain, filter and reverb nodes and its
    equalizer bands) is then connected to nothing, the noise source it
    held plays no more, and of the timers only the interval whose handle
    the generator held is cleared. *)
Theorem destroy_severs_the_nodes (this : RainV1.RainGenerator) h :
tidy this (sigs h) →
∃ h',
  RainV1.destroy this h = Done (stopped this, h')
  ∧ Forall (λ id, severed id h') (persistent this)
  ∧ (live_loops h' + (if RainV1.noiseNode this is Some _ then 1 else 0))%nat
    = live_loops h
  ∧ handles h' = match RainV1.dropInterval this with
                 | Some id => delete id (handles h)
                 | None => handles h
                 end.
Proof.
intros Ht. destruct (stop_run this h Ht) as (h1 & E1 & Hlive & Hh).
unfold RainV1.destroy. unfold bind at 1. rewrite E1.
assert (map_to_list (RainV1.lfoMap (stopped this)) = []) as ->
  by (by destruct this).
assert (cuts (λ id, id ∈ persistent this)
          (disconnect (RainV1.output (stopped this)) ;;
           disconnect (RainV1.noiseGainNode (stopped this)) ;;
           disconnect (RainV1.noiseFilter (stopped this)) ;;
           disconnect (RainV1.dropGainNode (stopped this)) ;;
           disconnect (RainV1.dryDropGainNode (stopped this)) ;;
           disconnect (RainV1.reverbNode (stopped this)) ;;
           disconnect (RainV1.dryGain (stopped this)) ;;
           disconnect (RainV1.wetGain (stopped this)) ;;
           for_range 0 (length (RainV1.eqBands (stopped this)))
             (λ i, disconnect (default 0%nat (RainV1.eqBands (stopped this) !! i))) ;;
           RainV1.disconnect_lfos [] ;;
           ret (RainV1.with_dropInterval None
                  (RainV1.with_noiseNode None
                     (RainV1.with_lfoMap ∅ (stopped this)))))) as Hcuts.
{ eapply cuts_weaken;
    [|do 8 (apply cuts_bind; [apply cuts_disconnect|intros ?]);
      apply cuts_bind; [apply cuts_each|intros ?];
      apply cuts_bind; [apply cuts_ret|intros ?]; apply cuts_ret].
  intros id Hid. unfold persistent in Hid.
  assert (RainV1.eqBands (stopped this) = RainV1.eqBands this) as ->
    by (by destruct this).
  apply elem_of_app in Hid as [Hid|Hid].
  - repeat (apply elem_of_cons in Hid as [->|Hid];
            [by repeat (first [left; by destruct this|right])|]).
    by apply elem_of_nil in Hid.
  - apply list_elem_of_lookup in Hid as [i Hi].
    do 8 right. left. exists i. split; [|done].
    apply lookup_lt_Some in Hi. lia. }
destruct (Hcuts h1) as (this' & h' & E & Hc & Hs & Hh').
exists h'. split.
{ rewrite E. do 2 f_equal.
  do 10 (apply bind_result in E as (? & ? & _ & E)).
  injection E as <- _. by destruct this. }
split; [|split].
- apply Forall_forall. intros id Hid. apply Hc. by left.
- rewrite !live_loops_sigs. fold (live (sigs h')) (live (sigs h)).
  by rewrite Hs.
- by rewrite Hh', Hh.
Qed.
End WhileRunning.

Lemma SampleRain_tidy : tidy SampleRain.running (sigs SampleRain.playing).
Proof.
  split.
  - by intros id [= <-].
  - intros key o g Hl. simpl in Hl.
    by apply lookup_singleton_Some in Hl as [_ [= <- _]].
Qed.

Lemma stop_v2_undoes_start_witness :
  RainV2.noiseSource
    (RainV2.mk 0 0 [] RainV2._defaultRainParamsV2 0 0 0 0 0 0 0 0 0 None) = None
  ∧ ∃ this1 h1 h2,
      @RainV2.start Sample.math
        (RainV2.mk 0 0 [] RainV2._defaultRainParamsV2 0 0 0 0 0 0 0 0 0 None)
        Sample.stage
      = Done (this1, h1)
      ∧ RainV2.stop this1 h1
        = Done (RainV2.mk 0 0 [] RainV2._defaultRainParamsV2 0 0 0 0 0 0 0 0 0 None,
                h2)
      ∧ live_loops h1 = 1%nat
      ∧ live_loops h2 = 0%nat.
Proof.
  split; [done|].
  exact (@stop_v2_undoes_start Sample.math
           (RainV2.mk 0 0 [] RainV2._defaultRainParamsV2 0 0 0 0 0 0 0 0 0 None)
           Sample.stage eq_refl).
Defined.

Lemma setNoiseType_swaps_the_noise_witness :
  RainV1.running SampleRain.running = true
  ∧ RainV1.noiseNode SampleRain.running = Some 8%nat
  ∧ tidy SampleRain.running (sigs SampleRain.playing)
  ∧ ∃ this' h',
      @RainV1.setNoiseType Sample.math SampleRain.running white SampleRain.playing
      = Done (this', h')
      ∧ RainV1.noiseNode this' = Some 11%nat
      ∧ RainV1.noiseType (RainV1.params this') = white
      ∧ sigs h' !! 8%nat = Some (BufferSource, Ended, true)
      ∧ live_loops h' = 1%nat.
Proof.
  split; [done|]. split; [done|]. split; [exact SampleRain_tidy|].
  destruct (@setNoiseType_swaps_the_noise Sample.math SampleRain.running white
              8 SampleRain.playing eq_refl eq_refl SampleRain_tidy)
    as (this' & h' & E & Hn & Hty & Hold & Hlive & _).
  exists this', h'. split; [exact E|]. split; [exact Hn|].
  split; [exact Hty|]. split; [exact Hold|exact Hlive].
Defined.

Lemma setOscParam_replaces_the_oscillator_witness :
  tidy SampleRain.running (sigs SampleRain.playing)
  ∧ ∃ this' h',
      RainV1.setOscParam SampleRain.running (OscParam.mk 3000 true 500 0.2)
        (FrequencyOf 7) "noiseFilterFreq" SampleRain.playing
      = Done (this', h')
      ∧ RainV1.lfoMap this' !! "noiseFilterFreq" = Some (11%nat, 12%nat)
      ∧ sigs h' !! 9%nat = Some (Oscillator, Ended, false)
      ∧ sigs h' !! 11%nat = Some (Oscillator, Playing, false)
      ∧ length (nodes h') = 13%nat.
Proof.
  split; [exact SampleRain_tidy|].
  destruct (setOscParam_replaces_the_oscillator SampleRain.running
              (OscParam.mk 3000 true 500 0.2) (FrequencyOf 7) "noiseFilterFreq"
              SampleRain.playing SampleRain_tidy)
    as (this' & h' & E & Hnew & _ & Hold & Hplays & Hlen & _).
  exists this', h'. split; [exact E|]. split; [exact Hnew|].
  split; [exact (Hold 9%nat 10%nat eq_refl)|].
  split; [exact (Hplays eq_refl)|exact Hlen].
Defined.

Lemma destroy_severs_the_nodes_witness :
  tidy SampleRain.running (sigs SampleRain.playing)
  ∧ ∃ h',
      RainV1.destroy SampleRain.running SampleRain.playing
      = Done (SampleRain.fresh, h')
      ∧ Forall (λ id, severed id h') [0; 1; 7; 2; 3; 4; 5; 6]%nat
      ∧ live_loops h' = 0%nat
      ∧ handles h' = {[2%nat := 5000]}.
Proof.
  split; [exact SampleRain_tidy|].
  destruct (destroy_severs_the_nodes SampleRain.running SampleRain.playing
              SampleRain_tidy)
    as (h' & E & Hsev & Hlive & Hh).
  exists h'. split; [exact E|]. split; [exact Hsev|].
  split.
  { assert (live_loops SampleRain.playing = 1%nat) as Hone by reflexivity.
    rewrite Hone in Hlive. cbn in Hlive. lia. }
  rewrite Hh. simpl. apply map_eq. intros i.
  destruct (decide (i = 1%nat)) as [->|Hne]; [done|].
  rewrite lookup_delete_ne by done.
  destruct (decide (i = 2%nat)) as [->|Hne2]; [done|].
  by rewrite lookup_insert_ne, !lookup_singleton_ne.
Defined.

(** ** The controller (V1) and its timers *)

Section Controller.
Context `{MathHost}.
Hypothesis random_range : ∀ n, 0 <= random_seq n < 1.

(** [scheduleThunder] on a controller that runs, thunder being on: one
  timer is armed, after a delay between the two bounds, and the
  controller keeps its handle. *)
Lemma scheduleThunder_arms (this : ControllerV1.NoiseDController) h :
ControllerV1.running this = true →
ControllerV1.thunder_on this = true →
(ControllerV1.delayBetweenThunders this).1
<= (ControllerV1.delayBetweenThunders this).2 →
∃ delay k,
  ControllerV1.scheduleThunder this h
  = Done (ControllerV1.mk (ControllerV1.rain this) (ControllerV1.thunder this)
            (ControllerV1.delayBetweenThunders this) (ControllerV1.rain_on this)
            true (Some (S (next_handle h))) true,
          with_handles (<[S (next_handle h) := delay]> (handles h))
            (S (next_handle h)) (with_random_calls k h))
  ∧ (ControllerV1.delayBetweenThunders this).1 <= delay
  ∧ delay <= (ControllerV1.delayBetweenThunders this).2.
Proof.
intros Hrun Hon Hle. unfold ControllerV1.scheduleThunder.
rewrite Hrun, Hon. simpl.
unfold bind at 1. unfold ControllerV1._rand, bind at 1, Math_random, ret.
unfold bind, window_setTimeout, setInterval. simpl.
eexists _, _. split; [reflexivity|].
destruct (random_range (random_calls h)) as [Hr0 Hr1].
set (r := random_seq (random_calls h)) in *.
set (lo := (ControllerV1.delayBetweenThunders this).1) in *.
set (hi := (ControllerV1.delayBetweenThunders this).2) in *.
clearbody r lo hi. split; nra.
Qed.

(** X20: on a controller that runs, [startThunder] arms a strike timer
    whether or not one is armed already, and the controller keeps the
    handle of the last one only.  After two calls, [stopThunder] clears
    the second timer and the first stays armed, after a delay between
    the two bounds of [delayBetweenThunders]. *)
Theorem stopThunder_leaves_a_strike_scheduled
  (this : ControllerV1.NoiseDController) h :
ControllerV1.running this = true →
(ControllerV1.delayBetweenThunders this).1
<= (ControllerV1.delayBetweenThunders this).2 →
∃ c1 h1 c2 h2 c3 h3 delay,
  ControllerV1.startThunder this h = Done (c1, h1)
  ∧ ControllerV1.startThunder c1 h1 = Done (c2, h2)
  ∧ ControllerV1.stopThunder c2 h2 = Done (c3, h3)
  ∧ ControllerV1.thunderTimeout c1 = Some (S (next_handle h))
  ∧ ControllerV1.thunderTimeout c2 = Some (S (S (next_handle h)))
  ∧ ControllerV1.thunderTimeout c3 = None
  ∧ handles h3 !! S (S (next_handle h)) = None
  ∧ handles h3 !! S (next_handle h) = Some delay
  ∧ (ControllerV1.delayBetweenThunders this).1 <= delay
  ∧ delay <= (ControllerV1.delayBetweenThunders this).2.
Proof.
intros Hrun Hle. unfold ControllerV1.startThunder.
destruct (scheduleThunder_arms
            (ControllerV1.mk (ControllerV1.rain this) (ControllerV1.thunder this)
               (ControllerV1.delayBetweenThunders this)
               (ControllerV1.rain_on this) true
               (ControllerV1.thunderTimeout this) (ControllerV1.running this)) h
            Hrun eq_refl Hle) as (d1 & k1 & E1 & Hlo1 & Hhi1).
rewrite E1. cbn [ControllerV1.rain ControllerV1.thunder
  ControllerV1.delayBetweenThunders ControllerV1.rain_on
  ControllerV1.thunderTimeout ControllerV1.running] in *.
set (h1 := with_handles _ _ _) in *.
destruct (scheduleThunder_arms
            (ControllerV1.mk (ControllerV1.rain this) (ControllerV1.thunder this)
               (ControllerV1.delayBetweenThunders this)
               (ControllerV1.rain_on this) true
               (Some (S (next_handle h))) true) h1
            eq_refl eq_refl Hle) as (d2 & k2 & E2 & _ & _).
cbn [ControllerV1.rain ControllerV1.thunder
  ControllerV1.delayBetweenThunders ControllerV1.rain_on
  ControllerV1.thunderTimeout ControllerV1.running] in E2.
eexists _, h1, _, _, _, _, d1.
split; [reflexivity|]. split; [exact E2|].
split; [reflexivity|]. split; [done|]. split; [done|]. split; [done|].
subst h1. simpl. split; [apply lookup_delete_eq|].
split; [|done].
rewrite lookup_delete_ne by lia. rewrite lookup_insert_ne by lia.
apply lookup_insert_eq.
Qed.

(** X21: [start] on a controller at rest, rain and thunder being on.
    In a context that is not suspended, [start] starts the rain
    generator and arms the strike timer, after a delay between the two
    bounds; [stop] after it gives back the controller as it was and the
    context plays as many looping sources as before; the strike timer
    and the second drop interval are cleared, and the first drop
    interval stays armed.  In a suspended context [start] returns with
    the rain generator as it was, no node added, and the strike timer on
    the first handle; the rain generator is started when the context has
    resumed, and its drop intervals take the two handles that follow. *)
Theorem controller_stop_after_start (this : ControllerV1.NoiseDController) h :
ControllerV1.running this = false →
ControllerV1.rain_on this = true →
ControllerV1.thunder_on this = true →
ControllerV1.thunderTimeout this = None →
quiet (ControllerV1.rain this) →
(ControllerV1.delayBetweenThunders this).1
<= (ControllerV1.delayBetweenThunders this).2 →
(∃ c1 h1 h2 delay,
   ControllerV1.start false this h = Done (c1, h1)
   ∧ ControllerV1.stop c1 h1 = Done (this, h2)
   ∧ ControllerV1.running c1 = true
   ∧ RainV1.running (ControllerV1.rain c1) = true
   ∧ ControllerV1.thunderTimeout c1 = Some (S (S (S (next_handle h))))
   ∧ handles h1 !! S (S (S (next_handle h))) = Some delay
   ∧ (ControllerV1.delayBetweenThunders this).1 <= delay
   ∧ delay <= (ControllerV1.delayBetweenThunders this).2
   ∧ live_loops h2 = live_loops h
   ∧ handles h2 !! S (S (S (next_handle h))) = None
   ∧ handles h2 !! S (S (next_handle h)) = None
   ∧ handles h2 !! S (next_handle h)
     = Some (1000 / RainV1.dropRate (RainV1.params (ControllerV1.rain this))))
∧ (∃ c1 h1 c2 h2 delay,
     ControllerV1.start true this h = Done (c1, h1)
     ∧ ControllerV1.running c1 = true
     ∧ ControllerV1.rain c1 = ControllerV1.rain this
     ∧ nodes h1 = nodes h
     ∧ ControllerV1.thunderTimeout c1 = Some (S (next_handle h))
     ∧ handles h1 = <[S (next_handle h) := delay]> (handles h)
     ∧ (ControllerV1.delayBetweenThunders this).1 <= delay
     ∧ delay <= (ControllerV1.delayBetweenThunders this).2
     ∧ ControllerV1.rain_resumed c1 h1 = Done (c2, h2)
     ∧ RainV1.running (ControllerV1.rain c2) = true
     ∧ RainV1.dropInterval (ControllerV1.rain c2)
       = Some (S (S (S (next_handle h))))
     ∧ live_loops h2 = S (live_loops h)
     ∧ handles h2 !! S (next_handle h) = Some delay).
Proof.
intros Hrun Hrain Hthunder Htimeout Hq Hle.
destruct this as [rain thunder delays rain_on thunder_on timeout running].
simpl in *. subst. split.
- destruct (start_run rain h Hq) as (h1 & E1 & Hs1 & Hh1 & Hn1).
  unfold ControllerV1.start. simpl. unfold bind at 1. unfold bind at 1.
  rewrite E1. unfold ret at 1.
  set (r1 := running_from rain _ _) in *.
  destruct (scheduleThunder_arms
              (ControllerV1.mk r1 thunder delays true true None true) h1
              eq_refl eq_refl Hle) as (d & k & E2 & Hlo & Hhi).
  simpl in E2. cbn [ControllerV1.thunder_on]. rewrite E2. rewrite Hn1 in *.
  set (h2 := with_handles _ _ _) in *.
  destruct (stop_run r1 h2) as (h3 & E3 & Hlive & Hh3).
  { subst h2 r1. unfold sigs in *. simpl. rewrite Hs1.
    rewrite <- (length_fmap sig (nodes h)). apply running_from_tidy. }
  assert (live (sigs h3) = live (sigs h)) as Hl.
  { assert (sigs h2 = sigs h1) as Hs2 by done.
    rewrite Hs2, Hs1, !live_app, !live_lfo_sigs in Hlive.
    unfold live at 3 in Hlive. simpl in Hlive. lia. }
  clear Hlive.
  unfold r1 in E3 at 2. rewrite stopped_running_from in E3 by done.
  exists (ControllerV1.mk r1 thunder delays true true
            (Some (S (S (S (next_handle h))))) true), h2.
  eexists _, d. split; [reflexivity|].
  unfold ControllerV1.stop. simpl. unfold bind at 1. rewrite E3. simpl.
  split; [reflexivity|].
  split; [done|]. split; [done|]. split; [done|].
  split; [subst h2; simpl; apply lookup_insert_eq|].
  split; [done|]. split; [done|].
  subst h2 r1. simpl in *.
  split.
  { rewrite !live_loops_sigs. exact Hl. }
  rewrite Hh3, Hh1.
  split; [apply lookup_delete_eq|]. split.
  + rewrite lookup_delete_ne by lia. apply lookup_delete_eq.
  + rewrite !lookup_delete_ne by lia. rewrite !lookup_insert_ne by lia.
    apply lookup_insert_eq.
- destruct (scheduleThunder_arms
              (ControllerV1.mk rain thunder delays true true None true) h
              eq_refl eq_refl Hle) as (d & k & E1 & Hlo & Hhi).
  simpl in E1.
  set (h1 := with_handles _ _ _) in *.
  assert (RainV1.with_running false rain = rain) as Hsame.
  { destruct Hq as (Hr & _). destruct rain. simpl in *. by subst. }
  destruct (start_run rain h1 Hq) as (h2 & E2 & Hs2 & Hh2 & Hn2).
  exists (ControllerV1.mk rain thunder delays true true
            (Some (S (next_handle h))) true), h1.
  eexists _, h2, d.
  split.
  { unfold ControllerV1.start. simpl. unfold bind at 1, ret at 1.
    cbn [ControllerV1.thunder_on]. exact E1. }
  split; [done|]. split; [done|]. split; [done|]. split; [done|].
  split; [done|]. split; [done|]. split; [done|].
  split.
  { unfold ControllerV1.rain_resumed. simpl. rewrite Hsame.
    unfold bind. rewrite E2. reflexivity. }
  split; [done|]. split; [done|]. split.
  + rewrite !live_loops_sigs.
    change (live (sigs h2) = S (live (sigs h))).
    rewrite Hs2, !live_app, !live_lfo_sigs.
    assert (sigs h1 = sigs h) as -> by done.
    unfold live at 2. simpl. lia.
  + rewrite Hh2. subst h1. simpl.
    rewrite !lookup_insert_ne by lia. apply lookup_insert_eq.
Qed.
End Controller.

Lemma stopThunder_leaves_a_strike_scheduled_witness :
  ControllerV1.running SampleRain.controller = true
  ∧ (ControllerV1.delayBetweenThunders SampleRain.controller).1
    <= (ControllerV1.delayBetweenThunders SampleRain.controller).2
  ∧ ∃ c1 h1 c2 h2 c3 h3 delay,
      @ControllerV1.startThunder Sample.math SampleRain.controller
        SampleRain.playing = Done (c1, h1)
      ∧ @ControllerV1.startThunder Sample.math c1 h1 = Done (c2, h2)
      ∧ ControllerV1.stopThunder c2 h2 = Done (c3, h3)
      ∧ ControllerV1.thunderTimeout c3 = None
      ∧ handles h3 !! 3%nat = Some delay
      ∧ 5000 <= delay ∧ delay <= 15000.
Proof.
  split; [done|]. split; [done|].
  destruct (@stopThunder_leaves_a_strike_scheduled Sample.math
              Sample_draws_range SampleRain.controller SampleRain.playing
              eq_refl ltac:(done))
    as (c1 & h1 & c2 & h2 & c3 & h3 & delay & E1 & E2 & E3 & _ & _ & Hnone
        & _ & Harmed & Hlo & Hhi).
  exists c1, h1, c2, h2, c3, h3, delay.
  split; [exact E1|]. split; [exact E2|]. split; [exact E3|].
  split; [exact Hnone|]. split; [exact Harmed|]. split; [exact Hlo|exact Hhi].
Defined.

Lemma controller_stop_after_start_witness :
  quiet SampleRain.fresh
  ∧ (5000 : Q) <= 15000
  ∧ (∃ c1 h1 h2 delay,
       @ControllerV1.start Sample.math false
         (ControllerV1.mk SampleRain.fresh SampleThunder.default_v1
            (5000, 15000) true true None false)
         (with_nodes (take 8 (nodes SampleRain.playing)) Sample.idle)
       = Done (c1, h1)
       ∧ ControllerV1.stop c1 h1
         = Done (ControllerV1.mk SampleRain.fresh SampleThunder.default_v1
                   (5000, 15000) true true None false, h2)
       ∧ handles h1 !! 3%nat = Some delay
       ∧ 5000 <= delay ∧ delay <= 15000
       ∧ live_loops h2 = 0%nat
       ∧ handles h2 !! 3%nat = None
       ∧ handles h2 !! 2%nat = None
       ∧ handles h2 !! 1%nat = Some (1000 / 30))
  ∧ ∃ c1 h1 c2 h2,
      @ControllerV1.start Sample.math true
        (ControllerV1.mk SampleRain.fresh SampleThunder.default_v1
           (5000, 15000) true true None false)
        (with_nodes (take 8 (nodes SampleRain.playing)) Sample.idle)
      = Done (c1, h1)
      ∧ ControllerV1.rain c1 = SampleRain.fresh
      ∧ ControllerV1.thunderTimeout c1 = Some 1%nat
      ∧ @ControllerV1.rain_resumed Sample.math c1 h1 = Done (c2, h2)
      ∧ RainV1.dropInterval (ControllerV1.rain c2) = Some 3%nat
      ∧ live_loops h2 = 1%nat.
Proof.
  split; [done|]. split; [done|].
  destruct (@controller_stop_after_start Sample.math Sample_draws_range
              (ControllerV1.mk SampleRain.fresh SampleThunder.default_v1
                 (5000, 15000) true true None false)
              (with_nodes (take 8 (nodes SampleRain.playing)) Sample.idle)
              eq_refl eq_refl eq_refl eq_refl ltac:(done) ltac:(done))
    as ((c1 & h1 & h2 & delay & E1 & E2 & _ & _ & _ & Hd & Hlo & Hhi & Hlive
         & H3 & H2 & H1)
        & (s1 & k1 & s2 & k2 & sdelay & F1 & _ & Frain & _ & Ftimeout & _ & _
           & _ & F2 & _ & Fdrop & Flive & _)).
  split.
  - exists c1, h1, h2, delay.
    split; [exact E1|]. split; [exact E2|]. split; [exact Hd|].
    split; [exact Hlo|]. split; [exact Hhi|]. split; [exact Hlive|].
    split; [exact H3|]. split; [exact H2|exact H1].
  - exists s1, k1, s2, k2.
    split; [exact F1|]. split; [exact Frain|]. split; [exact Ftimeout|].
    split; [exact F2|]. split; [exact Fdrop|exact Flive].
Defined.

(** ** The level of the noise *)

Section NoiseLevel.
Context `{MathHost}.
Hypothesis random_range : ∀ n, 0 <= random_seq n < 1.

Lemma step_within_bounds s w :
within_bounds s → -1 <= w ∧ w < 1 →
within_bounds (Kellet.step s w).1
∧ - noise_peak pink <= (Kellet.step s w).2
∧ (Kellet.step s w).2 <= noise_peak pink.
Proof.
destruct s as [b0 b1 b2 b3 b4 b5 b6]. unfold within_bounds, Kellet.step.
cbn [fst snd Kellet.b0 Kellet.b1 Kellet.b2 Kellet.b3 Kellet.b4 Kellet.b5
     Kellet.b6 noise_peak].
intros (H0 & H1 & H2 & H3 & H4 & H5 & H6) Hw.
repeat split; lra.
Qed.

Lemma outputs_within_bounds ws : ∀ s,
within_bounds s → Forall (λ w, -1 <= w ∧ w < 1) ws →
Forall (λ x, - noise_peak pink <= x ∧ x <= noise_peak pink) (Kellet.outputs s ws).
Proof.
induction ws as [|w ws IH]; intros s Hs Hws; [constructor|].
apply Forall_cons in Hws as [Hw Hws].
destruct (step_within_bounds s w Hs Hw) as (Hs' & Hlo & Hhi).
cbn [Kellet.outputs]. constructor; [done|]. by apply IH.
Qed.

Lemma zero_within_bounds : within_bounds Kellet.zero.
Proof. unfold within_bounds, Kellet.zero. simpl. repeat split; lra. Qed.

Lemma bounds_transfer (lo hi : Q) (outs ys : list Q) (k : nat) :
Forall2 Qeq outs (take k ys) →
Forall (λ x, lo <= x ∧ x <= hi) ys →
Forall (λ x, lo <= x ∧ x <= hi) outs.
Proof.
intros Heq Hys. apply (Forall_take _ k) in Hys.
induction Heq as [|x y outs ys' Hxy _ IH]; [constructor|].
apply Forall_cons in Hys as [[Hlo Hhi] Hys].
constructor; [|by apply IH]. rewrite Hxy. done.
Qed.

(** X22: the noise buffers.  [createNoiseBuffer] of V2 returns a buffer
    of as many samples as two seconds hold; white samples lie between
    -1 and 1, and pink samples, the state of the filter staying within
    fixed bounds, between -7.66 and 7.66.  [_startNoise] of V1, the
    noise source that the generator held having been started, gives its
    new looping source a buffer of that length whose samples keep the
    bounds of the noise type of the generator. *)
Theorem noise_stays_below_its_peak (type : NoiseType) (h : host) :
(∃ data n,
   RainV2.createNoiseBuffer type h = Done (data, with_random_calls n h)
   ∧ length data = to_length (sampleRate h * 2)
   ∧ Forall (λ x, - noise_peak type <= x ∧ x <= noise_peak type) data)
∧ (∀ this : RainV1.RainGenerator,
     RainV1.noiseType (RainV1.params this) = type →
     match RainV1.noiseNode this with
     | Some id => ∃ n, nodes h !! id = Some n ∧ state n ≠ Unscheduled
     | None => True
     end →
     ∃ h' output,
       RainV1._startNoise this h
       = Done (RainV1.with_noiseNode (Some (length (nodes h))) this, h')
       ∧ nodes h' !! length (nodes h)
         = Some (mk_node BufferSource 0 0 Playing true [output]
                   [ToNode (RainV1.noiseGainNode this)])
       ∧ length output = to_length (2 * sampleRate h)
       ∧ Forall (λ x, - noise_peak type <= x ∧ x <= noise_peak type) output).
Proof.
split.
- unfold RainV2.createNoiseBuffer. unfold bind at 1, rate.
  destruct type.
  + destruct (fill_pink_v2_outputs
                (iterations (sampleRate h * 2)) 0%nat []
                (createBuffer (sampleRate h * 2)) 0 0 0 0 0 0 0 Kellet.zero h)
      as (outs & Hrun & Hout); [done|by repeat split|].
    pose proof (pink_buffer_outputs _ _ _ Hout) as Hlen.
    rewrite drop_ge, app_nil_r in Hrun
      by (unfold createBuffer; rewrite length_replicate;
          apply to_length_le_iterations).
    exists outs, (random_calls h + iterations (sampleRate h * 2))%nat.
    split; [exact Hrun|]. split; [done|].
    eapply bounds_transfer; [exact Hout|].
    apply outputs_within_bounds; [apply zero_within_bounds|].
    apply whites_range, random_range.
  + destruct (emits_fill (λ x, -1 <= x ∧ x <= 1)
                (λ _, let* r := Math_random in ret (r * 2 - 1))) with
      (n := iterations (sampleRate h * 2)) (from := 0%nat)
      (data := createBuffer (sampleRate h * 2)) (h := h)
      as (data & n & vs & E & (Hlen & Hall) & ->).
    { intros i. eapply emits_let; [apply (emits_random random_range)|].
      intros r [Hr0 Hr1]. eapply emits_weaken; [|apply emits_ret].
      intros ? ? x vs [-> ->]. split; [|done]. split; lra. }
    { unfold createBuffer. apply Forall_replicate. split; lra. }
    exists data, n. split.
    { rewrite E, app_nil_r. by destruct h. }
    split; [|done]. rewrite Hlen. unfold createBuffer. apply length_replicate.
- intros this Htype Hold.
  destruct (startNoise_buffer this h Hold) as (h0 & Hc & Hr & Hl & Hstart).
  rewrite Htype in Hstart. destruct type.
  + destruct (fill_pink_v1_outputs
                (iterations (2 * sampleRate h)) 0%nat []
                (createBuffer (2 * sampleRate h)) 0 0 0 0 0 0 0 Kellet.zero h0)
      as (outs & Hrun & Hout); [done|by repeat split|].
    pose proof (pink_buffer_outputs _ _ _ Hout) as Hlen.
    rewrite drop_ge, app_nil_r in Hrun
      by (unfold createBuffer; rewrite length_replicate;
          apply to_length_le_iterations).
    destruct (Hstart _ _ Hrun) as (h' & E & _ & _ & Hnode).
    exists h', outs. split; [exact E|]. split; [exact Hnode|].
    split; [done|].
    eapply bounds_transfer; [exact Hout|].
    apply outputs_within_bounds; [apply zero_within_bounds|].
    apply whites_range, random_range.
  + destruct (emits_fill (λ x, -1 <= x ∧ x <= 1)
                (λ _, let* r := Math_random in ret (r * 2 - 1))) with
      (n := iterations (2 * sampleRate h)) (from := 0%nat)
      (data := createBuffer (2 * sampleRate h)) (h := h0)
      as (data & n & vs & E & (Hlen & Hall) & ->).
    { intros i. eapply emits_let; [apply (emits_random random_range)|].
      intros r [Hr0 Hr1]. eapply emits_weaken; [|apply emits_ret].
      intros ? ? x vs [-> ->]. split; [|done]. split; lra. }
    { unfold createBuffer. apply Forall_replicate. split; lra. }
    assert (fill 0 (iterations (2 * sampleRate h))
              (λ _, let* r := Math_random in ret (r * 2 - 1))
              (createBuffer (2 * sampleRate h)) h0
            = Done (data, with_random_calls n h0)) as Hrun.
    { rewrite E, app_nil_r. by destruct h0. }
    destruct (Hstart _ _ Hrun) as (h' & E' & _ & _ & Hnode).
    exists h', data. split; [exact E'|]. split; [exact Hnode|].
    split; [|done]. rewrite Hlen. unfold createBuffer. apply length_replicate.
Qed.
End NoiseLevel.

Lemma noise_stays_below_its_peak_witness :
  (∀ n, 0 <= @random_seq Sample.math n < 1)
  ∧ (∃ data n,
       @RainV2.createNoiseBuffer Sample.math pink SampleRain.playing
       = Done (data, with_random_calls n SampleRain.playing)
       ∧ length data = 80%nat
       ∧ Forall (λ x, -7.66 <= x ∧ x <= 7.66) data)
  ∧ RainV1.noiseType (RainV1.params SampleRain.running) = pink
  ∧ (∃ n, nodes SampleRain.playing !! 8%nat = Some n ∧ state n ≠ Unscheduled)
  ∧ ∃ h' output,
      @RainV1._startNoise Sample.math SampleRain.running SampleRain.playing
      = Done (RainV1.with_noiseNode (Some 11%nat) SampleRain.running, h')
      ∧ nodes h' !! 11%nat
        = Some (mk_node BufferSource 0 0 Playing true [output] [ToNode 1%nat])
      ∧ length output = 80%nat
      ∧ Forall (λ x, -7.66 <= x ∧ x <= 7.66) output.
Proof.
  split; [exact Sample_draws_range|].
  destruct (@noise_stays_below_its_peak Sample.math Sample_draws_range
              pink SampleRain.playing) as (Hv2 & Hv1).
  split; [exact Hv2|]. split; [reflexivity|].
  assert (∃ n, nodes SampleRain.playing !! 8%nat = Some n
               ∧ state n ≠ Unscheduled) as Hold
    by (eexists; split; [reflexivity|discriminate]).
  split; [exact Hold|].
  exact (Hv1 SampleRain.running eq_refl Hold).
Defined.

(** ** Parameters set as a whole *)

Section SetParams.
Context `{MathHost}.

Lemma with_nodes_twice ns ns' h : with_nodes ns (with_nodes ns' h) = with_nodes ns h.
Proof. by destruct h. Qed.

(** The loop over the gains: it changes nodes only, and of them only
  the gain of the bands. *)
Lemma set_gains_loop (bands : list nat) (gains : list Q) : ∀ n from h,
∃ ns,
  for_range from n
    (λ i, set_gain (default 0%nat (bands !! i)) (default 0 (gains !! i))) h
  = Done (tt, with_nodes ns h)
  ∧ sig <$> ns = sigs h
  ∧ (∀ id, (∀ i, (from ≤ i < from + n)%nat → bands !! i ≠ Some id) →
           (from + n ≤ length bands)%nat →
           ns !! id = nodes h !! id)
  ∧ (NoDup bands → (from + n ≤ length bands)%nat →
     ∀ i id, (from ≤ i < from + n)%nat → bands !! i = Some id →
             gain <$> ns !! id
             = (λ _, default 0 (gains !! i)) <$> nodes h !! id).
Proof.
set (body := λ i : nat, _).
induction n as [|n IH]; intros from h.
- exists (nodes h). simpl. unfold ret. rewrite with_nodes_same.
  split; [done|]. split; [done|]. split; [done|]. intros _ _ i id Hi. lia.
- cbn [for_range]. unfold bind at 1. unfold body at 1.
  unfold set_gain, update_node, modify.
  set (h1 := with_nodes _ h).
  destruct (IH (S from) h1) as (ns & E & Hs & Hkeep & Hg).
  exists ns. rewrite E. subst h1. rewrite with_nodes_twice.
  split; [done|]. split; [|split].
  { rewrite Hs. unfold sigs. simpl. apply list_eq. intros i.
    rewrite !list_lookup_fmap, list_lookup_alter.
    case_decide; [subst|done]. by destruct (nodes h !! _). }
  { intros id Hid Hlen.
    rewrite Hkeep by (first [lia|intros j Hj; apply Hid; lia]).
    simpl. rewrite list_lookup_alter_ne; [done|].
    destruct (bands !! from) as [b|] eqn:Hb.
    - simpl. intros ->. by apply (Hid from ltac:(lia)).
    - apply lookup_ge_None in Hb. lia. }
  intros Hnd Hlen i id Hi Hid.
  destruct (decide (i = from)) as [->|Hne].
  + rewrite Hkeep
      by (first [lia|intros j Hj Hjid;
                     pose proof (NoDup_lookup _ _ _ _ Hnd Hid Hjid); lia]).
    simpl. rewrite Hid. simpl. rewrite list_lookup_alter_eq.
    by destruct (nodes h !! id).
  + rewrite (Hg Hnd ltac:(lia) i id ltac:(lia) Hid). simpl.
    rewrite list_lookup_alter_ne; [done|].
    destruct (bands !! from) as [b|] eqn:Hb.
    * simpl. intros ->. pose proof (NoDup_lookup _ _ _ _ Hnd Hid Hb). lia.
    * apply lookup_ge_None in Hb. lia.
Qed.

(** X23: [setParams] of the V1 rain generator stores the merged
    parameters and, of the audio graph, touches at most the gains of the
    equalizer bands: no source is started or stopped, no timer armed or
    cleared, the generator's noise node, interval handle, running flag
    and oscillators are as before; and when the object has no gains, or
    not as many as there are bands, the context is left as it is. *)
Theorem setParams_touches_only_the_equalizer (this : RainV1.RainGenerator)
  (newParams : RainV1.PartialRainParams) (h : host) :
∃ ns,
  RainV1.setParams this newParams h
  = Done (RainV1.with_params (RainV1.spread (RainV1.params this) newParams) this,
          with_nodes ns h)
  ∧ sig <$> ns = sigs h
  ∧ (match RainV1.new_eqGains newParams with
     | Some gains => length gains ≠ length (RainV1.eqBands this)
     | None => True
     end → ns = nodes h).
Proof.
unfold RainV1.setParams, RainV1._applyParams.
destruct (RainV1.new_eqGains newParams) as [gains|].
- destruct (decide (length gains = length (RainV1.eqBands this))) as [Heq|Hne].
  + destruct (set_gains_loop (RainV1.eqBands this) gains (length gains) 0 h)
      as (ns & E & Hs & _).
    exists ns. unfold bind. rewrite E. split; [done|]. split; [done|].
    intros Hne. done.
  + exists (nodes h). unfold bind, ret. rewrite with_nodes_same. done.
- exists (nodes h). unfold bind, ret. rewrite with_nodes_same. done.
Qed.

(** X24: [setParams] with as many gains as the generator has equalizer
    bands, the bands being distinct nodes: every band has the gain of
    its index. *)
Theorem setParams_sets_the_band_gains (this : RainV1.RainGenerator)
  (newParams : RainV1.PartialRainParams) (gains : list Q) (h : host) :
RainV1.new_eqGains newParams = Some gains →
length gains = length (RainV1.eqBands this) →
NoDup (RainV1.eqBands this) →
∃ this' h',
  RainV1.setParams this newParams h = Done (this', h')
  ∧ RainV1.eqGains (RainV1.params this') = gains
  ∧ ∀ i id n, RainV1.eqBands this !! i = Some id →
              nodes h !! id = Some n →
              gain <$> nodes h' !! id = gains !! i.
Proof.
intros Hgains Hlen Hnd. unfold RainV1.setParams, RainV1._applyParams.
rewrite Hgains. rewrite decide_True by done.
destruct (set_gains_loop (RainV1.eqBands this) gains (length gains) 0 h)
  as (ns & E & _ & _ & Hg).
eexists _, _. unfold bind. rewrite E. split; [reflexivity|].
split; [simpl; by rewrite Hgains|].
intros i id n Hi Hn. simpl.
pose proof (lookup_lt_Some _ _ _ Hi) as Hlt.
rewrite (Hg Hnd ltac:(lia) i id ltac:(lia) Hi), Hn. simpl.
destruct (gains !! i) as [g|] eqn:Hgi; [done|].
apply lookup_ge_None in Hgi. lia.
Qed.
End SetParams.

Lemma setParams_sets_the_band_gains_witness :
  NoDup [3; 4]%nat
  ∧ ∃ this' h',
      RainV1.setParams
        (RainV1.mk 0 1 2 3 4 5 6 7 None None false RainV1._defaultRainParams
           [3; 4]%nat ∅)
        (RainV1.mk_partial None (Some [0.5; -2]) None None None None None None
           None None None None None None)
        (with_nodes (take 8 (nodes SampleRain.playing)) Sample.idle)
      = Done (this', h')
      ∧ RainV1.eqGains (RainV1.params this') = [0.5; -2]
      ∧ gain <$> nodes h' !! 3%nat = Some 0.5
      ∧ gain <$> nodes h' !! 4%nat = Some (-2).
Proof.
  assert (NoDup [3; 4]%nat) as Hnd by (apply NoDup_cons; split;
    [by intros [= ?]%list_elem_of_singleton|apply NoDup_singleton]).
  split; [exact Hnd|].
  destruct (setParams_sets_the_band_gains
              (RainV1.mk 0 1 2 3 4 5 6 7 None None false RainV1._defaultRainParams
                 [3; 4]%nat ∅)
              (RainV1.mk_partial None (Some [0.5; -2]) None None None None None
                 None None None None None None None)
              [0.5; -2]
              (with_nodes (take 8 (nodes SampleRain.playing)) Sample.idle)
              eq_refl eq_refl Hnd)
    as (this' & h' & E & Hp & Hg).
  exists this', h'. split; [exact E|]. split; [exact Hp|].
  pose proof (Hg 0%nat 3%nat _ eq_refl eq_refl) as H3.
  pose proof (Hg 1%nat 4%nat _ eq_refl eq_refl) as H4.
  by split.
Defined.
